(** * A shallow embedding of the 4Sense chat engine (src/src/main.ts)

    JavaScript strings are modelled as lists of UTF-16 code units ([jstr]);
    values produced by [JSON.parse] and read through property access are
    modelled by [jsval].  The streaming transport is a state machine driven by
    the socket events; file contents and server replies are explicit inputs. *)

From Stdlib Require Import ZArith List Bool Lia String Ascii QArith.
From Stdlib Require Import Numbers.DecimalString Permutation Sorted.
From Stdlib Require Numbers.DecimalZ Numbers.DecimalPos.
Import ListNotations.
Open Scope Z_scope.
Set Warnings "-register-all".

(** ** Strings *)

Definition jstr := list Z.

(** ASCII literal as UTF-16 code units. *)
Definition u (s : string) : jstr :=
  map (fun a => Z.of_nat (nat_of_ascii a)) (list_ascii_of_string s).

(** ASCII literal in which an apostrophe stands for a double quote, to
    write JSON texts. *)
Definition uq (s : string) : jstr :=
  map (fun c => if c =? 39 then 34 else c) (u s).

Fixpoint jstr_eqb (a b : jstr) : bool :=
  match a, b with
  | [], [] => true
  | x :: a', y :: b' => (x =? y) && jstr_eqb a' b'
  | _, _ => false
  end.

Definition starts_with (p s : jstr) : bool := jstr_eqb (firstn (List.length p) s) p.

(** [String.prototype.includes]. *)
Fixpoint includes (s p : jstr) : bool :=
  match s with
  | [] => jstr_eqb p []
  | _ :: s' => starts_with p s || includes s' p
  end.

(** WhiteSpace and LineTerminator code units, as removed by [trim] and
    matched by the regex class [\s]. *)
Definition is_js_space (c : Z) : bool :=
  (c =? 9) || (c =? 10) || (c =? 11) || (c =? 12) || (c =? 13) || (c =? 32)
  || (c =? 160) || (c =? 5760) || ((8192 <=? c) && (c <=? 8202))
  || (c =? 8232) || (c =? 8233) || (c =? 8239) || (c =? 8287)
  || (c =? 12288) || (c =? 65279).

Fixpoint drop_space (s : jstr) : jstr :=
  match s with
  | c :: s' => if is_js_space c then drop_space s' else s
  | [] => []
  end.

(** [String.prototype.trim]. *)
Definition trim (s : jstr) : jstr := rev (drop_space (rev (drop_space s))).

(** [toLowerCase]: only the letters A-Z matter for the searches below
    (no other code unit lower-cases to one of the letters of "abort"). *)
Definition lower (s : jstr) : jstr :=
  map (fun c => if (65 <=? c) && (c <=? 90) then c + 32 else c) s.

(** Splitting on "\n": the pieces between line feeds. *)
Fixpoint split_nl (s : jstr) : list jstr :=
  match s with
  | [] => [[]]
  | c :: s' =>
      let ls := split_nl s' in
      if c =? 10 then [] :: ls
      else match ls with
           | l :: r => (c :: l) :: r
           | [] => [[c]]
           end
  end.

Definition strip_cr (l : jstr) : jstr :=
  match rev l with
  | 13 :: r => rev r
  | _ => l
  end.

Fixpoint strip_cr_init (ls : list jstr) : list jstr :=
  match ls with
  | [] => []
  | [l] => [l]
  | l :: r => strip_cr l :: strip_cr_init r
  end.

(** [s.split(/\r?\n/)]: every piece followed by a line feed loses one
    trailing carriage return. *)
Definition split_lines (s : jstr) : list jstr := strip_cr_init (split_nl s).

(** [lines.join("\n")]. *)
Fixpoint join_nl (ls : list jstr) : jstr :=
  match ls with
  | [] => []
  | [l] => l
  | l :: r => l ++ 10 :: join_nl r
  end.

Definition z_to_jstr (z : Z) : jstr := u (NilEmpty.string_of_int (Z.to_int z)).

(** ** JavaScript values *)

Inductive jsval :=
| JUndef
| JNull
| JBool (b : bool)
| JNum (q : Q)
| JStr (s : jstr)
| JArr (l : list jsval)
| JObj (l : list (jstr * jsval)).

(** Own property of a value produced by [JSON.parse]; a duplicated key keeps
    its last value, as [JSON.parse] does.  None of the keys the code reads
    is inherited from a prototype, so a missing key reads [undefined]. *)
Fixpoint assoc_last (k : jstr) (l : list (jstr * jsval)) : option jsval :=
  match l with
  | [] => None
  | (k', v) :: r =>
      match assoc_last k r with
      | Some w => Some w
      | None => if jstr_eqb k k' then Some v else None
      end
  end.

Definition obj_prop (v : jsval) (k : jstr) : jsval :=
  match v with
  | JObj l => match assoc_last k l with Some w => w | None => JUndef end
  | JArr l => if jstr_eqb k (u "length") then JNum (inject_Z (Z.of_nat (List.length l))) else JUndef
  | JStr s => if jstr_eqb k (u "length") then JNum (inject_Z (Z.of_nat (List.length s))) else JUndef
  | _ => JUndef
  end.

(** [v.k]: [None] is the TypeError raised when [v] is undefined or null. *)
Definition get_prop (v : jsval) (k : jstr) : option jsval :=
  match v with
  | JUndef | JNull => None
  | _ => Some (obj_prop v k)
  end.

(** [a === b] where [b] is a primitive (the only comparisons in the code). *)
Definition js_strict_eq (a b : jsval) : bool :=
  match a, b with
  | JUndef, JUndef | JNull, JNull => true
  | JBool x, JBool y => Bool.eqb x y
  | JNum x, JNum y => Qeq_bool x y
  | JStr x, JStr y => jstr_eqb x y
  | _, _ => false
  end.

(** Falsy values: [!v]. *)
Definition js_falsy (v : jsval) : bool :=
  match v with
  | JUndef | JNull => true
  | JBool b => negb b
  | JNum q => Qeq_bool q 0
  | JStr s => match s with [] => true | _ => false end
  | _ => false
  end.

(** [a ?? b]. *)
Definition nullish (a b : jsval) : jsval :=
  match a with JUndef | JNull => b | _ => a end.

(** ** [JSON.parse] *)

Module Json.

Fixpoint skip_ws (s : jstr) : jstr :=
  match s with
  | c :: s' => if (c =? 32) || (c =? 9) || (c =? 10) || (c =? 13) then skip_ws s' else s
  | [] => []
  end.

Definition is_digit (c : Z) : bool := (48 <=? c) && (c <=? 57).

Definition hex_val (c : Z) : option Z :=
  if is_digit c then Some (c - 48)
  else if (97 <=? c) && (c <=? 102) then Some (c - 87)
  else if (65 <=? c) && (c <=? 70) then Some (c - 55)
  else None.

(** The body of a string literal after its opening quote. *)
Fixpoint string_body (s : jstr) (acc : jstr) : option (jstr * jstr) :=
  match s with
  | [] => None
  | 34 :: r => Some (rev acc, r)
  | 92 :: 117 :: a :: b :: c :: d :: r =>
      match hex_val a, hex_val b, hex_val c, hex_val d with
      | Some a', Some b', Some c', Some d' =>
          string_body r ((((a' * 16 + b') * 16 + c') * 16 + d') :: acc)
      | _, _, _, _ => None
      end
  | 92 :: e :: r =>
      match e with
      | 34 | 92 | 47 => string_body r (e :: acc)
      | 98 => string_body r (8 :: acc)
      | 102 => string_body r (12 :: acc)
      | 110 => string_body r (10 :: acc)
      | 114 => string_body r (13 :: acc)
      | 116 => string_body r (9 :: acc)
      | _ => None
      end
  | c :: r => if c <? 32 then None else string_body r (c :: acc)
  end.

(** A run of digits: its value and how many there were. *)
Fixpoint digits (s : jstr) (acc : Z) (n : nat) : Z * nat * jstr :=
  match s with
  | c :: r => if is_digit c then digits r (acc * 10 + (c - 48)) (S n) else (acc, n, s)
  | [] => (acc, n, s)
  end.

Definition scale (m e : Z) : Q :=
  if 0 <=? e then inject_Z (m * 10 ^ e) else Qmake m (Z.to_pos (10 ^ (- e))).

(** [-? (0 | [1-9][0-9]* ) (. [0-9]+)? ([eE] [+-]? [0-9]+)?] *)
Definition number (s : jstr) : option (Q * jstr) :=
  let '(sign, s1) := match s with 45 :: r => (-1, r) | _ => (1, s) end in
  match s1 with
  | c :: _ =>
      if negb (is_digit c) then None else
      let '(ip, ni, s2) := if c =? 48 then (0, 1%nat, tl s1) else digits s1 0 O in
      let fr := match s2 with
                | 46 :: r => let '(f, nf, s3) := digits r ip O in
                             if Nat.eqb nf O then None else Some (f, Z.of_nat nf, s3)
                | _ => Some (ip, 0, s2)
                end in
      match fr with
      | None => None
      | Some (m, k, s3) =>
          match s3 with
          | e :: r =>
              if (e =? 101) || (e =? 69) then
                let '(es, r1) := match r with
                                 | 43 :: r' => (1, r') | 45 :: r' => (-1, r') | _ => (1, r) end in
                let '(ev, ne, s4) := digits r1 0 O in
                if Nat.eqb ne O then None
                else Some (scale (sign * m) (es * ev - k), s4)
              else Some (scale (sign * m) (- k), s3)
          | [] => Some (scale (sign * m) (- k), s3)
          end
      end
  | [] => None
  end.

(** Values, array elements and object members; [fuel] bounds the nesting. *)
Fixpoint value (fuel : nat) (s : jstr) : option (jsval * jstr) :=
  match fuel with
  | O => None
  | S f =>
      match skip_ws s with
      | 110 :: 117 :: 108 :: 108 :: r => Some (JNull, r)
      | 116 :: 114 :: 117 :: 101 :: r => Some (JBool true, r)
      | 102 :: 97 :: 108 :: 115 :: 101 :: r => Some (JBool false, r)
      | 34 :: r => match string_body r [] with
                   | Some (t, r') => Some (JStr t, r')
                   | None => None
                   end
      | 91 :: r => match skip_ws r with
                   | 93 :: r' => Some (JArr [], r')
                   | _ => match elements f r [] with
                          | Some (l, r') => Some (JArr l, r')
                          | None => None
                          end
                   end
      | 123 :: r => match skip_ws r with
                    | 125 :: r' => Some (JObj [], r')
                    | _ => match members f r [] with
                           | Some (l, r') => Some (JObj l, r')
                           | None => None
                           end
                    end
      | s' => match number s' with
              | Some (q, r) => Some (JNum q, r)
              | None => None
              end
      end
  end
with elements (fuel : nat) (s : jstr) (acc : list jsval) : option (list jsval * jstr) :=
  match fuel with
  | O => None
  | S f =>
      match value f s with
      | Some (v, r) =>
          match skip_ws r with
          | 44 :: r' => elements f r' (v :: acc)
          | 93 :: r' => Some (rev (v :: acc), r')
          | _ => None
          end
      | None => None
      end
  end
with members (fuel : nat) (s : jstr) (acc : list (jstr * jsval))
  : option (list (jstr * jsval) * jstr) :=
  match fuel with
  | O => None
  | S f =>
      match skip_ws s with
      | 34 :: r =>
          match string_body r [] with
          | Some (k, r1) =>
              match skip_ws r1 with
              | 58 :: r2 =>
                  match value f r2 with
                  | Some (v, r3) =>
                      match skip_ws r3 with
                      | 44 :: r' => members f r' ((k, v) :: acc)
                      | 125 :: r' => Some (rev ((k, v) :: acc), r')
                      | _ => None
                      end
                  | None => None
                  end
              | _ => None
              end
          | None => None
          end
      | _ => None
      end
  end.

(** [JSON.parse(s)]: [None] when it throws a SyntaxError.  Every nested
    value consumes at least one code unit, so [2 * length s + 2] steps of
    fuel never run out on a well-formed text. *)
Definition parse (s : jstr) : option jsval :=
  match value (2 * List.length s + 2)%nat s with
  | Some (v, r) => match skip_ws r with [] => Some v | _ => None end
  | None => None
  end.

End Json.

Example json_parse_chunk :
  Json.parse (uq "{'type':'chunk','text':'Hel'}")
  = Some (JObj [(u "type", JStr (u "chunk")); (u "text", JStr (u "Hel"))]).
Proof. vm_compute. reflexivity. Qed.

(** ** Artifact extraction ([extractArtifactPaths]) *)

(** The section marker "Артефакты:" in UTF-16 code units. *)
Definition artifacts_marker : jstr :=
  [1040; 1088; 1090; 1077; 1092; 1072; 1082; 1090; 1099; 58].

Fixpoint take_nonspace (s : jstr) : jstr * jstr :=
  match s with
  | c :: r => if is_js_space c then ([], s)
              else let '(a, b) := take_nonspace r in (c :: a, b)
  | [] => ([], [])
  end.

(** [trimmed.match(/^-\s*(\/artifacts\/\S+)/u)], returning the group. *)
Definition match_artifact_bullet (t : jstr) : option jstr :=
  match t with
  | 45 :: r =>
      let r1 := drop_space r in
      let pre := u "/artifacts/" in
      if starts_with pre r1 then
        match fst (take_nonspace (skipn (List.length pre) r1)) with
        | [] => None
        | w => Some (pre ++ w)
        end
      else None
  | _ => None
  end.

Fixpoint artifact_lines (lines : list jstr) (inBlock : bool) : list jstr :=
  match lines with
  | [] => []
  | line :: rest =>
      let trimmed := trim line in
      if starts_with artifacts_marker trimmed then artifact_lines rest true
      else if negb inBlock then artifact_lines rest inBlock
      else match match_artifact_bullet trimmed with
           | Some p => p :: artifact_lines rest inBlock
           | None =>
               if (0 <? Z.of_nat (List.length trimmed)) then []
               else artifact_lines rest inBlock
           end
  end.

Definition extractArtifactPaths (text : jstr) : list jstr :=
  artifact_lines (split_lines text) false.

Example artifacts_scenario_E :
  extractArtifactPaths
    (artifacts_marker ++ u "
- /artifacts/report.pdf
- /artifacts/x.csv

Extra")
  = [u "/artifacts/report.pdf"; u "/artifacts/x.csv"].
Proof. vm_compute. reflexivity. Qed.

(** ** Streaming transport ([callChatApiWebSocket], [callChatApiStream]) *)

Module Transport.

(** A settled promise: resolved with [{message, artifactPaths}] or rejected
    with an [Error] carrying a message. *)
Inductive outcome :=
| Resolved (message : jstr) (artifactPaths : list jstr)
| Rejected (error : jstr).

(** The closure state of one [callChatApiWebSocket] call.  [delivered] is
    the sequence of texts passed to [onChunk]; [closes] the codes passed to
    [socket.close] ([None] for a call without a code). *)
Record ws := {
  settled : option outcome;
  fullText : jstr;
  delivered : list jstr;
  closes : list (option Z);
  opened : bool
}.

Definition ws_init : ws :=
  {| settled := None; fullText := []; delivered := []; closes := []; opened := false |}.

Definition set_settled (st : ws) (o : outcome) : ws :=
  {| settled := Some o; fullText := fullText st; delivered := delivered st;
     closes := closes st; opened := opened st |}.

Definition socket_close (st : ws) (code : option Z) : ws :=
  {| settled := settled st; fullText := fullText st; delivered := delivered st;
     closes := closes st ++ [code]; opened := opened st |}.

(** [fullText += text; onChunk(text)]. *)
Definition push_chunk (st : ws) (text : jstr) : ws :=
  {| settled := settled st; fullText := fullText st ++ text;
     delivered := delivered st ++ [text]; closes := closes st; opened := opened st |}.

Definition mark_open (st : ws) : ws :=
  {| settled := settled st; fullText := fullText st; delivered := delivered st;
     closes := closes st; opened := true |}.

Definition resolveOnce (st : ws) (message : jstr) (paths : list jstr) : ws :=
  match settled st with
  | Some _ => st
  | None => set_settled st (Resolved message paths)
  end.

Definition rejectOnce (st : ws) (error : jstr) : ws :=
  match settled st with
  | Some _ => st
  | None => set_settled st (Rejected error)
  end.

Definition finalizeWithText (st : ws) (text : jstr) : ws :=
  resolveOnce st text (extractArtifactPaths text).

Definition onAbort (st : ws) : ws :=
  rejectOnce (socket_close st (Some 1000)) (u "Request aborted").

Definition text_of (v : jsval) : option jstr :=
  match v with JStr s => Some s | _ => None end.

(** [handleFrame]: the new state, and the message of the [Error] it
    throws, if any (it throws before changing anything). *)
Definition handleFrame (st : ws) (frame : jsval) : ws * option jstr :=
  match frame with
  | JStr s =>
      let trimmed := trim s in
      if jstr_eqb trimmed (u "[DONE]") || jstr_eqb trimmed (u "__DONE__") then
        (socket_close (finalizeWithText st (fullText st)) (Some 1000), None)
      else (push_chunk st s, None)
  | JObj _ | JArr _ =>
      let packet := frame in
      let ty := obj_prop packet (u "type") in
      if js_strict_eq ty (JStr (u "error")) then
        let detail :=
          match text_of (obj_prop packet (u "message")) with
          | Some m => m
          | None => match text_of (obj_prop packet (u "error")) with
                    | Some e => e
                    | None => u "Chat websocket error."
                    end
          end in
        (st, Some detail)
      else if js_strict_eq ty (JStr (u "chunk")) then
        let chunk := match text_of (obj_prop packet (u "text")) with
                     | Some t => t | None => [] end in
        if (0 <? Z.of_nat (List.length chunk)) then (push_chunk st chunk, None)
        else (st, None)
      else if js_strict_eq ty (JStr (u "done"))
              || js_strict_eq (obj_prop packet (u "done")) (JBool true) then
        (socket_close (finalizeWithText st (fullText st)) (Some 1000), None)
      else
        let textCandidate :=
          match text_of (obj_prop packet (u "message")) with
          | Some t => Some t
          | None =>
              match text_of (obj_prop packet (u "response")) with
              | Some t => Some t
              | None =>
                  match text_of (obj_prop packet (u "content")) with
                  | Some t => Some t
                  | None => text_of (obj_prop packet (u "text"))
                  end
              end
          end in
        match textCandidate with
        | Some t => (push_chunk st t, None)
        | None => (st, None)
        end
  | _ => (st, None)
  end.

(** A call whose throw reaches the outer [catch] of [socket.onmessage]. *)
Definition handle_or_reject (st : ws) (frame : jsval) : ws :=
  match handleFrame st frame with
  | (st', None) => st'
  | (st', Some e) => rejectOnce st' e
  end.

(** [try { handleFrame(JSON.parse(raw)); } catch { handleFrame(raw); }]:
    the [catch] receives both a SyntaxError of [JSON.parse] and an error
    thrown by the first [handleFrame]. *)
Definition decode_and_handle (st : ws) (raw : jstr) : ws :=
  match Json.parse raw with
  | None => handle_or_reject st (JStr raw)
  | Some v =>
      match handleFrame st v with
      | (st', None) => st'
      | (st', Some _) => handle_or_reject st' (JStr raw)
      end
  end.

(** [event.data]: a string, an ArrayBuffer (given by its UTF-8 decoding),
    or another value (given by [String(event.data ?? "")]). *)
Inductive wsdata :=
| DataString (s : jstr)
| DataBuffer (decoded : jstr)
| DataOther (shown : jstr).

Definition onmessage (st : ws) (d : wsdata) : ws :=
  match settled st with
  | Some _ => st
  | None =>
      match d with
      | DataString raw => decode_and_handle st raw
      | DataBuffer raw => decode_and_handle st raw
      | DataOther s => handle_or_reject st (JStr s)
      end
  end.

Inductive event :=
| EvOpen
| EvMessage (d : wsdata)
| EvError
| EvClose (code : Z)
| EvTimeout
| EvAbort.

(** One event.  Once the call is settled, [cleanup] has detached every
    handler, the abort listener and the open timeout, so nothing happens. *)
Definition step (st : ws) (ev : event) : ws :=
  match settled st with
  | Some _ => st
  | None =>
      match ev with
      | EvOpen => mark_open st
      | EvMessage d => onmessage st d
      | EvError => rejectOnce st (u "WebSocket connection failed.")
      | EvClose code =>
          if code =? 1000 then finalizeWithText st (fullText st)
          else if (0 <? Z.of_nat (List.length (fullText st))) then
            finalizeWithText st (fullText st)
          else rejectOnce st (u "WebSocket closed with code " ++ z_to_jstr code ++ u ".")
      | EvTimeout =>
          if opened st then st
          else rejectOnce (socket_close st None) (u "WebSocket connection timed out.")
      | EvAbort => onAbort st
      end
  end.

Definition run (st : ws) (evs : list event) : ws := fold_left step evs st.

(** The environment of a call: whether [apiHost] is set, whether
    [WebSocket] exists, and whether the signal is already aborted. *)
Record env := { host_configured : bool; websocket_available : bool; pre_aborted : bool }.

Definition ws_start (e : env) : ws :=
  if negb (host_configured e) then
    set_settled ws_init (Rejected (u "API host is not configured. Set it in settings."))
  else if negb (websocket_available e) then
    set_settled ws_init (Rejected (u "WebSocket is not available in this environment."))
  else if pre_aborted e then onAbort ws_init
  else ws_init.

Definition callChatApiWebSocket (e : env) (evs : list event) : ws := run (ws_start e) evs.

(** The single-shot HTTP transport ([callChatApi]).  The server side is an
    input: either [requestJson] throws with a message, or it returns the
    parsed JSON body. *)
Inductive http_reply :=
| HttpThrows (error : jstr)
| HttpJson (body : jsval).

Definition callChatApi (host_ok : bool) (reply : http_reply) : outcome :=
  if negb host_ok then Rejected (u "API host is not configured. Set it in settings.")
  else match reply with
       | HttpThrows m => Rejected m
       | HttpJson result =>
           let content :=
             match result with
             | JObj _ | JArr _ =>
                 nullish (obj_prop result (u "message"))
                   (nullish (obj_prop result (u "response"))
                      (obj_prop result (u "content")))
             | _ => JUndef
             end in
           match content with
           | JStr c => Resolved c (extractArtifactPaths c)
           | _ => Rejected (u "Chat API returned an unexpected response.")
           end
       end.

(** [isAbortError]. *)
Definition isAbortError (error : jstr) : bool := includes (lower error) (u "abort").

(** What the caller of [callChatApiStream] observes: the settled promise
    ([None] while pending), the texts passed to [onChunk], whether the HTTP
    fallback ran, and the close codes sent on the socket. *)
Record send_result := {
  result : option outcome;
  chunks : list jstr;
  fallback_used : bool;
  ws_closes : list (option Z)
}.

Definition callChatApiStream (e : env) (evs : list event) (reply : http_reply)
  : send_result :=
  let st := callChatApiWebSocket e evs in
  match settled st with
  | Some (Rejected err) =>
      if isAbortError err then
        {| result := Some (Rejected err); chunks := delivered st;
           fallback_used := false; ws_closes := closes st |}
      else
        let response := callChatApi (host_configured e) reply in
        let extra := match response with
                     | Resolved m _ => if (0 <? Z.of_nat (List.length m)) then [m] else []
                     | Rejected _ => []
                     end in
        {| result := Some response; chunks := delivered st ++ extra;
           fallback_used := true; ws_closes := closes st |}
  | o =>
      {| result := o; chunks := delivered st; fallback_used := false;
         ws_closes := closes st |}
  end.

End Transport.

Definition env_ok : Transport.env :=
  {| Transport.host_configured := true; Transport.websocket_available := true;
     Transport.pre_aborted := false |}.

Example scenario_A :
  Transport.result
    (Transport.callChatApiStream env_ok
       [Transport.EvOpen;
        Transport.EvMessage (Transport.DataString (uq "{'type':'chunk','text':'Hel'}"));
        Transport.EvMessage (Transport.DataString (uq "{'type':'chunk','text':'lo'}"));
        Transport.EvMessage (Transport.DataString (uq "{'type':'done'}"))]
       (Transport.HttpThrows []))
  = Some (Transport.Resolved (u "Hello") []).
Proof. vm_compute. reflexivity. Qed.

Example scenario_B :
  Transport.chunks
    (Transport.callChatApiStream env_ok
       [Transport.EvOpen;
        Transport.EvMessage (Transport.DataString (u "Hi"));
        Transport.EvMessage (Transport.DataString (u "[DONE]"))]
       (Transport.HttpThrows []))
  = [u "Hi"].
Proof. vm_compute. reflexivity. Qed.

Example scenario_C :
  let r := Transport.callChatApiStream env_ok [Transport.EvTimeout]
             (Transport.HttpJson (JObj [(u "message", JStr (u "ok"))])) in
  Transport.result r = Some (Transport.Resolved (u "ok") [])
  /\ Transport.chunks r = [u "ok"] /\ Transport.fallback_used r = true.
Proof. vm_compute. repeat split. Qed.

(** ** Reveal scheduler ([updateTypingText], [tickStreamingTyping]) *)

Module Reveal.

Definition STREAM_TYPING_BASE_STEP : Z := 2.
Definition STREAM_TYPING_CATCHUP_WINDOW : Z := 20.

(** The typing fields of the chat modal.  Bodies are identified by a
    number; [rendered] is what the last [setText] or [completeFinalize]
    put in the streaming body. *)
Record typing := {
  renderTarget : option nat;
  renderText : jstr;
  progress : Z;
  timer : bool;
  finalizeTarget : option (nat * jstr);
  rendered : option jstr
}.

Definition with_progress (st : typing) (p : Z) (tm : bool) : typing :=
  {| renderTarget := renderTarget st; renderText := renderText st; progress := p;
     timer := tm; finalizeTarget := finalizeTarget st; rendered := rendered st |}.

Definition stopStreamingTyping (st : typing) : typing := with_progress st 0 false.

Definition completeFinalize (st : typing) (text : jstr) : typing :=
  let st' := stopStreamingTyping st in
  {| renderTarget := renderTarget st'; renderText := renderText st';
     progress := progress st'; timer := timer st'; finalizeTarget := None;
     rendered := Some text |}.

(** [Math.ceil(a / b)] for an integer [a] and a positive [b]. *)
Definition ceil_div (a b : Z) : Z := - ((- a) / b).

Definition tickStreamingTyping (st : typing) : typing :=
  match renderTarget st with
  | None => stopStreamingTyping st
  | Some _ =>
      let fullText := renderText st in
      match fullText with
      | [] => stopStreamingTyping st
      | _ =>
          let len := Z.of_nat (List.length fullText) in
          let remaining := len - progress st in
          if remaining <=? 0 then
            match finalizeTarget st with
            | Some (_, text) => completeFinalize st text
            | None => stopStreamingTyping st
            end
          else
            let catchup := ceil_div remaining STREAM_TYPING_CATCHUP_WINDOW in
            let step := Z.max STREAM_TYPING_BASE_STEP catchup in
            let p := Z.min len (progress st + step) in
            {| renderTarget := renderTarget st; renderText := fullText; progress := p;
               timer := timer st; finalizeTarget := finalizeTarget st;
               rendered := Some (firstn (Z.to_nat p) fullText) |}
      end
  end.

Definition updateTypingText (st : typing) (body : nat) (text : jstr) : typing :=
  let p := match renderTarget st with
           | Some b => if Nat.eqb b body then progress st else 0
           | None => 0
           end in
  {| renderTarget := Some body; renderText := text; progress := p; timer := true;
     finalizeTarget := finalizeTarget st; rendered := rendered st |}.

Fixpoint ticks (n : nat) (st : typing) : typing :=
  match n with
  | O => st
  | S k => ticks k (tickStreamingTyping st)
  end.

End Reveal.

(** ** Snapshot tracker ([readSnapshot], [getSnapshotState], [writeSnapshot]) *)

Module Snapshot.

(** The current files as [(file.path, file.stat.mtime)]. *)
Definition files := list (jstr * Z).

(** [new Map(files.map(...))]: a later pair overwrites an earlier key. *)
Fixpoint map_lookup (fs : files) (k : jstr) : option Z :=
  match fs with
  | [] => None
  | (p, m) :: r =>
      match map_lookup r k with
      | Some m' => Some m'
      | None => if jstr_eqb p k then Some m else None
      end
  end.

Fixpoint mem (k : jstr) (ks : list jstr) : bool :=
  match ks with [] => false | k' :: r => jstr_eqb k k' || mem k r end.

Fixpoint map_keys (fs : files) : list jstr :=
  match fs with
  | [] => []
  | (p, _) :: r => if mem p (map_keys r) then map_keys r else p :: map_keys r
  end.

(** [currentMap.get(key)]: only string keys are present. *)
Definition map_get (fs : files) (key : jsval) : jsval :=
  match key with
  | JStr k => match map_lookup fs k with Some m => JNum (inject_Z m) | None => JUndef end
  | _ => JUndef
  end.

(** The snapshot file on disk. *)
Inductive disk :=
| NoFile
| FileText (content : jstr).

(** [readSnapshot]: [null] when the file is absent or [JSON.parse]
    throws; otherwise the parsed value, whatever its shape. *)
Definition readSnapshot (d : disk) : jsval :=
  match d with
  | NoFile => JNull
  | FileText c => match Json.parse c with Some v => v | None => JNull end
  end.

(** [for (const entry of snapshot.files)]; [None] is a TypeError. *)
Fixpoint check_entries (cur : files) (entries : list jsval) : option (bool * bool) :=
  match entries with
  | [] => Some (true, false)
  | entry :: r =>
      match get_prop entry (u "path") with
      | None => None
      | Some pth =>
          let currentMtime := map_get cur pth in
          if js_strict_eq currentMtime JUndef
             || negb (js_strict_eq currentMtime (obj_prop entry (u "mtime")))
          then Some (true, true)
          else check_entries cur r
      end
  end.

(** The values a [for ... of] loop visits; [None] when not iterable.  The
    entries of a string are its characters (one per code unit here: only
    whether there is a first one matters, its [path] is undefined). *)
Definition iterate (v : jsval) : option (list jsval) :=
  match v with
  | JArr l => Some l
  | JStr s => Some (map (fun c => JStr [c]) s)
  | _ => None
  end.

(** [getSnapshotState] after [readSnapshot]: [Some (exists, changed)], or
    [None] when the evaluation throws. *)
Definition snapshot_state (snapshot : jsval) (cur : files) : option (bool * bool) :=
  if js_falsy snapshot then Some (false, false)
  else
    match get_prop snapshot (u "files") with
    | None => None
    | Some fv =>
        match get_prop fv (u "length") with
        | None => None
        | Some len =>
            if negb (js_strict_eq len (JNum (inject_Z (Z.of_nat (List.length (map_keys cur))))))
            then Some (true, true)
            else match iterate fv with
                 | None => None
                 | Some entries => check_entries cur entries
                 end
        end
    end.

Definition getSnapshotState (d : disk) (cur : files) : option (bool * bool) :=
  snapshot_state (readSnapshot d) cur.

(** The value [writeSnapshot] serialises. *)
Definition snapshot_json (fs : files) : jsval :=
  JObj [(u "files",
         JArr (map (fun '(p, m) => JObj [(u "path", JStr p); (u "mtime", JNum (inject_Z m))]) fs))].

End Snapshot.

(** ** Chat log ([parseChatLog], [appendChatLog], [loadChatEntries]) *)

Module ChatLog.

Inductive role := User | Assistant | System.

Record entry := { role_of : role; content_of : jstr; timestamp_of : option jstr }.

Definition role_name (r : role) : jstr :=
  match r with User => u "user" | Assistant => u "assistant" | System => u "system" end.

Definition is_line_terminator (c : Z) : bool :=
  (c =? 10) || (c =? 13) || (c =? 8232) || (c =? 8233).

Definition ends_with (suf s : jstr) : bool := starts_with (rev suf) (rev s).

Definition header_group (rest suf : jstr) : option jstr :=
  if ends_with suf rest then
    let x := firstn (List.length rest - List.length suf) rest in
    match x with
    | [] => None
    | _ => if existsb is_line_terminator x then None else Some x
    end
  else None.

(** [line.match(/^## \[(.+)\] (user|assistant)$/u)]: the role and the
    timestamp group.  The anchored suffix fixes where [(.+)] ends. *)
Definition match_header (line : jstr) : option (role * jstr) :=
  if starts_with (u "## [") line then
    let rest := skipn 4 line in
    match header_group rest (u "] user") with
    | Some x => Some (User, x)
    | None =>
        match header_group rest (u "] assistant") with
        | Some x => Some (Assistant, x)
        | None => None
        end
    end
  else None.

Record md_state := {
  messages : list entry;
  currentRole : option role;
  currentTimestamp : option jstr;
  buffer : list jstr
}.

Definition flush (st : md_state) : list entry :=
  match currentRole st, buffer st with
  | Some r, _ :: _ =>
      let text := trim (join_nl (buffer st)) in
      match text with
      | [] => messages st
      | _ => messages st ++ [{| role_of := r; content_of := text; timestamp_of := currentTimestamp st |}]
      end
  | _, _ => messages st
  end.

Definition md_line (st : md_state) (line : jstr) : md_state :=
  match match_header line with
  | Some (r, ts) =>
      {| messages := flush st; currentRole := Some r; currentTimestamp := Some ts; buffer := [] |}
  | None =>
      if starts_with (u "# Chat history") line then st
      else {| messages := messages st; currentRole := currentRole st;
              currentTimestamp := currentTimestamp st; buffer := buffer st ++ [line] |}
  end.

Definition md_init : md_state :=
  {| messages := []; currentRole := None; currentTimestamp := None; buffer := [] |}.

Definition parse_markdown (content : jstr) : list entry :=
  flush (fold_left md_line (split_lines content) md_init).

Section Legacy.

(** [normalizeTimestamp] (Date parsing and ISO formatting) is left as a
    parameter: no claim depends on how timestamps are normalised. *)
Variable normalizeTimestamp : jsval -> option jstr.

Definition nullish_chain (record : jsval) (keys : list string) (default : jsval) : jsval :=
  fold_right (fun k acc => nullish (obj_prop record (u k)) acc) default keys.

Definition extractTimestamp (record : jsval) : option jstr :=
  normalizeTimestamp
    (nullish_chain record ["timestamp"; "time"; "created_at"; "createdAt"; "date"; "ts"]%string JNull).

Definition legacy_item (item : jsval) : option entry :=
  match item with
  | JObj _ | JArr _ =>
      let r := nullish_chain item ["role"; "type"; "author"; "sender"]%string JNull in
      let role :=
        if js_strict_eq r (JStr (u "user")) then Some User
        else if js_strict_eq r (JStr (u "assistant")) then Some Assistant
        else if js_strict_eq r (JStr (u "system")) then Some System
        else None in
      match role with
      | None => None
      | Some ro =>
          match nullish_chain item ["content"; "text"; "message"]%string (JStr []) with
          | JStr c => Some {| role_of := ro; content_of := c; timestamp_of := extractTimestamp item |}
          | _ => None
          end
      end
  | _ => None
  end.

Definition legacy_entries (parsed : jsval) : list entry :=
  let rawItems :=
    match parsed with
    | JArr _ => parsed
    | _ => nullish_chain parsed ["messages"; "history"; "items"; "log"]%string (JArr [])
    end in
  let items := match rawItems with JArr l => l | _ => [] end in
  fold_right (fun it acc => match legacy_item it with Some e => e :: acc | None => acc end) [] items.

Definition parseChatLog (content : jstr) : list entry :=
  let trimmed := trim content in
  if starts_with (u "{") trimmed || starts_with (u "[") trimmed then
    match Json.parse trimmed with
    | Some parsed => legacy_entries parsed
    | None => parse_markdown content
    end
  else parse_markdown content.

(** [loadChatEntries]: an absent log file has no entries. *)
Definition loadChatEntries (file : option jstr) : list entry :=
  match file with
  | None => []
  | Some content => parseChatLog content
  end.

End Legacy.

Definition chat_log_header : jstr := u "# Chat history" ++ [10; 10].

Definition entry_text (ts : jstr) (r : role) (content : jstr) : jstr :=
  u "## [" ++ ts ++ u "] " ++ role_name r ++ [10] ++ content ++ [10; 10].

(** [appendChatLog] through [appendTextFile]: appended to an existing log,
    or written after the header when the log is created. *)
Definition appendChatLog (file : option jstr) (ts : jstr) (r : role) (content : jstr) : jstr :=
  match file with
  | Some previous => previous ++ entry_text ts r content
  | None => chat_log_header ++ entry_text ts r content
  end.

(** Appending a sequence of turns (timestamp, role, content) in order. *)
Definition append_all (file : option jstr) (turns : list (jstr * role * jstr)) : option jstr :=
  fold_left (fun f '(ts, r, c) => Some (appendChatLog f ts r c)) turns file.

End ChatLog.

(** * Properties of the streaming transport *)

Module TransportFacts.
Import Transport.

Lemma run_snoc (st : ws) (evs : list event) (ev : event) :
  run st (evs ++ [ev]) = step (run st evs) ev.
Proof. unfold run. rewrite fold_left_app. reflexivity. Qed.

Lemma step_settled (st : ws) (ev : event) (o : outcome) :
  settled st = Some o -> step st ev = st.
Proof. intros H. unfold step. rewrite H. reflexivity. Qed.

Lemma run_settled (st : ws) (evs : list event) (o : outcome) :
  settled st = Some o -> run st evs = st.
Proof.
  revert st. induction evs as [|ev evs IH]; intros st H; [reflexivity|].
  simpl. rewrite (step_settled st ev o H). apply IH. exact H.
Qed.

(** The texts passed to [onChunk] concatenate to [fullText], and a resolved
    call carries [fullText] as its message. *)
Definition inv (st : ws) : Prop :=
  List.concat (delivered st) = fullText st /\
  forall m p, settled st = Some (Resolved m p) -> m = fullText st.

Lemma push_chunk_inv (st : ws) (t : jstr) :
  settled st = None -> inv st -> inv (push_chunk st t).
Proof.
  unfold inv, push_chunk; simpl. intros Hs [H _]. split.
  - rewrite concat_app. simpl. rewrite app_nil_r, H. reflexivity.
  - rewrite Hs. discriminate.
Qed.

Lemma reject_inv (st : ws) (e : jstr) : inv st -> inv (rejectOnce st e).
Proof.
  unfold rejectOnce. destruct (settled st) eqn:Hs; auto.
  unfold inv, set_settled; simpl. intros [H _]. split; [exact H | discriminate].
Qed.

Lemma finalize_close_inv (st : ws) :
  settled st = None -> inv st ->
  inv (socket_close (finalizeWithText st (fullText st)) (Some 1000)).
Proof.
  unfold finalizeWithText, resolveOnce. intros Hs [H _]. rewrite Hs.
  unfold inv, socket_close, set_settled; simpl. split; [exact H|].
  intros m p E. injection E as <- _. reflexivity.
Qed.

Lemma finalize_inv (st : ws) :
  settled st = None -> inv st -> inv (finalizeWithText st (fullText st)).
Proof.
  unfold finalizeWithText, resolveOnce. intros Hs [H _]. rewrite Hs.
  unfold inv, set_settled; simpl. split; [exact H|].
  intros m p E. injection E as <- _. reflexivity.
Qed.

Lemma handleFrame_inv (st : ws) (v : jsval) :
  settled st = None -> inv st ->
  inv (fst (handleFrame st v)) /\
  (forall e, snd (handleFrame st v) = Some e -> fst (handleFrame st v) = st).
Proof.
  intros Hs H. unfold handleFrame.
  destruct v; simpl;
    repeat match goal with
           | |- context [if ?b then _ else _] => destruct b
           | |- context [match ?x with Some _ => _ | None => _ end] => destruct x
           end; simpl;
    (split; [| intros ? E; try discriminate; reflexivity]);
    auto using push_chunk_inv, finalize_close_inv.
Qed.

Lemma handle_or_reject_inv (st : ws) (v : jsval) :
  settled st = None -> inv st -> inv (handle_or_reject st v).
Proof.
  intros Hs H. unfold handle_or_reject.
  destruct (handleFrame_inv st v Hs H) as [H1 _].
  destruct (handleFrame st v) as [st' [e|]]; simpl in *; auto using reject_inv.
Qed.

Lemma step_inv (st : ws) (ev : event) : inv st -> inv (step st ev).
Proof.
  intros H. unfold step. destruct (settled st) eqn:Hs; [exact H|].
  destruct ev as [|d| |code| |]; simpl.
  - unfold mark_open, inv; simpl. exact H.
  - unfold onmessage. rewrite Hs.
    destruct d as [raw|raw|sh]; try (apply handle_or_reject_inv; assumption);
      unfold decode_and_handle; destruct (Json.parse raw) as [v|];
      try (apply handle_or_reject_inv; assumption);
      destruct (handleFrame_inv st v Hs H) as [H1 H2];
      destruct (handleFrame st v) as [st' [e|]]; simpl in *; auto;
      rewrite (H2 e eq_refl); apply handle_or_reject_inv; assumption.
  - apply reject_inv, H.
  - destruct (code =? 1000); [|destruct (0 <? _)];
      auto using finalize_inv, reject_inv.
  - destruct (opened st); auto.
    apply reject_inv. unfold inv, socket_close; simpl. exact H.
  - unfold onAbort. apply reject_inv. unfold inv, socket_close; simpl. exact H.
Qed.

Lemma run_inv (st : ws) (evs : list event) : inv st -> inv (run st evs).
Proof.
  revert st. induction evs as [|ev evs IH]; intros st H; [exact H|].
  simpl. apply IH, step_inv, H.
Qed.

Lemma start_inv (e : env) : inv (ws_start e).
Proof.
  unfold ws_start, inv.
  destruct (host_configured e), (websocket_available e), (pre_aborted e);
    simpl; split; try reflexivity; discriminate.
Qed.

(** On the WebSocket path alone, the chunks delivered to [onChunk] make up
    the resolved message. *)
Lemma websocket_chunks_concat (e : env) (evs : list event) (reply : http_reply)
  (m : jstr) (p : list jstr) :
  settled (callChatApiWebSocket e evs) = Some (Resolved m p) ->
  result (callChatApiStream e evs reply) = Some (Resolved m p) /\
  List.concat (chunks (callChatApiStream e evs reply)) = m.
Proof.
  intros H. destruct (run_inv (ws_start e) evs (start_inv e)) as [H1 H2].
  unfold callChatApiStream. fold (callChatApiWebSocket e evs) in *. rewrite H. simpl.
  split; [reflexivity|]. rewrite H1. symmetry. eapply H2. exact H.
Qed.

End TransportFacts.

Module TransportClaims.
Import Transport TransportFacts.

(** C10: once a close event reaches an unsettled call, a close with code
    1000 resolves with the accumulated text (possibly empty), and a close
    with any other code resolves with the accumulated text when at least
    one code unit was accumulated; the HTTP fallback is not used. *)
Theorem close_resolves_with_accumulated_text (e : env) (evs : list event)
  (code : Z) (reply : http_reply)
  (Hpending : settled (callChatApiWebSocket e evs) = None)
  (Hcode : code = 1000 \/ (code <> 1000 /\ fullText (callChatApiWebSocket e evs) <> [])) :
  let text := fullText (callChatApiWebSocket e evs) in
  let r := callChatApiStream e (evs ++ [EvClose code]) reply in
  result r = Some (Resolved text (extractArtifactPaths text)) /\ fallback_used r = false.
Proof.
  cbv zeta. unfold callChatApiStream, callChatApiWebSocket in *.
  rewrite run_snoc. set (st := run (ws_start e) evs) in *.
  assert (Hstep : step st (EvClose code)
                  = set_settled st (Resolved (fullText st) (extractArtifactPaths (fullText st)))).
  { unfold step, finalizeWithText, resolveOnce. rewrite Hpending.
    destruct Hcode as [-> | [Hne Hft]]; [reflexivity|].
    apply Z.eqb_neq in Hne. rewrite Hne.
    assert (Hlen : (0 <? Z.of_nat (List.length (fullText st))) = true).
    { destruct (fullText st); [contradiction|]. simpl. apply Z.ltb_lt. lia. }
    rewrite Hlen. reflexivity. }
  rewrite Hstep. simpl. split; reflexivity.
Qed.

Lemma close_resolves_with_accumulated_text_witness :
  settled (callChatApiWebSocket env_ok [EvOpen]) = None /\
  (let text := fullText (callChatApiWebSocket env_ok [EvOpen]) in
   let r := callChatApiStream env_ok ([EvOpen] ++ [EvClose 1000]) (HttpThrows []) in
   result r = Some (Resolved text (extractArtifactPaths text)) /\ fallback_used r = false).
Proof.
  split; [reflexivity|].
  apply (close_resolves_with_accumulated_text env_ok [EvOpen] 1000 (HttpThrows []));
    [reflexivity | left; reflexivity].
Defined.

(** C8: when the signal aborts an unsettled call (before the socket opens
    or while it streams), the socket is closed with code 1000, the call
    rejects with the abort error "Request aborted", and the HTTP fallback
    is not attempted; a signal already aborted when the call starts does
    the same. *)
Theorem abort_rejects_without_fallback (e : env) (evs : list event) (reply : http_reply)
  (Hpending : settled (callChatApiWebSocket e evs) = None) :
  let r := callChatApiStream e (evs ++ [EvAbort]) reply in
  result r = Some (Rejected (u "Request aborted")) /\ fallback_used r = false /\
  ws_closes r = closes (callChatApiWebSocket e evs) ++ [Some 1000] /\
  (forall evs',
     let r0 := callChatApiStream
                 {| host_configured := true; websocket_available := true; pre_aborted := true |}
                 evs' reply in
     result r0 = Some (Rejected (u "Request aborted")) /\ fallback_used r0 = false /\
     ws_closes r0 = [Some 1000]).
Proof.
  cbv zeta. unfold callChatApiStream, callChatApiWebSocket in *.
  rewrite run_snoc. set (st := run (ws_start e) evs) in *.
  assert (Hstep : step st EvAbort
                  = set_settled (socket_close st (Some 1000)) (Rejected (u "Request aborted"))).
  { unfold step. rewrite Hpending. unfold onAbort, rejectOnce.
    change (settled (socket_close st (Some 1000))) with (settled st).
    rewrite Hpending. reflexivity. }
  rewrite Hstep. split; [reflexivity|]. split; [reflexivity|]. split; [reflexivity|].
  intros evs'. unfold callChatApiStream, callChatApiWebSocket.
  rewrite (run_settled _ evs' (Rejected (u "Request aborted"))) by reflexivity.
  repeat split; reflexivity.
Qed.

Lemma abort_rejects_without_fallback_witness :
  settled (callChatApiWebSocket env_ok [EvOpen]) = None /\
  result (callChatApiStream env_ok ([EvOpen] ++ [EvAbort]) (HttpThrows []))
  = Some (Rejected (u "Request aborted")).
Proof.
  split; [reflexivity|].
  apply (abort_rejects_without_fallback env_ok [EvOpen] (HttpThrows [])). reflexivity.
Defined.

(** A text frame carrying a structured error. *)
Definition error_frame_text : jstr := uq "{'type':'error','message':'boom'}".

(** C1 (failing input): [handleFrame] throws "boom" on the parsed error
    frame, but the throw happens inside the [try] whose [catch] handles
    [JSON.parse] failures, so the raw JSON text is taken as chunk text; the
    call later resolves with it instead of rejecting with the detail, and
    the outer [catch] that calls [rejectOnce] is never reached. *)
Lemma error_frame_not_surfaced :
  let r := callChatApiStream env_ok
             [EvOpen; EvMessage (DataString error_frame_text); EvClose 1000]
             (HttpThrows (u "unused")) in
  (exists v, Json.parse error_frame_text = Some v /\ snd (handleFrame ws_init v) = Some (u "boom")) /\
  result r = Some (Resolved error_frame_text []) /\
  chunks r = [error_frame_text] /\ fallback_used r = false.
Proof. vm_compute. split; [eexists; split; reflexivity|]. repeat split. Qed.

(** C2 (failing input): a connection error after a chunk has been delivered
    rejects the WebSocket call, and the fallback delivers the whole HTTP
    reply again through [onChunk]: the delivered texts are "Hel" then
    "Hello", whose concatenation is not the resolved message "Hello". *)
Theorem chunks_duplicated_after_error_fallback :
  let r := callChatApiStream env_ok
             [EvOpen; EvMessage (DataString (u "Hel")); EvError]
             (HttpJson (JObj [(u "message", JStr (u "Hello"))])) in
  result r = Some (Resolved (u "Hello") []) /\
  chunks r = [u "Hel"; u "Hello"] /\
  List.concat (chunks r) <> u "Hello".
Proof. vm_compute. split; [reflexivity|]. split; [reflexivity|]. discriminate. Qed.





End TransportClaims.

(** * Properties of the reveal scheduler *)

Module RevealClaims.
Import Reveal.

(** A message body being typed: 400 characters, none revealed yet. *)
Definition backlog_400 : typing :=
  {| renderTarget := Some 0%nat; renderText := repeat 97 400; progress := 0;
     timer := true; finalizeTarget := None; rendered := None |}.

(** C3 (counterexample): with a fixed target of 400 characters, none of the
    first 20 ticks brings the revealed count to 400: each step is
    [max(2, ceil(remaining / 20))], so the backlog shrinks geometrically. *)
Lemma backlog_not_cleared_in_window :
  forallb (fun k => progress (ticks k backlog_400) <? 400) (seq 0 21) = true.
Proof. vm_compute. reflexivity. Qed.

Lemma ceil_div_pos (a : Z) : 0 < a -> 0 < ceil_div a 20.
Proof.
  intros Ha. unfold ceil_div.
  assert (- a / 20 < 0) by (apply Z.div_lt_upper_bound; lia). lia.
Qed.

Lemma tick_fields (st : typing) :
  renderTarget (tickStreamingTyping st) = renderTarget st /\
  renderText (tickStreamingTyping st) = renderText st.
Proof.
  unfold tickStreamingTyping.
  destruct (renderTarget st) eqn:Eg; [|simpl; auto].
  destruct (renderText st) eqn:E; [simpl; auto|].
  destruct (Z.of_nat _ - progress st <=? 0);
    [destruct (finalizeTarget st) as [[? ?]|]|]; simpl; auto.
Qed.

(** One tick with a backlog: the revealed count becomes
    [min(len, revealed + max(2, ceil(remaining / 20)))]. *)
Lemma tick_advances (st : typing) (b : nat) :
  renderTarget st = Some b ->
  0 <= progress st < Z.of_nat (List.length (renderText st)) ->
  progress (tickStreamingTyping st)
  = Z.min (Z.of_nat (List.length (renderText st)))
      (progress st + Z.max STREAM_TYPING_BASE_STEP
                       (ceil_div (Z.of_nat (List.length (renderText st)) - progress st)
                          STREAM_TYPING_CATCHUP_WINDOW)).
Proof.
  intros Hb Hp. unfold tickStreamingTyping. rewrite Hb.
  destruct (renderText st) as [|c t] eqn:E; [simpl in Hp; lia|].
  rewrite <- E in *.
  replace (Z.of_nat (List.length (renderText st)) - progress st <=? 0) with false
    by (symmetry; apply Z.leb_gt; lia).
  reflexivity.
Qed.

(** C3 (amended): a tick never leaves the revealed count above the target
    length; while characters remain unrevealed, a tick sets the count to
    [min(len, revealed + max(2, ceil(remaining / 20)))], which is strictly
    larger; and with a fixed target the count reaches the target length
    after at most [ceil(remaining / 2)] ticks. *)
Theorem reveal_tick_bounds :
  (forall st, progress (tickStreamingTyping st) <= Z.of_nat (List.length (renderText st))) /\
  (forall st b, renderTarget st = Some b ->
     0 <= progress st < Z.of_nat (List.length (renderText st)) ->
     let len := Z.of_nat (List.length (renderText st)) in
     progress (tickStreamingTyping st)
       = Z.min len (progress st + Z.max 2 (ceil_div (len - progress st) 20)) /\
     progress st < progress (tickStreamingTyping st)) /\
  (forall st b, renderTarget st = Some b ->
     0 <= progress st <= Z.of_nat (List.length (renderText st)) ->
     exists k : nat,
       2 * Z.of_nat k <= Z.of_nat (List.length (renderText st)) - progress st + 1 /\
       progress (ticks k st) = Z.of_nat (List.length (renderText st))).
Proof.
  split; [|split].
  - intros st. unfold tickStreamingTyping.
    destruct (renderTarget st); [|simpl; lia].
    destruct (renderText st) as [|c t] eqn:E; [simpl; lia|].
    destruct (_ <=? 0); [destruct (finalizeTarget st) as [[? ?]|]|]; simpl; lia.
  - intros st b Hb Hp. cbv zeta.
    rewrite (tick_advances st b Hb Hp). split; [reflexivity|].
    pose proof (ceil_div_pos (Z.of_nat (List.length (renderText st)) - progress st)).
    unfold STREAM_TYPING_BASE_STEP. lia.
  - intros st b Hb Hp.
    remember (Z.to_nat (Z.of_nat (List.length (renderText st)) - progress st)) as n eqn:En.
    revert st Hb Hp En. induction n as [n IH] using lt_wf_ind.
    intros st Hb Hp En.
    destruct (Z.eq_dec (progress st) (Z.of_nat (List.length (renderText st)))) as [Heq|Hne].
    + exists O. simpl. lia.
    + assert (Hp' : 0 <= progress st < Z.of_nat (List.length (renderText st))) by lia.
      pose proof (tick_advances st b Hb Hp') as Ht.
      pose proof (ceil_div_pos (Z.of_nat (List.length (renderText st)) - progress st)) as Hc.
      destruct (tick_fields st) as [Htg Htx].
      unfold STREAM_TYPING_BASE_STEP in Ht.
      set (st' := tickStreamingTyping st) in *.
      destruct (IH (Z.to_nat (Z.of_nat (List.length (renderText st')) - progress st')))
        with (st := st') as [k [Hk Hr]].
      * rewrite Htx. lia.
      * rewrite Htg. exact Hb.
      * rewrite Htx. lia.
      * reflexivity.
      * exists (S k). simpl. fold st'. rewrite Hr, Htx. split; [|reflexivity].
        rewrite Htx in Hk. lia.
Qed.

Lemma reveal_tick_bounds_witness :
  progress (tickStreamingTyping backlog_400) = 20 /\
  exists k : nat, 2 * Z.of_nat k <= 401 /\ progress (ticks k backlog_400) = 400.
Proof.
  split.
  - rewrite (proj1 ((proj1 (proj2 reveal_tick_bounds)) backlog_400 0%nat eq_refl
                      ltac:(vm_compute; split; congruence))).
    vm_compute. reflexivity.
  - apply ((proj2 (proj2 reveal_tick_bounds)) backlog_400 0%nat eq_refl).
    vm_compute. split; congruence.
Defined.

End RevealClaims.

(** * Properties of the snapshot tracker *)

Module SnapshotClaims.
Import Snapshot.

Lemma jstr_eqb_eq (a b : jstr) : jstr_eqb a b = true <-> a = b.
Proof.
  revert b. induction a as [|x a IH]; intros [|y b]; simpl; try (split; congruence).
  rewrite andb_true_iff, Z.eqb_eq, IH. split; [intros [-> ->]; reflexivity|].
  intros H; injection H as -> ->; split; reflexivity.
Qed.

Lemma jstr_eqb_refl (a : jstr) : jstr_eqb a a = true.
Proof. apply jstr_eqb_eq. reflexivity. Qed.

Lemma mem_In (k : jstr) (ks : list jstr) : mem k ks = true <-> In k ks.
Proof.
  induction ks as [|k' ks IH]; simpl; [split; [discriminate|tauto]|].
  rewrite orb_true_iff, jstr_eqb_eq, IH. split; intros [H|H]; auto.
Qed.

Lemma map_keys_In (fs : files) : forall k, In k (map_keys fs) <-> In k (map fst fs).
Proof.
  induction fs as [|[p m] fs IH]; intros k; simpl; [tauto|].
  destruct (mem p (map_keys fs)) eqn:E.
  - apply mem_In, IH in E. rewrite IH. split; [auto|]. intros [<-|H]; auto.
  - simpl. rewrite IH. tauto.
Qed.

Lemma map_keys_nodup (fs : files) : NoDup (map fst fs) -> map_keys fs = map fst fs.
Proof.
  induction fs as [|[p m] fs IH]; simpl; intros H; [reflexivity|].
  inversion H as [|? ? Hnot Hnd]; subst.
  destruct (mem p (map_keys fs)) eqn:E.
  - apply mem_In, map_keys_In in E. contradiction.
  - rewrite IH by exact Hnd. reflexivity.
Qed.

Lemma map_lookup_none (fs : files) (k : jstr) :
  map_lookup fs k = None <-> ~ In k (map fst fs).
Proof.
  induction fs as [|[p m] fs IH]; simpl; [tauto|].
  destruct (map_lookup fs k) eqn:E.
  - split; [intros ?; discriminate|]. intros H.
    assert (Hn : ~ In k (map fst fs)) by (intros Hin; apply H; right; exact Hin).
    apply IH in Hn. discriminate.
  - destruct (jstr_eqb p k) eqn:Ek.
    + apply jstr_eqb_eq in Ek. subst. split; [intros ?; discriminate|]. tauto.
    + assert (Hkp : p <> k)
        by (intros Heq; subst; rewrite jstr_eqb_refl in Ek; inversion Ek).
      split; [intros _ [Heq|Hin]; [contradiction|] | intros _; reflexivity].
      exact (proj1 IH eq_refl Hin).
Qed.

Lemma map_lookup_some (fs : files) (k : jstr) (m : Z) :
  NoDup (map fst fs) -> map_lookup fs k = Some m <-> In (k, m) fs.
Proof.
  induction fs as [|[p m'] fs IH]; simpl; intros Hnd; [split; [intros ?; discriminate|tauto]|].
  inversion Hnd as [|? ? Hnot Hnd']; subst.
  specialize (IH Hnd').
  destruct (map_lookup fs k) as [z|] eqn:E.
  - rewrite IH. split; [intros H; right; exact H|].
    intros [H|H]; [|exact H]. injection H as -> ->.
    apply (map_lookup_none fs k) in Hnot. congruence.
  - destruct (jstr_eqb p k) eqn:Ek.
    + apply jstr_eqb_eq in Ek. subst. split.
      * intros H; injection H as ->. left. reflexivity.
      * intros [H|H]; [injection H as ->; reflexivity|].
        exfalso. apply Hnot. apply (in_map fst) in H. exact H.
    + split; [intros ?; discriminate|]. intros [H|H].
      * injection H as -> _. rewrite jstr_eqb_refl in Ek. inversion Ek.
      * apply (in_map fst) in H. apply map_lookup_none in E. contradiction.
Qed.

Definition entry_changed (cur : files) (e : jstr * Z) : bool :=
  match map_lookup cur (fst e) with
  | Some m' => negb (m' =? snd e)
  | None => true
  end.

Lemma snapshot_entry_props (p : jstr) (m : Z) :
  get_prop (JObj [(u "path", JStr p); (u "mtime", JNum (inject_Z m))]) (u "path")
  = Some (JStr p) /\
  obj_prop (JObj [(u "path", JStr p); (u "mtime", JNum (inject_Z m))]) (u "mtime")
  = JNum (inject_Z m).
Proof. split; reflexivity. Qed.

Lemma check_entries_json (cur : files) (S : files) :
  check_entries cur
    (map (fun '(p, m) => JObj [(u "path", JStr p); (u "mtime", JNum (inject_Z m))]) S)
  = Some (true, existsb (entry_changed cur) S).
Proof.
  induction S as [|[p m] S IH]; [reflexivity|].
  cbn [map check_entries existsb].
  destruct (snapshot_entry_props p m) as [Hp Hm]. rewrite Hp, Hm.
  unfold map_get, entry_changed at 1. cbn [fst snd].
  destruct (map_lookup cur p) as [m'|] eqn:E; cbn [js_strict_eq orb negb].
  - destruct (Z.eqb_spec m' m) as [->|Hne].
    + rewrite Qeq_bool_refl. cbn [negb orb]. exact IH.
    + assert (Hq : Qeq_bool (inject_Z m') (inject_Z m) = false).
      { destruct (Qeq_bool (inject_Z m') (inject_Z m)) eqn:Eq; [|reflexivity].
        exfalso. apply Hne. apply inject_Z_injective. apply Qeq_bool_iff. exact Eq. }
      rewrite Hq. reflexivity.
  - reflexivity.
Qed.

Lemma incl_or_witness (a b : list jstr) : incl a b \/ exists x, In x a /\ ~ In x b.
Proof.
  induction a as [|y a IH]; [left; intros x []|].
  destruct (In_dec (list_eq_dec Z.eq_dec) y b) as [Hy|Hy].
  - destruct IH as [H|[x [H1 H2]]]; [left; apply incl_cons; assumption|].
    right. exists x. split; [right; exact H1 | exact H2].
  - right. exists y. split; [left; reflexivity | exact Hy].
Qed.

Lemma snapshot_files_props (S : files) :
  js_falsy (snapshot_json S) = false /\
  get_prop (snapshot_json S) (u "files")
  = Some (JArr (map (fun '(p, m) => JObj [(u "path", JStr p); (u "mtime", JNum (inject_Z m))]) S)).
Proof. split; reflexivity. Qed.

(** C4 (amended): with no snapshot file the state is [{exists: false,
    changed: false}]; for a snapshot as [writeSnapshot] writes it, whose
    paths are pairwise distinct, and current files with distinct paths,
    the state exists and [changed] holds exactly when the path sets differ
    or some path's stored modify-time differs from its current one. *)
Theorem snapshot_changed_iff (S C : files)
  (HS : NoDup (map fst S)) (HC : NoDup (map fst C)) :
  getSnapshotState NoFile C = Some (false, false) /\
  exists changed,
    snapshot_state (snapshot_json S) C = Some (true, changed) /\
    (changed = true <->
     (exists p, ~ (In p (map fst S) <-> In p (map fst C))) \/
     (exists p m m', In (p, m) S /\ In (p, m') C /\ m <> m')).
Proof.
  split; [reflexivity|].
  destruct (snapshot_files_props S) as [Hf Hg].
  unfold snapshot_state. rewrite Hf, Hg.
  cbn [get_prop obj_prop]. rewrite jstr_eqb_refl.
  rewrite map_keys_nodup by exact HC. rewrite !length_map.
  cbn [js_strict_eq iterate]. rewrite check_entries_json.
  destruct (Nat.eq_dec (List.length S) (List.length C)) as [Hl|Hl].
  - rewrite Hl, Qeq_bool_refl. cbn [negb].
    exists (existsb (entry_changed C) S). split; [reflexivity|]. split.
    + intros Hex. apply existsb_exists in Hex. destruct Hex as [[p m] [Hin Hch]].
      unfold entry_changed in Hch. cbn [fst snd] in Hch.
      destruct (map_lookup C p) as [m'|] eqn:E.
      * right. exists p, m, m'. split; [exact Hin|]. split.
        -- apply map_lookup_some; assumption.
        -- apply negb_true_iff, Z.eqb_neq in Hch. congruence.
      * left. exists p. apply map_lookup_none in E. intros Hiff. apply E, Hiff.
        apply (in_map fst) in Hin. exact Hin.
    + intros Hrhs. destruct (existsb (entry_changed C) S) eqn:Hex; [reflexivity|].
      exfalso.
      assert (Hall : forall p m, In (p, m) S -> map_lookup C p = Some m).
      { intros p m Hin.
        destruct (entry_changed C (p, m)) eqn:Ec.
        - assert (existsb (entry_changed C) S = true)
            by (apply existsb_exists; exists (p, m); split; assumption).
          congruence.
        - unfold entry_changed in Ec. cbn [fst snd] in Ec.
          destruct (map_lookup C p) as [m'|]; [|discriminate].
          apply negb_false_iff, Z.eqb_eq in Ec. subst. reflexivity. }
      assert (Hsc : incl (map fst S) (map fst C)).
      { intros p Hp. apply in_map_iff in Hp. destruct Hp as [[p' m] [Hp Hin]].
        cbn [fst] in Hp. subst p'. apply Hall in Hin.
        apply map_lookup_some in Hin; [|exact HC]. apply (in_map fst) in Hin. exact Hin. }
      assert (Hcs : incl (map fst C) (map fst S)).
      { apply NoDup_length_incl; [exact HS | rewrite !length_map; lia | exact Hsc]. }
      destruct Hrhs as [[p Hp] | [p [m [m' [H1 [H2 H3]]]]]].
      * apply Hp. split; [apply Hsc | apply Hcs].
      * apply Hall in H1. apply (map_lookup_some C p m') in H2; [|exact HC]. congruence.
  - assert (Hq : Qeq_bool (inject_Z (Z.of_nat (List.length S)))
                          (inject_Z (Z.of_nat (List.length C))) = false).
    { destruct (Qeq_bool _ _) eqn:Eq; [|reflexivity].
      exfalso. apply Hl. apply Nat2Z.inj. apply inject_Z_injective.
      apply Qeq_bool_iff. exact Eq. }
    rewrite Hq. cbn [negb]. exists true. split; [reflexivity|].
    split; [intros _|reflexivity].
    destruct (incl_or_witness (map fst S) (map fst C)) as [H1|[p [Hp1 Hp2]]].
    + destruct (incl_or_witness (map fst C) (map fst S)) as [H2|[p [Hp1 Hp2]]].
      * exfalso. apply Hl.
        pose proof (NoDup_incl_length HS H1). pose proof (NoDup_incl_length HC H2).
        rewrite !length_map in *. lia.
      * left. exists p. tauto.
    + left. exists p. tauto.
Qed.

Lemma snapshot_changed_iff_witness :
  getSnapshotState NoFile [(u "a.md", 5)] = Some (false, false) /\
  snapshot_state (snapshot_json [(u "a.md", 5)]) [(u "a.md", 6)] = Some (true, true).
Proof.
  destruct (snapshot_changed_iff [(u "a.md", 5)] [(u "a.md", 6)])
    as [H0 [ch [H1 H2]]]; [repeat constructor; simpl; tauto | repeat constructor; simpl; tauto |].
  split; [exact H0|]. rewrite H1. f_equal. f_equal. apply H2.
  right. exists (u "a.md"), 5, 6. split; [left; reflexivity|]. split; [left; reflexivity|].
  discriminate.
Defined.

(** C4 (counterexample): a snapshot listing the same path twice has as
    many entries as the current file set has paths, and every entry matches
    a current file, so it reports no change although the current path "b"
    is missing from the snapshot. *)
Lemma duplicate_snapshot_paths_unchanged :
  snapshot_state (snapshot_json [(u "a", 1); (u "a", 1)]) [(u "a", 1); (u "b", 2)]
  = Some (true, false).
Proof. vm_compute. reflexivity. Qed.

(** C7 (failing input): a snapshot file holding valid JSON of another
    shape makes the evaluation throw: [snapshot.files] is undefined in
    "{}", and the entry [null] has no [path]. *)
Theorem shape_invalid_snapshot_throws :
  getSnapshotState (FileText (u "{}")) [] = None /\
  getSnapshotState (FileText (uq "{'files':[null]}")) [(u "a", 1)] = None.
Proof. split; vm_compute; reflexivity. Qed.

End SnapshotClaims.

(** * Properties of artifact extraction *)

Module ArtifactClaims.

(** C5 (counterexample): a blank line inside the block does not end it,
    so the bullet after the blank line is collected too. *)
Lemma blank_line_does_not_end_block :
  extractArtifactPaths (artifacts_marker ++ u "
- /artifacts/a

- /artifacts/b")
  = [u "/artifacts/a"; u "/artifacts/b"].
Proof. vm_compute. reflexivity. Qed.

Definition bullet_paths (block : list jstr) : list jstr :=
  flat_map (fun l => match match_artifact_bullet (trim l) with
                     | Some p => [p] | None => [] end) block.

Definition is_marker_line (l : jstr) : bool := starts_with artifacts_marker (trim l).

Lemma lines_before_marker (pre rest : list jstr) (b : bool) :
  (forall l, In l pre -> is_marker_line l = false) ->
  artifact_lines (pre ++ rest) false = artifact_lines rest false.
Proof.
  intros H. induction pre as [|l pre IH]; [reflexivity|].
  simpl. unfold is_marker_line in H. rewrite (H l (or_introl eq_refl)). simpl.
  apply IH. intros l' Hl'. apply H. right. exact Hl'.
Qed.

Lemma marker_not_bullet (t : jstr) :
  starts_with artifacts_marker t = true -> match_artifact_bullet t = None.
Proof.
  intros H. destruct t as [|c r]; [reflexivity|].
  unfold starts_with in H.
  change (firstn (List.length artifacts_marker) (c :: r)) with (c :: firstn 9 r) in H.
  change (jstr_eqb (c :: firstn 9 r) artifacts_marker)
    with ((c =? 1040) && jstr_eqb (firstn 9 r) (tl artifacts_marker)) in H.
  apply andb_true_iff in H. destruct H as [Hc _]. apply Z.eqb_eq in Hc. subst c.
  reflexivity.
Qed.

(** A line that keeps the block open: a marker line, a blank line or a
    bullet. *)
Definition block_line (l : jstr) : Prop :=
  is_marker_line l = true \/ trim l = [] \/ match_artifact_bullet (trim l) <> None.

Lemma block_lines (block tail : list jstr) :
  (forall l, In l block -> block_line l) ->
  artifact_lines (block ++ tail) true = bullet_paths block ++ artifact_lines tail true.
Proof.
  intros H. induction block as [|l block IH]; [reflexivity|].
  assert (IH' : artifact_lines (block ++ tail) true = bullet_paths block ++ artifact_lines tail true)
    by (apply IH; intros l' Hl'; apply H; right; exact Hl').
  destruct (H l (or_introl eq_refl)) as [Hm|Hb]; unfold is_marker_line in *.
  - simpl. rewrite Hm, (marker_not_bullet _ Hm). exact IH'.
  - simpl. destruct (starts_with artifacts_marker (trim l)) eqn:Hm.
    + rewrite (marker_not_bullet _ Hm). exact IH'.
    + simpl. destruct (match_artifact_bullet (trim l)) as [p|] eqn:E.
      * simpl. rewrite IH'. reflexivity.
      * destruct Hb as [Ht|Hb]; [|contradiction].
        rewrite Ht. simpl. exact IH'.
Qed.

(** C5 (amended): the text is split on [\r?\n]; every line whose trimmed
    form starts with the marker "Артефакты:" opens the block, or keeps it
    open, and contributes nothing; lines before the first marker line are
    ignored; inside the block every line whose trimmed form matches
    [^-\s*(/artifacts/\S+)] contributes the captured path (anything after
    it on the line is ignored) and blank lines are skipped; the first
    nonblank line that is neither a marker line nor such a bullet ends the
    extraction, and nothing after it is read.  Without a marker line the
    result is empty. *)
Theorem artifact_extraction_grammar :
  (forall text,
     (forall l, In l (split_lines text) -> is_marker_line l = false) ->
     extractArtifactPaths text = []) /\
  (forall text pre m block stop rest,
     split_lines text = pre ++ m :: block ++ stop :: rest ->
     (forall l, In l pre -> is_marker_line l = false) ->
     is_marker_line m = true ->
     (forall l, In l block -> block_line l) ->
     is_marker_line stop = false -> match_artifact_bullet (trim stop) = None ->
     trim stop <> [] ->
     extractArtifactPaths text = bullet_paths block) /\
  (forall text pre m block,
     split_lines text = pre ++ m :: block ->
     (forall l, In l pre -> is_marker_line l = false) ->
     is_marker_line m = true ->
     (forall l, In l block -> block_line l) ->
     extractArtifactPaths text = bullet_paths block).
Proof.
  split; [|split].
  - intros text H. unfold extractArtifactPaths.
    rewrite <- (app_nil_r (split_lines text)).
    rewrite (lines_before_marker _ [] false H). reflexivity.
  - intros text pre m block stop rest Hs Hpre Hm Hblock Hs1 Hs2 Hs3.
    unfold extractArtifactPaths. rewrite Hs.
    rewrite (lines_before_marker pre _ false Hpre).
    unfold is_marker_line in Hm. simpl. rewrite Hm.
    rewrite (block_lines block (stop :: rest) Hblock).
    simpl. unfold is_marker_line in Hs1. rewrite Hs1, Hs2. simpl.
    destruct (trim stop) as [|c t]; [contradiction|].
    simpl. rewrite app_nil_r. reflexivity.
  - intros text pre m block Hs Hpre Hm Hblock.
    unfold extractArtifactPaths. rewrite Hs.
    rewrite (lines_before_marker pre _ false Hpre).
    unfold is_marker_line in Hm. simpl. rewrite Hm.
    pose proof (block_lines block [] Hblock) as Hb.
    rewrite app_nil_r in Hb. rewrite Hb. apply app_nil_r.
Qed.

(** A message with a preamble, a bullet with trailing text, a blank line, a
    second marker line that keeps the block open, and a closing line
    followed by a bullet that is not read. *)
Definition sample_artifact_text : jstr :=
  u "Done." ++ [10] ++ artifacts_marker ++ [10] ++ u "- /artifacts/a.pdf (report)" ++ [10; 10]
  ++ artifacts_marker ++ [10] ++ u "- /artifacts/b" ++ [13; 10] ++ u "Extra" ++ [10]
  ++ u "- /artifacts/c".

Lemma artifact_extraction_grammar_witness :
  extractArtifactPaths sample_artifact_text
  = bullet_paths [u "- /artifacts/a.pdf (report)"; []; artifacts_marker; u "- /artifacts/b"] /\
  bullet_paths [u "- /artifacts/a.pdf (report)"; []; artifacts_marker; u "- /artifacts/b"]
  = [u "/artifacts/a.pdf"; u "/artifacts/b"].
Proof.
  split; [|vm_compute; reflexivity].
  apply (proj1 (proj2 artifact_extraction_grammar) sample_artifact_text [u "Done."] artifacts_marker
           [u "- /artifacts/a.pdf (report)"; []; artifacts_marker; u "- /artifacts/b"]
           (u "Extra") [u "- /artifacts/c"]).
  - vm_compute. reflexivity.
  - intros l [<-|[]]. vm_compute. reflexivity.
  - vm_compute. reflexivity.
  - intros l [<-|[<-|[<-|[<-|[]]]]]; unfold block_line.
    + right. right. vm_compute. discriminate.
    + right. left. vm_compute. reflexivity.
    + left. vm_compute. reflexivity.
    + right. right. vm_compute. discriminate.
  - vm_compute. reflexivity.
  - vm_compute. reflexivity.
  - vm_compute. discriminate.
Defined.

End ArtifactClaims.

(** * Round trip of the chat log *)

Module ChatLogClaims.
Import ChatLog.

(** A content line that the markdown parser keeps as content. *)
Definition line_safe (l : jstr) : bool :=
  match match_header l with None => true | Some _ => false end
  && negb (starts_with (u "# Chat history") l).

(** A turn (timestamp, role, content) whose text survives the log format. *)
Definition turn_safe (t : jstr * role * jstr) : bool :=
  let '(ts, r, c) := t in
  match r with System => false | _ => true end
  && negb (jstr_eqb ts []) && negb (existsb is_line_terminator ts)
  && negb (jstr_eqb c []) && jstr_eqb (trim c) c
  && negb (existsb (Z.eqb 13) c)
  && forallb line_safe (split_nl c).

Definition header_line (ts : jstr) (r : role) : jstr :=
  u "## [" ++ ts ++ u "] " ++ role_name r.

Definition mk (t : jstr * role * jstr) : entry :=
  let '(ts, r, c) := t in {| role_of := r; content_of := c; timestamp_of := Some ts |}.

Lemma entry_text_app ts r c rest :
  entry_text ts r c ++ rest = header_line ts r ++ 10 :: c ++ 10 :: 10 :: rest.
Proof. unfold entry_text, header_line. repeat rewrite <- app_assoc. reflexivity. Qed.

Lemma split_nl_nonempty s : split_nl s <> [].
Proof.
  induction s as [|c s IH]; simpl; [discriminate|].
  destruct (c =? 10); [discriminate|].
  destruct (split_nl s); [contradiction|discriminate].
Qed.

Lemma split_nl_app_nl x y : split_nl (x ++ 10 :: y) = split_nl x ++ split_nl y.
Proof.
  induction x as [|c x IH]; [reflexivity|].
  cbn [app split_nl]. rewrite IH. destruct (c =? 10); [reflexivity|].
  destruct (split_nl x) as [|l r] eqn:E; [exfalso; exact (split_nl_nonempty x E)|].
  reflexivity.
Qed.

Lemma join_split s : join_nl (split_nl s) = s.
Proof.
  induction s as [|c s IH]; [reflexivity|].
  cbn [split_nl]. destruct (c =? 10) eqn:Ec.
  - apply Z.eqb_eq in Ec. subst c.
    destruct (split_nl s) as [|l r] eqn:E; [exfalso; exact (split_nl_nonempty s E)|].
    change (join_nl ([] :: l :: r)) with ([] ++ 10 :: join_nl (l :: r)).
    rewrite IH. reflexivity.
  - destruct (split_nl s) as [|l r] eqn:E; [exfalso; exact (split_nl_nonempty s E)|].
    destruct r as [|l' r']; simpl in *; rewrite <- IH; reflexivity.
Qed.

Lemma join_snoc xs y : xs <> [] -> join_nl (xs ++ [y]) = join_nl xs ++ 10 :: y.
Proof.
  induction xs as [|x xs IH]; intros H; [contradiction|].
  destruct xs as [|x' xs']; [reflexivity|].
  change (join_nl ((x :: x' :: xs') ++ [y])) with (x ++ 10 :: join_nl ((x' :: xs') ++ [y])).
  rewrite IH by discriminate. simpl. rewrite <- app_assoc. reflexivity.
Qed.

Lemma in_split_nl s l c : In l (split_nl s) -> In c l -> In c s.
Proof.
  revert l. induction s as [|c0 s IH]; intros l Hl Hc.
  - destruct Hl as [<-|[]]. destruct Hc.
  - cbn [split_nl] in Hl. destruct (c0 =? 10).
    + destruct Hl as [<-|Hl]; [destruct Hc|]. right. exact (IH l Hl Hc).
    + destruct (split_nl s) as [|l0 r] eqn:E; [exfalso; exact (split_nl_nonempty s E)|].
      destruct Hl as [<-|Hl].
      * destruct Hc as [<-|Hc]; [left; reflexivity|].
        right. apply (IH l0); [left; reflexivity|exact Hc].
      * right. apply (IH l); [right; exact Hl|exact Hc].
Qed.

Lemma strip_cr_id l : ~ In 13 l -> strip_cr l = l.
Proof.
  intros H. unfold strip_cr. destruct (rev l) as [|z r] eqn:E; [reflexivity|].
  assert (Hz : In z l) by (apply in_rev; rewrite E; left; reflexivity).
  destruct z as [|p|p]; try reflexivity.
  repeat (destruct p as [p|p|]; try reflexivity).
  exfalso. exact (H Hz).
Qed.

Lemma strip_cr_init_id ls : (forall l, In l ls -> ~ In 13 l) -> strip_cr_init ls = ls.
Proof.
  induction ls as [|l ls IH]; intros H; [reflexivity|].
  destruct ls as [|l' ls']; [reflexivity|].
  change (strip_cr_init (l :: l' :: ls')) with (strip_cr l :: strip_cr_init (l' :: ls')).
  rewrite strip_cr_id by (apply H; left; reflexivity).
  rewrite IH; [reflexivity|]. intros l0 Hl0. apply H. right. exact Hl0.
Qed.

Lemma drop_space_app s w :
  drop_space (s ++ w) = if forallb is_js_space s then drop_space w else drop_space s ++ w.
Proof.
  induction s as [|c s IH]; [reflexivity|].
  simpl. destruct (is_js_space c); simpl; [exact IH|reflexivity].
Qed.

Lemma drop_space_all w : forallb is_js_space w = true -> drop_space w = [].
Proof.
  induction w as [|c w IH]; intros H; [reflexivity|].
  simpl in *. apply andb_prop in H. destruct H as [H1 H2]. rewrite H1. exact (IH H2).
Qed.

Lemma forallb_rev {A} (f : A -> bool) (l : list A) : forallb f (rev l) = forallb f l.
Proof.
  induction l as [|a l IH]; [reflexivity|].
  simpl. rewrite forallb_app, IH. simpl. rewrite andb_true_r. apply andb_comm.
Qed.

Lemma trim_app_spaces s w : forallb is_js_space w = true -> trim (s ++ w) = trim s.
Proof.
  intros H. unfold trim. rewrite drop_space_app.
  destruct (forallb is_js_space s) eqn:E.
  - rewrite (drop_space_all w H), (drop_space_all s E). reflexivity.
  - rewrite rev_app_distr, drop_space_app, forallb_rev, H. reflexivity.
Qed.

Lemma trim_head c s : is_js_space c = false -> exists t, trim (c :: s) = c :: t.
Proof.
  intros H. unfold trim. simpl drop_space at 2. rewrite H. simpl rev.
  rewrite drop_space_app. simpl drop_space. rewrite H.
  destruct (forallb is_js_space (rev s)).
  - exists []. reflexivity.
  - exists (rev (drop_space (rev s))). rewrite rev_app_distr. reflexivity.
Qed.

Lemma starts_with_app p x : starts_with p (p ++ x) = true.
Proof.
  unfold starts_with. rewrite firstn_app, Nat.sub_diag, firstn_all. simpl.
  rewrite app_nil_r. apply SnapshotClaims.jstr_eqb_refl.
Qed.

Lemma header_group_suffix ts suf :
  ts <> [] -> existsb is_line_terminator ts = false ->
  header_group (ts ++ suf) suf = Some ts.
Proof.
  intros H1 H2. unfold header_group, ends_with.
  rewrite rev_app_distr, starts_with_app.
  rewrite length_app, Nat.add_sub, firstn_app, Nat.sub_diag, firstn_all. simpl.
  rewrite app_nil_r. destruct ts as [|c t]; [contradiction|]. rewrite H2. reflexivity.
Qed.

Lemma header_group_other ts : header_group (ts ++ u "] assistant") (u "] user") = None.
Proof.
  unfold header_group, ends_with. rewrite rev_app_distr.
  unfold starts_with. rewrite firstn_app. vm_compute. reflexivity.
Qed.

Lemma match_header_line ts r :
  r <> System -> ts <> [] -> existsb is_line_terminator ts = false ->
  match_header (header_line ts r) = Some (r, ts).
Proof.
  intros Hr H1 H2. unfold match_header, header_line. rewrite starts_with_app.
  change (skipn 4 (u "## [" ++ ts ++ u "] " ++ role_name r)) with (ts ++ u "] " ++ role_name r).
  destruct r; [| |contradiction].
  - change (u "] " ++ role_name User) with (u "] user").
    rewrite (header_group_suffix ts _ H1 H2). reflexivity.
  - change (u "] " ++ role_name Assistant) with (u "] assistant").
    rewrite header_group_other, (header_group_suffix ts _ H1 H2). reflexivity.
Qed.

Lemma fold_content (ls : list jstr) (st : md_state) :
  forallb line_safe ls = true ->
  fold_left md_line ls st =
  {| messages := messages st; currentRole := currentRole st;
     currentTimestamp := currentTimestamp st; buffer := buffer st ++ ls |}.
Proof.
  revert st. induction ls as [|l ls IH]; intros st H.
  - destruct st. simpl. rewrite app_nil_r. reflexivity.
  - simpl in H. apply andb_prop in H. destruct H as [Hl H].
    unfold line_safe in Hl. apply andb_prop in Hl. destruct Hl as [Hm Hs].
    simpl. unfold md_line at 2.
    destruct (match_header l); [discriminate|].
    apply negb_true_iff in Hs. rewrite Hs. rewrite IH by exact H.
    simpl. rewrite <- app_assoc. reflexivity.
Qed.

Lemma turn_safe_spec ts r c :
  turn_safe (ts, r, c) = true ->
  r <> System /\ ts <> [] /\ existsb is_line_terminator ts = false /\ c <> [] /\
  trim c = c /\ ~ In 13 c /\ forallb line_safe (split_nl c) = true.
Proof.
  unfold turn_safe. intros H.
  repeat match goal with H : (_ && _) = true |- _ => apply andb_prop in H; destruct H end.
  repeat match goal with H : negb _ = true |- _ => apply negb_true_iff in H end.
  repeat split; try assumption.
  - intros ->. discriminate.
  - intros ->. discriminate.
  - intros ->. discriminate.
  - apply SnapshotClaims.jstr_eqb_eq. assumption.
  - intros Hin. assert (existsb (Z.eqb 13) c = true) by (apply existsb_exists; exists 13; split; [exact Hin|apply Z.eqb_refl]).
    congruence.
Qed.

Lemma join_blank xs k : xs <> [] -> join_nl (xs ++ repeat [] k) = join_nl xs ++ repeat 10 k.
Proof.
  revert xs. induction k as [|k IH]; intros xs H.
  - rewrite !app_nil_r. reflexivity.
  - change (xs ++ repeat [] (S k)) with (xs ++ [[]] ++ repeat [] k).
    rewrite app_assoc, IH by (destruct xs; discriminate).
    rewrite join_snoc by exact H. rewrite <- app_assoc. reflexivity.
Qed.

Lemma flush_entry st r c k :
  currentRole st = Some r -> buffer st = split_nl c ++ repeat [] k ->
  c <> [] -> trim c = c ->
  flush st = messages st ++ [{| role_of := r; content_of := c; timestamp_of := currentTimestamp st |}].
Proof.
  intros Hr Hb Hc Ht. unfold flush. rewrite Hr, Hb.
  destruct (split_nl c ++ repeat [] k) eqn:E.
  - destruct (split_nl c) eqn:E'; [exact (False_ind _ (split_nl_nonempty c E'))|discriminate].
  - rewrite <- E, join_blank by apply split_nl_nonempty.
    rewrite join_split, trim_app_spaces, Ht.
    + destruct c; [contradiction|reflexivity].
    + clear. induction k; [reflexivity|exact IHk].
Qed.

Lemma split_nl_single x : existsb (Z.eqb 10) x = false -> split_nl x = [x].
Proof.
  induction x as [|c x IH]; intros H; [reflexivity|].
  cbn [existsb] in H. apply orb_false_iff in H. destruct H as [H1 H2].
  cbn [split_nl]. rewrite Z.eqb_sym, H1, IH by exact H2. reflexivity.
Qed.

Lemma no_nl_of_no_terminator ts :
  existsb is_line_terminator ts = false -> existsb (Z.eqb 10) ts = false.
Proof.
  induction ts as [|c ts IH]; intros H; [reflexivity|].
  cbn [existsb] in *. apply orb_false_iff in H. destruct H as [H1 H2].
  unfold is_line_terminator in H1. apply orb_false_iff in H1. destruct H1 as [H1 _].
  apply orb_false_iff in H1. destruct H1 as [H1 _].
  apply orb_false_iff in H1. destruct H1 as [H1 _].
  rewrite Z.eqb_sym, H1, IH by exact H2. reflexivity.
Qed.

Lemma split_header_line ts r :
  existsb is_line_terminator ts = false -> split_nl (header_line ts r) = [header_line ts r].
Proof.
  intros H. apply split_nl_single. unfold header_line.
  rewrite !existsb_app, (no_nl_of_no_terminator ts H). destruct r; reflexivity.
Qed.

Lemma md_line_header st ts r :
  r <> System -> ts <> [] -> existsb is_line_terminator ts = false ->
  md_line st (header_line ts r) =
  {| messages := flush st; currentRole := Some r; currentTimestamp := Some ts; buffer := [] |}.
Proof. intros Hr H1 H2. unfold md_line. rewrite (match_header_line ts r Hr H1 H2). reflexivity. Qed.

Lemma split_nl_blank y : split_nl (10 :: y) = [[]] ++ split_nl y.
Proof. reflexivity. Qed.

Lemma md_line_blank st :
  md_line st [] =
  {| messages := messages st; currentRole := currentRole st;
     currentTimestamp := currentTimestamp st; buffer := buffer st ++ [[]] |}.
Proof. exact (fold_content [[]] st eq_refl). Qed.

Lemma fold_entry_step st ts r c rest :
  turn_safe (ts, r, c) = true ->
  fold_left md_line (split_nl (entry_text ts r c ++ rest)) st =
  fold_left md_line (split_nl rest)
    {| messages := flush st; currentRole := Some r; currentTimestamp := Some ts;
       buffer := split_nl c ++ [[]] |}.
Proof.
  intros Hs. destruct (turn_safe_spec ts r c Hs) as (Hr & H1 & H2 & Hc & Ht & H13 & Hl).
  rewrite entry_text_app, split_nl_app_nl, split_nl_app_nl, (split_header_line ts r H2).
  rewrite split_nl_blank, !fold_left_app. cbn [fold_left].
  rewrite (md_line_header st ts r Hr H1 H2), (fold_content (split_nl c)) by exact Hl.
  rewrite md_line_blank. reflexivity.
Qed.

(** The markdown lines of appended entries, from a state holding the
    content of the previous entry. *)
Lemma fold_entries (turns : list (jstr * role * jstr)) (st : md_state) (r : role) (c : jstr) :
  forallb turn_safe turns = true ->
  currentRole st = Some r -> buffer st = split_nl c ++ [[]] ->
  c <> [] -> trim c = c ->
  flush (fold_left md_line (split_nl (List.concat (map (fun '(ts, r, c) => entry_text ts r c) turns))) st)
  = flush st ++ map mk turns.
Proof.
  revert st r c. induction turns as [|[[ts r'] c'] turns IH]; intros st r c Hs Hr Hb Hc Ht.
  - cbn [map List.concat split_nl fold_left]. rewrite md_line_blank.
    rewrite (flush_entry _ r c 2%nat); [|exact Hr|simpl; rewrite Hb, <- app_assoc; reflexivity|exact Hc|exact Ht].
    rewrite (flush_entry st r c 1%nat Hr Hb Hc Ht). rewrite app_nil_r. reflexivity.
  - simpl in Hs. apply andb_prop in Hs. destruct Hs as [Hs1 Hs].
    destruct (turn_safe_spec ts r' c' Hs1) as (Hr' & H1 & H2 & Hc' & Ht' & H13 & Hl).
    cbn [map List.concat]. rewrite (fold_entry_step st ts r' c' _ Hs1).
    rewrite IH with (r := r') (c := c'); [|exact Hs|reflexivity|reflexivity|exact Hc'|exact Ht'].
    rewrite flush_entry with (r := r') (c := c') (k := 1%nat); [|reflexivity|reflexivity|exact Hc'|exact Ht'].
    simpl. rewrite <- app_assoc. reflexivity.
Qed.

Lemma append_all_some d turns :
  append_all (Some d) turns = Some (d ++ List.concat (map (fun '(ts, r, c) => entry_text ts r c) turns)).
Proof.
  revert d. induction turns as [|[[ts r] c] turns IH]; intros d.
  - rewrite app_nil_r. reflexivity.
  - change (append_all (Some d) ((ts, r, c) :: turns))
      with (append_all (Some (appendChatLog (Some d) ts r c)) turns).
    rewrite IH. unfold appendChatLog. rewrite <- app_assoc. reflexivity.
Qed.

Lemma existsb_weaken (f g : Z -> bool) (l : jstr) :
  (forall z, g z = true -> f z = true) -> existsb f l = false -> existsb g l = false.
Proof.
  intros Hfg H. destruct (existsb g l) eqn:E; [|reflexivity].
  apply existsb_exists in E. destruct E as [z [Hz Hg]].
  assert (existsb f l = true) by (apply existsb_exists; exists z; split; [exact Hz|exact (Hfg z Hg)]).
  congruence.
Qed.

Lemma entries_no_cr (turns : list (jstr * role * jstr)) :
  forallb turn_safe turns = true ->
  existsb (Z.eqb 13) (List.concat (map (fun '(ts, r, c) => entry_text ts r c) turns)) = false.
Proof.
  induction turns as [|[[ts r] c] turns IH]; intros Hs; [reflexivity|].
  simpl in Hs. apply andb_prop in Hs. destruct Hs as [Hs1 Hs].
  cbn [map List.concat]. rewrite existsb_app, IH by exact Hs.
  unfold turn_safe in Hs1.
  repeat match goal with H : (_ && _) = true |- _ => apply andb_prop in H; destruct H end.
  repeat match goal with H : negb _ = true |- _ => apply negb_true_iff in H end.
  unfold entry_text. rewrite !existsb_app.
  rewrite (existsb_weaken is_line_terminator (Z.eqb 13) ts) by
    (try assumption; intros z Hz; apply Z.eqb_eq in Hz; subst z; reflexivity).
  match goal with H : existsb (Z.eqb 13) c = false |- _ => rewrite H end.
  destruct r; reflexivity.
Qed.

Lemma parseChatLog_markdown nt Y :
  parseChatLog nt (u "# Chat history" ++ Y) = parse_markdown (u "# Chat history" ++ Y).
Proof.
  unfold parseChatLog.
  destruct (trim_head 35 (skipn 1 (u "# Chat history") ++ Y) eq_refl) as [t Ht].
  change (u "# Chat history" ++ Y) with (35 :: (skipn 1 (u "# Chat history") ++ Y)).
  rewrite Ht. reflexivity.
Qed.

(** C6 (counterexample): content with a trailing newline comes back
    trimmed. *)
Lemma trailing_newline_trimmed :
  map content_of
    (loadChatEntries (fun _ => None) (append_all None [(u "2026-01-01T00:00:00.000Z", User, u "hi" ++ [10])]))
  = [u "hi"].
Proof. vm_compute. reflexivity. Qed.

(** C6 (amended): appending a sequence of turns to a new log and parsing the
    log back gives the same timestamps, roles and contents, for turns whose
    role is user or assistant, whose timestamp is nonempty and has no line
    terminator, and whose content is nonempty, equal to its own trim,
    free of carriage returns, and has no line that reads as an entry header
    or starts with "# Chat history" ([turn_safe]). *)
Theorem chat_log_round_trip (nt : jsval -> option jstr) (turns : list (jstr * role * jstr)) :
  forallb turn_safe turns = true ->
  map (fun e => (timestamp_of e, role_of e, content_of e))
      (loadChatEntries nt (append_all None turns))
  = map (fun '(ts, r, c) => (Some ts, r, c)) turns.
Proof.
  intros Hs. destruct turns as [|[[ts r] c] turns]; [reflexivity|].
  change (append_all None ((ts, r, c) :: turns))
    with (append_all (Some (appendChatLog None ts r c)) turns).
  rewrite append_all_some. unfold appendChatLog, loadChatEntries.
  set (E := List.concat (map (fun '(ts, r, c) => entry_text ts r c) turns)).
  assert (Hdoc : (chat_log_header ++ entry_text ts r c) ++ E
                 = u "# Chat history" ++ 10 :: 10 :: (entry_text ts r c ++ E))
    by (unfold chat_log_header; rewrite <- !app_assoc; reflexivity).
  rewrite Hdoc, parseChatLog_markdown.
  unfold parse_markdown, split_lines.
  simpl in Hs. apply andb_prop in Hs. destruct Hs as [Hs1 Hs].
  rewrite strip_cr_init_id.
  - rewrite split_nl_app_nl, split_nl_blank.
    change (split_nl (u "# Chat history")) with [u "# Chat history"].
    rewrite !fold_left_app.
    change (fold_left md_line [[]] (fold_left md_line [u "# Chat history"] md_init))
      with {| messages := []; currentRole := None; currentTimestamp := None; buffer := [[]] |}.
    rewrite (fold_entry_step _ ts r c E Hs1).
    destruct (turn_safe_spec ts r c Hs1) as (Hr & H1 & H2 & Hc & Htc & H13 & Hl).
    unfold E. rewrite fold_entries with (r := r) (c := c); [|exact Hs|reflexivity|reflexivity|exact Hc|exact Htc].
    rewrite flush_entry with (r := r) (c := c) (k := 1%nat); [|reflexivity|reflexivity|exact Hc|exact Htc].
    simpl. rewrite map_map. f_equal. apply map_ext. intros [[ts' r'] c']. reflexivity.
  - intros l Hl Hin.
    assert (Hd : In 13 (u "# Chat history" ++ 10 :: 10 :: (entry_text ts r c ++ E)))
      by exact (in_split_nl _ l 13 Hl Hin).
    assert (Hn : existsb (Z.eqb 13) (u "# Chat history" ++ 10 :: 10 :: (entry_text ts r c ++ E)) = false).
    { change (u "# Chat history" ++ 10 :: 10 :: (entry_text ts r c ++ E))
        with (u "# Chat history" ++ [10; 10] ++ List.concat (map (fun '(ts, r, c) => entry_text ts r c) ((ts, r, c) :: turns))).
      rewrite !existsb_app, entries_no_cr; [reflexivity|]. simpl. rewrite Hs1. exact Hs. }
    assert (existsb (Z.eqb 13) (u "# Chat history" ++ 10 :: 10 :: (entry_text ts r c ++ E)) = true)
      by (apply existsb_exists; exists 13; split; [exact Hd|reflexivity]).
    congruence.
Qed.

(** A log of two turns, parsed back. *)
Lemma chat_log_round_trip_witness :
  forallb turn_safe [(u "2026-01-01T00:00:00.000Z", User, u "hi");
                     (u "2026-01-01T00:00:01.000Z", Assistant, u "line one" ++ 10 :: u "line two")] = true /\
  map (fun e => (timestamp_of e, role_of e, content_of e))
      (loadChatEntries (fun _ => None)
         (append_all None [(u "2026-01-01T00:00:00.000Z", User, u "hi");
                           (u "2026-01-01T00:00:01.000Z", Assistant, u "line one" ++ 10 :: u "line two")]))
  = map (fun '(ts, r, c) => (Some ts, r, c))
        [(u "2026-01-01T00:00:00.000Z", User, u "hi");
         (u "2026-01-01T00:00:01.000Z", Assistant, u "line one" ++ 10 :: u "line two")].
Proof.
  split; [vm_compute; reflexivity|].
  apply chat_log_round_trip. vm_compute. reflexivity.
Defined.

End ChatLogClaims.

(** * Rewriting a chat log: [writeChatLog] *)

Module ChatLogWrite.
Import ChatLog ChatLogClaims.

(** [Array.prototype.map] with the index of each element. *)
Fixpoint map_index {A B : Type} (f : nat -> A -> B) (i : nat) (l : list A) : list B :=
  match l with
  | [] => []
  | x :: r => f i x :: map_index f (S i) r
  end.

(** [message.timestamp ?? new Date().toISOString()]: [now i] is what the
    clock reads while the [i]-th kept entry is mapped; it is read only for
    an entry without a timestamp. *)
Definition timestamp_or (now : nat -> jstr) (i : nat) (m : entry) : jstr :=
  match timestamp_of m with Some t => t | None => now i end.

Definition kept (m : entry) : bool :=
  match role_of m with User | Assistant => true | System => false end.

(** [writeChatLog]: system entries are dropped and an entry without a
    timestamp gets the time at which it is mapped. *)
Definition writeChatLog_content (now : nat -> jstr) (history : list entry) : jstr :=
  chat_log_header ++
  List.concat
    (map_index (fun i m => entry_text (timestamp_or now i m) (role_of m) (content_of m))
               0 (filter kept history)).

(** [stripTimestamps]. *)
Definition stripTimestamps (entries : list entry) : list (role * jstr) :=
  map (fun m => (role_of m, content_of m)) entries.

(** The turns [writeChatLog] writes. *)
Definition written_turns (now : nat -> jstr) (history : list entry) : list (jstr * role * jstr) :=
  map_index (fun i m => (timestamp_or now i m, role_of m, content_of m)) 0 (filter kept history).

Lemma map_map_index {A B C : Type} (g : B -> C) (f : nat -> A -> B) (i : nat) (l : list A) :
  map g (map_index f i l) = map_index (fun j x => g (f j x)) i l.
Proof.
  revert i. induction l as [|x l IH]; intros i; [reflexivity|].
  simpl. rewrite IH. reflexivity.
Qed.

Lemma parse_log_document nt turns :
  forallb turn_safe turns = true ->
  map (fun e => (timestamp_of e, role_of e, content_of e))
      (parseChatLog nt (chat_log_header ++ List.concat (map (fun '(ts, r, c) => entry_text ts r c) turns)))
  = map (fun '(ts, r, c) => (Some ts, r, c)) turns.
Proof.
  intros Hs. destruct turns as [|[[ts r] c] turns]; [reflexivity|].
  cbn [map List.concat].
  set (E := List.concat (map (fun '(ts, r, c) => entry_text ts r c) turns)).
  assert (Hdoc : chat_log_header ++ (entry_text ts r c ++ E)
                 = u "# Chat history" ++ 10 :: 10 :: (entry_text ts r c ++ E))
    by (unfold chat_log_header; rewrite <- !app_assoc; reflexivity).
  rewrite Hdoc, parseChatLog_markdown.
  unfold parse_markdown, split_lines.
  simpl in Hs. apply andb_prop in Hs. destruct Hs as [Hs1 Hs].
  rewrite strip_cr_init_id.
  - rewrite split_nl_app_nl, split_nl_blank.
    change (split_nl (u "# Chat history")) with [u "# Chat history"].
    rewrite !fold_left_app.
    change (fold_left md_line [[]] (fold_left md_line [u "# Chat history"] md_init))
      with {| messages := []; currentRole := None; currentTimestamp := None; buffer := [[]] |}.
    rewrite (fold_entry_step _ ts r c E Hs1).
    destruct (turn_safe_spec ts r c Hs1) as (Hr & H1 & H2 & Hc & Htc & H13 & Hl).
    unfold E. rewrite fold_entries with (r := r) (c := c); [|exact Hs|reflexivity|reflexivity|exact Hc|exact Htc].
    rewrite flush_entry with (r := r) (c := c) (k := 1%nat); [|reflexivity|reflexivity|exact Hc|exact Htc].
    simpl. rewrite map_map. f_equal. apply map_ext. intros [[ts' r'] c']. reflexivity.
  - intros l Hl Hin.
    assert (Hd : In 13 (u "# Chat history" ++ 10 :: 10 :: (entry_text ts r c ++ E)))
      by exact (in_split_nl _ l 13 Hl Hin).
    assert (Hn : existsb (Z.eqb 13) (u "# Chat history" ++ 10 :: 10 :: (entry_text ts r c ++ E)) = false).
    { change (u "# Chat history" ++ 10 :: 10 :: (entry_text ts r c ++ E))
        with (u "# Chat history" ++ [10; 10] ++ List.concat (map (fun '(ts, r, c) => entry_text ts r c) ((ts, r, c) :: turns))).
      rewrite !existsb_app, entries_no_cr; [reflexivity|]. simpl. rewrite Hs1. exact Hs. }
    assert (existsb (Z.eqb 13) (u "# Chat history" ++ 10 :: 10 :: (entry_text ts r c ++ E)) = true)
      by (apply existsb_exists; exists 13; split; [exact Hd|reflexivity]).
    congruence.
Qed.

(** The log [writeChatLog] writes (as when a legacy JSON history is
    migrated) parses back to its user and assistant entries, in order, with
    their timestamps (for an entry without one, the time at which it was
    written), provided each written turn satisfies [turn_safe]. *)
Theorem writeChatLog_round_trip (nt : jsval -> option jstr) (now : nat -> jstr) (history : list entry) :
  forallb turn_safe (written_turns now history) = true ->
  map (fun e => (timestamp_of e, role_of e, content_of e))
      (parseChatLog nt (writeChatLog_content now history))
  = map_index (fun i m => (Some (timestamp_or now i m), role_of m, content_of m))
              0 (filter kept history).
Proof.
  intros Hs.
  assert (Hw : writeChatLog_content now history
               = chat_log_header ++ List.concat (map (fun '(ts, r, c) => entry_text ts r c)
                                                  (written_turns now history))).
  { unfold writeChatLog_content, written_turns. rewrite map_map_index. reflexivity. }
  rewrite Hw, (parse_log_document nt _ Hs). unfold written_turns.
  rewrite map_map_index. reflexivity.
Qed.

(** The clock ticks between the entries. *)
Definition sample_now (i : nat) : jstr :=
  u "2026-02-02T00:00:00.00" ++ [48 + Z.of_nat i] ++ u "Z".

Definition sample_history : list entry :=
  [{| role_of := User; content_of := u "hi"; timestamp_of := Some (u "2026-01-01T00:00:00.000Z") |};
   {| role_of := System; content_of := u "rules"; timestamp_of := None |};
   {| role_of := Assistant; content_of := u "hello"; timestamp_of := None |};
   {| role_of := User; content_of := u "again"; timestamp_of := None |}].

Lemma writeChatLog_round_trip_witness :
  forallb turn_safe (written_turns sample_now sample_history) = true /\
  map (fun e => (timestamp_of e, role_of e, content_of e))
      (parseChatLog (fun _ => None) (writeChatLog_content sample_now sample_history))
  = [(Some (u "2026-01-01T00:00:00.000Z"), User, u "hi");
     (Some (u "2026-02-02T00:00:00.001Z"), Assistant, u "hello");
     (Some (u "2026-02-02T00:00:00.002Z"), User, u "again")].
Proof.
  split; [vm_compute; reflexivity|].
  rewrite (writeChatLog_round_trip (fun _ => None) sample_now sample_history)
    by (vm_compute; reflexivity).
  vm_compute. reflexivity.
Defined.

End ChatLogWrite.

(** * Base64 of binary file contents: [arrayBufferToBase64] *)

Module Base64.

Definition b64_alphabet : jstr :=
  u "ABCDEFGHIJKLMNOPQRSTUVWXYZabcdefghijklmnopqrstuvwxyz0123456789+/".

Definition b64_char (n : Z) : Z := nth (Z.to_nat n) b64_alphabet 0.

(** [btoa] on a string of code units at most 255: each group of three
    units gives four characters, a short last group is padded with [=]. *)
Fixpoint b64 (s : jstr) : jstr :=
  match s with
  | a :: b :: c :: r =>
      [b64_char (Z.shiftr a 2);
       b64_char (Z.lor (Z.shiftl (Z.land a 3) 4) (Z.shiftr b 4));
       b64_char (Z.lor (Z.shiftl (Z.land b 15) 2) (Z.shiftr c 6));
       b64_char (Z.land c 63)] ++ b64 r
  | [a; b] =>
      [b64_char (Z.shiftr a 2);
       b64_char (Z.lor (Z.shiftl (Z.land a 3) 4) (Z.shiftr b 4));
       b64_char (Z.shiftl (Z.land b 15) 2); 61]
  | [a] => [b64_char (Z.shiftr a 2); b64_char (Z.shiftl (Z.land a 3) 4); 61; 61]
  | [] => []
  end.

(** [btoa(s)]: [None] is the InvalidCharacterError raised by a code unit
    above 255. *)
Definition btoa (s : jstr) : option jstr :=
  if forallb (fun c => (0 <=? c) && (c <=? 255)) s then Some (b64 s) else None.

Definition chunkSize : nat := 8 * 1024.

(** The loop [for (i = 0; i < bytes.length; i += chunkSize)] appending
    [String.fromCharCode(...bytes.subarray(i, i + chunkSize))]; a byte is
    its own code unit.  [fuel] bounds the iterations. *)
Fixpoint chunk_loop (fuel : nat) (bytes : list Z) (i : nat) (binary : jstr) : jstr :=
  match fuel with
  | O => binary
  | S f =>
      if (i <? List.length bytes)%nat
      then chunk_loop f bytes (i + chunkSize)%nat (binary ++ firstn chunkSize (skipn i bytes))
      else binary
  end.

(** Every iteration advances [i], so [length bytes + 1] rounds are enough. *)
Definition arrayBufferToBase64 (bytes : list Z) : option jstr :=
  btoa (chunk_loop (S (List.length bytes)) bytes 0 []).

Lemma chunk_loop_all (bytes : list Z) (fuel i : nat) (binary : jstr) :
  (List.length bytes <= i + fuel)%nat ->
  chunk_loop fuel bytes i binary = binary ++ skipn i bytes.
Proof.
  revert i binary. induction fuel as [|f IH]; intros i binary H; simpl.
  - rewrite skipn_all2 by lia. rewrite app_nil_r. reflexivity.
  - destruct (Nat.ltb_spec i (List.length bytes)) as [Hi|Hi].
    + assert (Hc : (1 <= chunkSize)%nat) by (apply Nat.leb_le; reflexivity).
      rewrite IH by lia.
      rewrite <- app_assoc. f_equal.
      rewrite (Nat.add_comm i chunkSize), <- (skipn_skipn chunkSize i bytes).
      exact (firstn_skipn chunkSize (skipn i bytes)).
    + rewrite skipn_all2 by lia. rewrite app_nil_r. reflexivity.
Qed.

Lemma b64_length (s : jstr) : List.length (b64 s) = (4 * ((List.length s + 2) / 3))%nat.
Proof.
  induction s as [s IH] using (induction_ltof1 _ (@List.length Z)).
  destruct s as [|a [|b [|c r]]]; try reflexivity.
  cbn [b64 app List.length].
  rewrite IH by (unfold ltof; simpl; lia).
  replace (S (S (S (List.length r))) + 2)%nat with (1 * 3 + (List.length r + 2))%nat by lia.
  rewrite Nat.div_add_l by lia. lia.
Qed.

(** [arrayBufferToBase64] encodes the whole buffer as one [btoa] would:
    splitting it into 8192-byte chunks changes nothing, it never throws, and
    the text has [4 * ceil(n / 3)] characters for [n] bytes. *)
Theorem arrayBufferToBase64_whole (bytes : list Z) :
  forallb (fun b => (0 <=? b) && (b <=? 255)) bytes = true ->
  arrayBufferToBase64 bytes = Some (b64 bytes) /\
  List.length (b64 bytes) = (4 * ((List.length bytes + 2) / 3))%nat.
Proof.
  intros H. split; [|apply b64_length].
  unfold arrayBufferToBase64. rewrite chunk_loop_all by lia.
  simpl. unfold btoa. rewrite H. reflexivity.
Qed.

Lemma arrayBufferToBase64_whole_witness :
  forallb (fun b => (0 <=? b) && (b <=? 255)) [77; 97; 110] = true /\
  arrayBufferToBase64 [77; 97; 110] = Some (u "TWFu").
Proof.
  split; [reflexivity|].
  rewrite (proj1 (arrayBufferToBase64_whole [77; 97; 110] eq_refl)). reflexivity.
Defined.

End Base64.

(** * Files of a folder: classification and the summary payload *)

Module Files.
Import Transport.

(** The fields of an Obsidian [TFile] the code reads. *)
Record tfile := {
  path : jstr;
  name : jstr;
  extension : jstr;
  ctime : Z;
  mtime : Z;
  size : Z
}.

Definition SUPPORTED_AUDIO_EXTENSIONS : list jstr :=
  map u ["mp3"; "wav"; "m4a"; "ogg"; "flac"; "opus"]%string.
Definition SUPPORTED_IMAGE_EXTENSIONS : list jstr :=
  map u ["png"; "jpg"; "jpeg"; "gif"; "webp"]%string.
Definition ALL_AUDIO_EXTENSIONS : list jstr :=
  map u ["mp3"; "wav"; "m4a"; "aac"; "ogg"; "flac"; "opus"; "webm"]%string.
Definition MAX_IMAGE_BYTES : Z := 10 * 1024 * 1024.

(** [Set.prototype.has] on a set of strings. *)
Definition set_has (set : list jstr) (x : jstr) : bool := existsb (jstr_eqb x) set.

(** [String.prototype.toLowerCase], the Unicode default lower-case
    mapping (which may change the length of a text).  It is left abstract,
    with the one property of it the code relies on: on ASCII text it maps
    A-Z to a-z and keeps every other code unit. *)
Class ToLowerCase := {
  toLowerCase : jstr -> jstr;
  toLowerCase_ascii : forall s, Forall (fun c => 0 <= c < 128) s -> toLowerCase s = lower s
}.

Section Lowering.
Context `{LC : ToLowerCase}.

Definition isMarkdownFile (f : tfile) : bool := jstr_eqb (extension f) (u "md").
Definition isExcalidrawFile (f : tfile) : bool := ChatLog.ends_with (u ".excalidraw.md") (path f).
Definition isSupportedAudioFile (f : tfile) : bool :=
  set_has SUPPORTED_AUDIO_EXTENSIONS (toLowerCase (extension f)).
Definition isAnyAudioFile (f : tfile) : bool :=
  set_has ALL_AUDIO_EXTENSIONS (toLowerCase (extension f)).
Definition isImageFile (f : tfile) : bool :=
  set_has SUPPORTED_IMAGE_EXTENSIONS (toLowerCase (extension f)).

(** [getAudioContentType]: [inl] is the thrown error's message. *)
Definition getAudioContentType (f : tfile) : jstr + jstr :=
  let ext := toLowerCase (extension f) in
  if jstr_eqb ext (u "mp3") || jstr_eqb ext (u "m4a") then inr (u "audio/mpeg")
  else if jstr_eqb ext (u "ogg") || jstr_eqb ext (u "opus") then inr (u "audio/ogg;codecs=opus")
  else if jstr_eqb ext (u "flac") then inr (u "audio/flac")
  else if jstr_eqb ext (u "wav") then inr (u "audio/x-pcm;bit=16;rate=16000")
  else inl (u "Unsupported audio format: ." ++ ext).

Record buckets := {
  textFiles : list tfile;
  audioFiles : list tfile;
  imageFiles : list tfile;
  unsupportedAudioFiles : list tfile;
  skippedFiles : list tfile
}.

Definition push_bucket (b : buckets) (f : tfile) : buckets :=
  if isSupportedAudioFile f then
    {| textFiles := textFiles b; audioFiles := audioFiles b ++ [f]; imageFiles := imageFiles b;
       unsupportedAudioFiles := unsupportedAudioFiles b; skippedFiles := skippedFiles b |}
  else if isImageFile f then
    {| textFiles := textFiles b; audioFiles := audioFiles b; imageFiles := imageFiles b ++ [f];
       unsupportedAudioFiles := unsupportedAudioFiles b; skippedFiles := skippedFiles b |}
  else if isAnyAudioFile f then
    {| textFiles := textFiles b; audioFiles := audioFiles b; imageFiles := imageFiles b;
       unsupportedAudioFiles := unsupportedAudioFiles b ++ [f]; skippedFiles := skippedFiles b |}
  else if isMarkdownFile f then
    {| textFiles := textFiles b ++ [f]; audioFiles := audioFiles b; imageFiles := imageFiles b;
       unsupportedAudioFiles := unsupportedAudioFiles b; skippedFiles := skippedFiles b |}
  else
    {| textFiles := textFiles b; audioFiles := audioFiles b; imageFiles := imageFiles b;
       unsupportedAudioFiles := unsupportedAudioFiles b; skippedFiles := skippedFiles b ++ [f] |}.

Definition empty_buckets : buckets :=
  {| textFiles := []; audioFiles := []; imageFiles := []; unsupportedAudioFiles := [];
     skippedFiles := [] |}.

Definition splitFiles (files : list tfile) : buckets := fold_left push_bucket files empty_buckets.

(** [callTranscriptionApi] for one file, the server's reply being an input
    ([HttpThrows] when [requestJson] throws).  [inl] is the thrown error. *)
Definition callTranscriptionApi (host_ok : bool) (f : tfile) (reply : http_reply) : jstr + jstr :=
  if negb host_ok then inl (u "API host is not configured. Set it in settings.")
  else match getAudioContentType f with
       | inl e => inl e
       | inr _ =>
           match reply with
           | HttpThrows m => inl m
           | HttpJson result =>
               let transcript :=
                 match result with
                 | JObj _ | JArr _ =>
                     nullish (obj_prop result (u "text"))
                       (nullish (obj_prop result (u "transcript"))
                          (nullish (obj_prop result (u "transcription")) JNull))
                 | _ => JNull
                 end in
               match transcript with
               | JStr ((_ :: _) as t) => inr t
               | _ => inl (u "Transcription API returned an unexpected response.")
               end
           end
       end.

Inductive kind := KMarkdown | KExcalidraw | KImage | KAudioTranscript.

Record file_payload := { fp_path : jstr; fp_kind : kind; fp_content : jstr }.

(** The texts passed to [onStep]. *)
Inductive step_msg :=
| SkipLargeImage (name : jstr)
| AddImage (name : jstr)
| Transcribe (index total : Z) (name : jstr).

Section Payload.

(** The vault's contents and the transcription server's replies. *)
Variable read : tfile -> jstr.
Variable readBinary : tfile -> list Z.
Variable host_ok : bool.
Variable reply : tfile -> http_reply.

(** The loop of [buildSummaryPayload]: the steps reported so far and either
    the thrown error or the payload entries.  A file whose binary cannot be
    encoded does not occur: [btoa] throws only on code units above 255, which
    the bytes of an [ArrayBuffer] never are; the [None] branch is the
    [InvalidCharacterError] it would throw. *)
Fixpoint payload_loop (files : list tfile) (imageSet : list jstr) (totalAudioFiles : Z)
    (audioIndex : Z) (steps : list step_msg) (acc : list file_payload)
  : list step_msg * (jstr + list file_payload) :=
  match files with
  | [] => (steps, inr acc)
  | f :: rest =>
      if isMarkdownFile f then
        payload_loop rest imageSet totalAudioFiles audioIndex steps
          (acc ++ [{| fp_path := path f;
                      fp_kind := if isExcalidrawFile f then KExcalidraw else KMarkdown;
                      fp_content := read f |}])
      else if set_has imageSet (path f) then
        if MAX_IMAGE_BYTES <? size f then
          payload_loop rest imageSet totalAudioFiles audioIndex (steps ++ [SkipLargeImage (name f)]) acc
        else
          match Base64.arrayBufferToBase64 (readBinary f) with
          | Some b =>
              payload_loop rest imageSet totalAudioFiles audioIndex (steps ++ [AddImage (name f)])
                (acc ++ [{| fp_path := path f; fp_kind := KImage; fp_content := b |}])
          | None => (steps ++ [AddImage (name f)], inl (u "InvalidCharacterError"))
          end
      else if isSupportedAudioFile f then
        let i := audioIndex + 1 in
        let steps' := steps ++ [Transcribe i totalAudioFiles (name f)] in
        match callTranscriptionApi host_ok f (reply f) with
        | inl e => (steps', inl e)
        | inr transcript =>
            match transcript with
            | [] => payload_loop rest imageSet totalAudioFiles i steps' acc
            | _ => payload_loop rest imageSet totalAudioFiles i steps'
                     (acc ++ [{| fp_path := path f; fp_kind := KAudioTranscript;
                                 fp_content := transcript |}])
            end
        end
      else payload_loop rest imageSet totalAudioFiles audioIndex steps acc
  end.

Definition buildSummaryPayload (orderedFiles : list tfile) (totalAudioFiles : Z)
    (imageFiles : list tfile) : list step_msg * (jstr + list file_payload) :=
  payload_loop orderedFiles (map path imageFiles) totalAudioFiles 0 [] [].

(** The part of [summarizeFolder] from [splitFiles] to the payload: [None]
    when no supported file was found. *)
Definition summarize_payload (files : list tfile) : option (list step_msg * (jstr + list file_payload)) :=
  let b := splitFiles files in
  match textFiles b, audioFiles b, imageFiles b with
  | [], [], [] => None
  | _, _, _ =>
      Some (buildSummaryPayload files (Z.of_nat (List.length (audioFiles b))) (imageFiles b))
  end.

End Payload.

End Lowering.

End Files.

Module FilesFacts.
Import Transport Files.

Section Facts.
Context `{LC : ToLowerCase}.

Lemma set_has_In (set : list jstr) (x : jstr) : set_has set x = true <-> In x set.
Proof.
  unfold set_has. rewrite existsb_exists. split.
  - intros [y [Hy He]]. apply SnapshotClaims.jstr_eqb_eq in He. subst. exact Hy.
  - intros H. exists x. split; [exact H|apply SnapshotClaims.jstr_eqb_refl].
Qed.

Lemma set_has_disjoint (A B : list jstr) (x : jstr) :
  set_has A x = true -> forallb (fun y => negb (set_has B y)) A = true -> set_has B x = false.
Proof.
  intros Hx Hd. apply set_has_In in Hx. rewrite forallb_forall in Hd.
  apply Hd in Hx. destruct (set_has B x); [discriminate|reflexivity].
Qed.

Lemma set_has_subset (A B : list jstr) (x : jstr) :
  set_has A x = true -> forallb (set_has B) A = true -> set_has B x = true.
Proof.
  intros Hx Hd. apply set_has_In in Hx. rewrite forallb_forall in Hd. auto.
Qed.

Lemma image_not_audio f : isImageFile f = true -> isSupportedAudioFile f = false.
Proof.
  intros H. apply (set_has_disjoint SUPPORTED_IMAGE_EXTENSIONS); [exact H|vm_compute; reflexivity].
Qed.

Lemma image_not_any_audio f : isImageFile f = true -> isAnyAudioFile f = false.
Proof.
  intros H. apply (set_has_disjoint SUPPORTED_IMAGE_EXTENSIONS); [exact H|vm_compute; reflexivity].
Qed.

Lemma audio_any_audio f : isSupportedAudioFile f = true -> isAnyAudioFile f = true.
Proof.
  intros H. apply (set_has_subset SUPPORTED_AUDIO_EXTENSIONS); [exact H|vm_compute; reflexivity].
Qed.

Lemma markdown_ext f : isMarkdownFile f = true -> extension f = u "md".
Proof. intros H. apply SnapshotClaims.jstr_eqb_eq. exact H. Qed.

Lemma markdown_not_media f :
  isMarkdownFile f = true ->
  isSupportedAudioFile f = false /\ isImageFile f = false /\ isAnyAudioFile f = false.
Proof.
  intros H. unfold isSupportedAudioFile, isImageFile, isAnyAudioFile.
  rewrite (markdown_ext f H).
  rewrite toLowerCase_ascii
    by (apply Forall_forall; intros c Hc; vm_compute in Hc; destruct Hc as [<-|[<-|[]]]; lia).
  vm_compute. auto.
Qed.

Lemma fold_push (fs : list tfile) (b : buckets) :
  fold_left push_bucket fs b =
  {| textFiles := textFiles b ++ filter (fun f => negb (isSupportedAudioFile f) && negb (isImageFile f)
                                            && negb (isAnyAudioFile f) && isMarkdownFile f) fs;
     audioFiles := audioFiles b ++ filter isSupportedAudioFile fs;
     imageFiles := imageFiles b ++ filter (fun f => negb (isSupportedAudioFile f) && isImageFile f) fs;
     unsupportedAudioFiles := unsupportedAudioFiles b ++
       filter (fun f => negb (isSupportedAudioFile f) && negb (isImageFile f) && isAnyAudioFile f) fs;
     skippedFiles := skippedFiles b ++
       filter (fun f => negb (isSupportedAudioFile f) && negb (isImageFile f)
                        && negb (isAnyAudioFile f) && negb (isMarkdownFile f)) fs |}.
Proof.
  revert b. induction fs as [|f fs IH]; intros b.
  - destruct b; simpl. rewrite !app_nil_r. reflexivity.
  - simpl. rewrite IH. unfold push_bucket.
    destruct (isSupportedAudioFile f), (isImageFile f), (isAnyAudioFile f), (isMarkdownFile f);
      simpl; rewrite <- ?app_assoc; reflexivity.
Qed.

(** The four extension tests of a file, with the combinations that cannot
    occur ruled out. *)
Ltac classify f :=
  pose proof (image_not_audio f); pose proof (image_not_any_audio f);
  pose proof (audio_any_audio f); pose proof (markdown_not_media f);
  destruct (isSupportedAudioFile f), (isImageFile f), (isAnyAudioFile f), (isMarkdownFile f);
  try solve [exfalso;
             repeat match goal with H : true = true -> _ |- _ => specialize (H eq_refl) end;
             intuition discriminate].

(** [splitFiles] sorts every file into exactly one bucket, keeping the
    input order inside each bucket: supported audio first, then images, then
    other audio formats, then Markdown, and everything else is skipped. *)
Theorem splitFiles_buckets (files : list tfile) :
  let b := splitFiles files in
  audioFiles b = filter isSupportedAudioFile files /\
  imageFiles b = filter isImageFile files /\
  unsupportedAudioFiles b = filter (fun f => isAnyAudioFile f && negb (isSupportedAudioFile f)) files /\
  textFiles b = filter isMarkdownFile files /\
  skippedFiles b = filter (fun f => negb (isAnyAudioFile f || isImageFile f || isMarkdownFile f)) files /\
  Permutation files (audioFiles b ++ imageFiles b ++ unsupportedAudioFiles b ++ textFiles b
                     ++ skippedFiles b).
Proof.
  cbv zeta. unfold splitFiles. rewrite fold_push. cbn [textFiles audioFiles imageFiles
    unsupportedAudioFiles skippedFiles empty_buckets app].
  assert (Hi : filter (fun f => negb (isSupportedAudioFile f) && isImageFile f) files
               = filter isImageFile files)
    by (apply filter_ext; intros f; classify f; reflexivity).
  assert (Hu : filter (fun f => negb (isSupportedAudioFile f) && negb (isImageFile f) && isAnyAudioFile f) files
               = filter (fun f => isAnyAudioFile f && negb (isSupportedAudioFile f)) files)
    by (apply filter_ext; intros f; classify f; reflexivity).
  assert (Ht : filter (fun f => negb (isSupportedAudioFile f) && negb (isImageFile f)
                                && negb (isAnyAudioFile f) && isMarkdownFile f) files
               = filter isMarkdownFile files)
    by (apply filter_ext; intros f; classify f; reflexivity).
  assert (Hs : filter (fun f => negb (isSupportedAudioFile f) && negb (isImageFile f)
                                && negb (isAnyAudioFile f) && negb (isMarkdownFile f)) files
               = filter (fun f => negb (isAnyAudioFile f || isImageFile f || isMarkdownFile f)) files)
    by (apply filter_ext; intros f; classify f; reflexivity).
  rewrite Hi, Hu, Ht, Hs.
  do 5 (split; [reflexivity|]). clear Hi Hu Ht Hs.
  induction files as [|f l IH]; [constructor|].
  cbn [filter]. classify f; cbn [negb andb orb app];
    first [ apply perm_skip; exact IH
          | rewrite ?app_assoc; apply Permutation_cons_app; rewrite <- ?app_assoc; exact IH ].
Qed.

Lemma content_type_ok (f : tfile) (ct : jstr) :
  getAudioContentType f = inr ct -> isSupportedAudioFile f = true.
Proof.
  unfold getAudioContentType, isSupportedAudioFile.
  generalize (toLowerCase (extension f)) as e. intros e.
  cbn [set_has SUPPORTED_AUDIO_EXTENSIONS map existsb].
  destruct (jstr_eqb e (u "mp3")), (jstr_eqb e (u "wav")), (jstr_eqb e (u "m4a")),
    (jstr_eqb e (u "ogg")), (jstr_eqb e (u "flac")), (jstr_eqb e (u "opus"));
    cbn [orb]; intros H; first [reflexivity | discriminate].
Qed.

Lemma transcription_ok (host_ok : bool) (f : tfile) (reply : http_reply) (t : jstr) :
  callTranscriptionApi host_ok f reply = inr t ->
  host_ok = true /\ isSupportedAudioFile f = true /\ t <> [].
Proof.
  unfold callTranscriptionApi. intros H.
  destruct host_ok; [|discriminate].
  destruct (getAudioContentType f) as [e|ct] eqn:Ect; [discriminate|].
  split; [reflexivity|split].
  - exact (content_type_ok f ct Ect).
  - destruct reply as [m|result]; [discriminate|].
    cbv zeta in H. revert H.
    generalize (match result with
                | JObj _ | JArr _ =>
                    nullish (obj_prop result (u "text"))
                      (nullish (obj_prop result (u "transcript"))
                         (nullish (obj_prop result (u "transcription")) JNull))
                | _ => JNull
                end).
    intros v H. destruct v as [| | | |s| |]; try discriminate.
    destruct s; [discriminate|]. injection H as Ht. subst t. intros E; discriminate E.
Qed.

(** [getAudioContentType] returns a content type exactly for the files
    [isSupportedAudioFile] accepts (the same six extensions, in any letter
    case), and throws for every other file with the lower-cased extension in
    the message. *)
Theorem getAudioContentType_supported (f : tfile) :
  ((exists ct, getAudioContentType f = inr ct) <-> isSupportedAudioFile f = true) /\
  (isSupportedAudioFile f = false ->
   getAudioContentType f = inl (u "Unsupported audio format: ." ++ toLowerCase (extension f))).
Proof.
  unfold getAudioContentType, isSupportedAudioFile.
  generalize (toLowerCase (extension f)) as e. intros e.
  cbn [set_has SUPPORTED_AUDIO_EXTENSIONS map existsb].
  destruct (jstr_eqb e (u "mp3")), (jstr_eqb e (u "wav")), (jstr_eqb e (u "m4a")),
    (jstr_eqb e (u "ogg")), (jstr_eqb e (u "flac")), (jstr_eqb e (u "opus"));
    cbn [orb]; split; try split; intros H;
    first [ reflexivity | discriminate | eexists; reflexivity
          | destruct H as [? H]; discriminate ].
Qed.

(** [callTranscriptionApi] only returns a transcript when the API host is
    set and the file is a supported audio file, and the transcript it
    returns is never empty. *)
Theorem callTranscriptionApi_result (host_ok : bool) (f : tfile) (reply : http_reply) (t : jstr) :
  callTranscriptionApi host_ok f reply = inr t ->
  host_ok = true /\ isSupportedAudioFile f = true /\ t <> [].
Proof. exact (transcription_ok host_ok f reply t). Qed.

Definition payload_keeps (imageSet : list jstr) (f : tfile) : bool :=
  isMarkdownFile f
  || (if set_has imageSet (path f) then size f <=? MAX_IMAGE_BYTES else isSupportedAudioFile f).

Definition payload_kind (imageSet : list jstr) (f : tfile) : kind :=
  if isMarkdownFile f then (if isExcalidrawFile f then KExcalidraw else KMarkdown)
  else if set_has imageSet (path f) then KImage else KAudioTranscript.

Definition path_kind (p : file_payload) : jstr * kind := (fp_path p, fp_kind p).

Lemma payload_keeps_eq S f :
  payload_keeps S f
  = isMarkdownFile f
    || (if set_has S (path f) then size f <=? MAX_IMAGE_BYTES else isSupportedAudioFile f).
Proof. reflexivity. Qed.

Lemma payload_kind_eq S f :
  payload_kind S f
  = if isMarkdownFile f then (if isExcalidrawFile f then KExcalidraw else KMarkdown)
    else if set_has S (path f) then KImage else KAudioTranscript.
Proof. reflexivity. Qed.

Section Loop.

Variable read : tfile -> jstr.
Variable readBinary : tfile -> list Z.
Variable host_ok : bool.
Variable reply : tfile -> http_reply.

Lemma payload_loop_ok (fs : list tfile) (S : list jstr) (T a : Z) (steps : list step_msg)
    (acc ps : list file_payload) :
  snd (payload_loop read readBinary host_ok reply fs S T a steps acc) = inr ps ->
  map path_kind ps
  = map path_kind acc ++ map (fun f => (path f, payload_kind S f)) (filter (payload_keeps S) fs).
Proof.
  revert a steps acc. induction fs as [|f fs IH]; intros a steps acc H.
  - simpl in H. injection H as <-. simpl. rewrite app_nil_r. reflexivity.
  - cbn [payload_loop] in H. cbn [filter].
    rewrite (payload_keeps_eq S f).
    destruct (isMarkdownFile f) eqn:Em; cbn [orb].
    + rewrite (IH _ _ _ H), map_app, <- app_assoc. cbn [map app path_kind fp_path fp_kind].
      rewrite (payload_kind_eq S f), Em. reflexivity.
    + destruct (set_has S (path f)) eqn:Ei.
      * destruct (MAX_IMAGE_BYTES <? size f) eqn:Es.
        -- replace (size f <=? MAX_IMAGE_BYTES) with false
             by (symmetry; apply Z.leb_gt; apply Z.ltb_lt; exact Es).
           exact (IH _ _ _ H).
        -- replace (size f <=? MAX_IMAGE_BYTES) with true
             by (symmetry; apply Z.leb_le; apply Z.ltb_ge; exact Es).
           destruct (Base64.arrayBufferToBase64 (readBinary f)); [|discriminate].
           rewrite (IH _ _ _ H), map_app, <- app_assoc. cbn [map app path_kind fp_path fp_kind].
           rewrite (payload_kind_eq S f), Em, Ei. reflexivity.
      * destruct (isSupportedAudioFile f) eqn:Ea; [|exact (IH _ _ _ H)].
        destruct (callTranscriptionApi host_ok f (reply f)) as [e|t] eqn:Et; [discriminate|].
        destruct (transcription_ok _ _ _ _ Et) as [_ [_ Hne]].
        destruct t as [|c t]; [congruence|].
        rewrite (IH _ _ _ H), map_app, <- app_assoc. cbn [map app path_kind fp_path fp_kind].
        rewrite (payload_kind_eq S f), Em, Ei. reflexivity.
Qed.

Definition audio_count (fs : list tfile) : Z := Z.of_nat (List.length (filter isSupportedAudioFile fs)).

Lemma audio_count_cons f fs :
  audio_count (f :: fs) = (if isSupportedAudioFile f then 1 else 0) + audio_count fs.
Proof.
  unfold audio_count. cbn [filter]. destruct (isSupportedAudioFile f); cbn [List.length]; lia.
Qed.

Lemma audio_count_nonneg fs : 0 <= audio_count fs.
Proof. unfold audio_count. lia. Qed.

Lemma payload_loop_counter (fs : list tfile) (S : list jstr) (T a : Z) (steps : list step_msg)
    (acc : list file_payload) (i t : Z) (n : jstr) :
  In (Transcribe i t n) (fst (payload_loop read readBinary host_ok reply fs S T a steps acc)) ->
  In (Transcribe i t n) steps \/ (t = T /\ a < i <= a + audio_count fs).
Proof.
  revert a steps acc. induction fs as [|f fs IH]; intros a steps acc H.
  - left. exact H.
  - rewrite audio_count_cons. pose proof (audio_count_nonneg fs).
    cbn [payload_loop] in H.
    assert (Hsk : forall m, m <> Transcribe i t n -> In (Transcribe i t n) (steps ++ [m]) ->
                  In (Transcribe i t n) steps).
    { intros m Hm Hin. apply in_app_or in Hin. destruct Hin as [Hin|[Hin|[]]]; [exact Hin|].
      congruence. }
    destruct (isMarkdownFile f).
    + destruct (IH _ _ _ H) as [Hin|[Ht Hi]]; [left; exact Hin|right].
      destruct (isSupportedAudioFile f); lia.
    + destruct (set_has S (path f)).
      * destruct (MAX_IMAGE_BYTES <? size f);
          [|destruct (Base64.arrayBufferToBase64 (readBinary f))];
          first [ destruct (IH _ _ _ H) as [Hin|[Ht Hi]];
                  [left; eapply Hsk; [|exact Hin]; discriminate
                  |right; destruct (isSupportedAudioFile f); lia]
                | left; eapply Hsk; [|exact H]; discriminate ].
      * destruct (isSupportedAudioFile f) eqn:Ea; [|exact (IH _ _ _ H)].
        assert (Hnew : In (Transcribe i t n) (steps ++ [Transcribe (a + 1) T (name f)]) ->
                       In (Transcribe i t n) steps \/ (t = T /\ a < i <= a + (1 + audio_count fs))).
        { intros Hin. apply in_app_or in Hin. destruct Hin as [Hin|[Hin|[]]]; [left; exact Hin|].
          injection Hin as <- <- _. right. lia. }
        destruct (callTranscriptionApi host_ok f (reply f)) as [e|tr]; [exact (Hnew H)|].
        destruct tr;
          (destruct (IH _ _ _ H) as [Hin|[Ht Hi]]; [exact (Hnew Hin)|right; lia]).
Qed.

End Loop.

Lemma splitFiles_image (files : list tfile) : imageFiles (splitFiles files) = filter isImageFile files.
Proof.
  unfold splitFiles. rewrite fold_push. apply filter_ext. intros f. classify f; reflexivity.
Qed.

Lemma splitFiles_audio (files : list tfile) :
  audioFiles (splitFiles files) = filter isSupportedAudioFile files.
Proof. unfold splitFiles. rewrite fold_push. reflexivity. Qed.

Lemma nodup_path_inj (l : list tfile) (f g : tfile) :
  NoDup (map path l) -> In f l -> In g l -> path f = path g -> f = g.
Proof.
  induction l as [|x l IH]; intros Hn Hf Hg Hp; [destruct Hf|].
  simpl in Hn. apply NoDup_cons_iff in Hn as [Hx Hn].
  destruct Hf as [<-|Hf], Hg as [<-|Hg]; auto.
  - exfalso. apply Hx. rewrite Hp. apply in_map. exact Hg.
  - exfalso. apply Hx. rewrite <- Hp. apply in_map. exact Hf.
Qed.

Lemma image_set_has (files : list tfile) (f : tfile) :
  NoDup (map path files) -> In f files ->
  set_has (map path (filter isImageFile files)) (path f) = isImageFile f.
Proof.
  intros Hn Hf. destruct (isImageFile f) eqn:Ei.
  - apply set_has_In. apply in_map. apply filter_In. auto.
  - destruct (set_has _ (path f)) eqn:Hs; [|reflexivity].
    apply set_has_In in Hs. apply in_map_iff in Hs as [g [Hg Hin]].
    apply filter_In in Hin as [Hgin Hgi].
    rewrite (nodup_path_inj files g f Hn Hgin Hf Hg) in Hgi. congruence.
Qed.

Lemma summarize_payload_some read readBinary host_ok reply files x :
  summarize_payload read readBinary host_ok reply files = Some x ->
  x = buildSummaryPayload read readBinary host_ok reply files
        (Z.of_nat (List.length (audioFiles (splitFiles files)))) (imageFiles (splitFiles files)).
Proof.
  unfold summarize_payload. generalize (splitFiles files) as b. intros b.
  destruct b as [tx au im un sk]; cbn [textFiles audioFiles imageFiles].
  destruct tx, au, im; intros H; try discriminate; injection H as <-; reflexivity.
Qed.

(** The payload [summarizeFolder] builds, when it builds one, lists the
    folder's files in their order, keeping exactly the Markdown files (as
    Excalidraw drawings when their path ends in ".excalidraw.md"), the images
    of at most [MAX_IMAGE_BYTES] bytes and the supported audio files; other
    audio formats, larger images and other files are left out.  (The paths
    of a vault's files are distinct.) *)
Theorem summarize_payload_files read readBinary host_ok reply (files : list tfile)
    (steps : list step_msg) (ps : list file_payload) :
  NoDup (map path files) ->
  summarize_payload read readBinary host_ok reply files = Some (steps, inr ps) ->
  map (fun p => (fp_path p, fp_kind p)) ps
  = map (fun f => (path f, if isMarkdownFile f then (if isExcalidrawFile f then KExcalidraw else KMarkdown)
                          else if isImageFile f then KImage else KAudioTranscript))
        (filter (fun f => isMarkdownFile f || (isImageFile f && (size f <=? MAX_IMAGE_BYTES))
                          || isSupportedAudioFile f) files).
Proof.
  intros Hn H. apply summarize_payload_some in H.
  unfold buildSummaryPayload in H. rewrite splitFiles_image in H.
  assert (Hs : snd (payload_loop read readBinary host_ok reply files
                      (map path (filter isImageFile files))
                      (Z.of_nat (List.length (audioFiles (splitFiles files)))) 0 [] []) = inr ps)
    by (rewrite <- H; reflexivity).
  apply payload_loop_ok in Hs. transitivity (map path_kind ps); [reflexivity|].
  rewrite Hs. cbn [map app].
  rewrite (filter_ext_in (payload_keeps (map path (filter isImageFile files))) (fun f => isMarkdownFile f || (isImageFile f && (size f <=? MAX_IMAGE_BYTES))
                                     || isSupportedAudioFile f) files).
  - apply map_ext_in. intros f Hf. apply filter_In in Hf as [Hf _].
    rewrite payload_kind_eq, (image_set_has files f Hn Hf). reflexivity.
  - intros f Hf. rewrite payload_keeps_eq, (image_set_has files f Hn Hf).
    pose proof (image_not_audio f).
    destruct (isMarkdownFile f), (isImageFile f), (isSupportedAudioFile f);
      cbn [orb andb]; auto; destruct (size f <=? MAX_IMAGE_BYTES); auto.
    specialize (H0 eq_refl). discriminate.
Qed.

(** The audio progress message "i/total" of [summarizeFolder] always has
    [1 <= i <= total], [total] being the number of supported audio files of
    the folder. *)
Theorem summarize_progress_counter read readBinary host_ok reply (files : list tfile)
    (steps : list step_msg) (r : jstr + list file_payload) (i t : Z) (n : jstr) :
  summarize_payload read readBinary host_ok reply files = Some (steps, r) ->
  In (Transcribe i t n) steps ->
  1 <= i <= t /\ t = Z.of_nat (List.length (filter isSupportedAudioFile files)).
Proof.
  intros H Hin. apply summarize_payload_some in H.
  unfold buildSummaryPayload in H. rewrite splitFiles_audio in H.
  assert (Hf : In (Transcribe i t n)
                 (fst (payload_loop read readBinary host_ok reply files
                         (map path (imageFiles (splitFiles files)))
                         (Z.of_nat (List.length (filter isSupportedAudioFile files))) 0 [] [])))
    by (rewrite <- H; exact Hin).
  apply payload_loop_counter in Hf. destruct Hf as [[]|[Ht Hi]].
  unfold audio_count in Hi. lia.
Qed.

End Facts.

(** Lower-casing of ASCII text, for the concrete runs below. *)
#[local] Instance ascii_lower : ToLowerCase :=
  {| toLowerCase := lower; toLowerCase_ascii := fun s _ => eq_refl |}.

Definition sample_audio : tfile :=
  {| path := u "notes/voice.OGG"; name := u "voice.OGG"; extension := u "OGG";
     ctime := 1; mtime := 1; size := 2048 |}.

Lemma callTranscriptionApi_result_witness :
  callTranscriptionApi true sample_audio (HttpJson (JObj [(u "transcript", JStr (u "hello"))]))
    = inr (u "hello") /\
  (true = true /\ isSupportedAudioFile sample_audio = true /\ u "hello" <> []).
Proof.
  split; [vm_compute; reflexivity|].
  apply (callTranscriptionApi_result true sample_audio
           (HttpJson (JObj [(u "transcript", JStr (u "hello"))])) (u "hello")).
  vm_compute. reflexivity.
Defined.

(** The files [payload_loop] adds to the payload, and under which kind. *)
Definition sample_files : list tfile :=
  [ {| path := u "f/a.md"; name := u "a.md"; extension := u "md"; ctime := 1; mtime := 1; size := 10 |};
    {| path := u "f/b.png"; name := u "b.png"; extension := u "png"; ctime := 2; mtime := 2; size := 100 |};
    {| path := u "f/c.mp3"; name := u "c.mp3"; extension := u "mp3"; ctime := 3; mtime := 3; size := 100 |};
    {| path := u "f/d.PNG"; name := u "d.PNG"; extension := u "PNG"; ctime := 4; mtime := 4;
       size := 20000000 |};
    {| path := u "f/e.txt"; name := u "e.txt"; extension := u "txt"; ctime := 5; mtime := 5; size := 1 |} ].

Definition sample_read (f : tfile) : jstr := u "text".
Definition sample_readBinary (f : tfile) : list Z := [1; 2; 3].
Definition sample_reply (f : tfile) : http_reply := HttpJson (JObj [(u "text", JStr (u "hi"))]).

Definition sample_steps : list step_msg :=
  [AddImage (u "b.png"); Transcribe 1 1 (u "c.mp3"); SkipLargeImage (u "d.PNG")].

Definition sample_payload : list file_payload :=
  [ {| fp_path := u "f/a.md"; fp_kind := KMarkdown; fp_content := u "text" |};
    {| fp_path := u "f/b.png"; fp_kind := KImage; fp_content := u "AQID" |};
    {| fp_path := u "f/c.mp3"; fp_kind := KAudioTranscript; fp_content := u "hi" |} ].

Lemma sample_files_nodup : NoDup (map path sample_files).
Proof. vm_compute. repeat constructor; simpl; intuition discriminate. Qed.

Lemma summarize_payload_files_witness :
  map (fun p => (fp_path p, fp_kind p)) sample_payload
  = map (fun f => (path f, if isMarkdownFile f then (if isExcalidrawFile f then KExcalidraw else KMarkdown)
                          else if isImageFile f then KImage else KAudioTranscript))
        (filter (fun f => isMarkdownFile f || (isImageFile f && (size f <=? MAX_IMAGE_BYTES))
                          || isSupportedAudioFile f) sample_files).
Proof.
  apply (summarize_payload_files sample_read sample_readBinary true sample_reply sample_files
           sample_steps sample_payload sample_files_nodup).
  vm_compute. reflexivity.
Defined.

Lemma summarize_progress_counter_witness :
  1 <= 1 <= 1 /\ 1 = Z.of_nat (List.length (filter isSupportedAudioFile sample_files)).
Proof.
  apply (summarize_progress_counter sample_read sample_readBinary true sample_reply sample_files
           sample_steps (inr sample_payload) 1 1 (u "c.mp3")).
  - vm_compute. reflexivity.
  - simpl. auto.
Defined.

End FilesFacts.

(** * HTTP responses: [requestJson] and [extractErrorDetail] *)

Module Http.

(** What [requestUrl] resolves to: the status, the [json] field as the code
    reads it ([JUndef] when the body is not JSON) and the body text. *)
Record response := { status : Z; json : jsval; text : jstr }.

Definition extractErrorDetail (response : response) : option jstr :=
  let parsed := match json response with
                | JObj _ | JArr _ => Some (json response)
                | _ => None
                end in
  let detail := match parsed with
                | Some p => nullish (obj_prop p (u "detail")) (obj_prop p (u "message"))
                | None => JUndef
                end in
  let from_text := match text response with
                   | [] => None
                   | t => match trim t with [] => None | trimmed => Some trimmed end
                   end in
  match detail with
  | JStr d => match trim d with [] => from_text | td => Some td end
  | _ => from_text
  end.

(** How the request ends: [requestUrl] rejects on a network failure, or the
    server answers with a response. *)
Inductive http_result :=
| NetworkError (message : jstr)
| ServerResponse (r : response).

(** [requestUrl] called without [throw: false]: it rejects with its own
    error, whose message is [requestUrl_error r], when the status is 400 or
    more, and resolves with the response otherwise. *)
Definition requestUrl (requestUrl_error : response -> jstr) (res : http_result) : jstr + response :=
  match res with
  | NetworkError m => inl m
  | ServerResponse r => if 400 <=? status r then inl (requestUrl_error r) else inr r
  end.

(** [requestJson]: [inl] is the message of the thrown error. *)
Definition requestJson (requestUrl_error : response -> jstr) (res : http_result) : jstr + jsval :=
  match requestUrl requestUrl_error res with
  | inl e => inl e
  | inr response =>
      if (status response <? 200) || (300 <=? status response) then
        inl (match extractErrorDetail response with
             | Some detail => detail
             | None => u "API error: " ++ z_to_jstr (status response)
             end)
      else if negb (js_falsy (json response)) then inr (json response)
      else match Json.parse (text response) with
           | Some v => inr v
           | None => inl (u "API returned non-JSON response.")
           end
  end.

End Http.

Module HttpFacts.
Import Http ChatLogClaims.

Lemma drop_space_head (s : jstr) :
  drop_space s = [] \/ exists c t, drop_space s = c :: t /\ is_js_space c = false.
Proof.
  induction s as [|c s IH]; [left; reflexivity|].
  simpl. destruct (is_js_space c) eqn:E; [exact IH|right; eauto].
Qed.

Lemma drop_space_suffix (s : jstr) : exists p, s = p ++ drop_space s.
Proof.
  induction s as [|c s [p Hp]]; [exists []; reflexivity|].
  simpl. destruct (is_js_space c); [exists (c :: p); simpl; f_equal; exact Hp|exists []; reflexivity].
Qed.

Lemma drop_space_nonspace (c : Z) (t : jstr) :
  is_js_space c = false -> drop_space (c :: t) = c :: t.
Proof. intros H. simpl. rewrite H. reflexivity. Qed.

(** [trim] of a text that neither starts nor ends with white space. *)
Lemma trim_id (c : Z) (t : jstr) (l : Z) (m : jstr) :
  is_js_space c = false -> is_js_space l = false -> rev (c :: t) = l :: m ->
  trim (c :: t) = c :: t.
Proof.
  intros Hc Hl Hr. unfold trim. rewrite (drop_space_nonspace c t Hc), Hr.
  rewrite (drop_space_nonspace l m Hl), <- Hr, rev_involutive. reflexivity.
Qed.

(** A non-empty result of [trim] starts and ends with a code unit that is
    not white space. *)
Lemma trim_shape (s : jstr) :
  trim s = [] \/ exists c t l m, trim s = c :: t /\ is_js_space c = false /\
                                 rev (c :: t) = l :: m /\ is_js_space l = false.
Proof.
  unfold trim. set (a := drop_space s).
  destruct (drop_space_head s) as [Ha|[c [t [Ha Hc]]]]; fold a in Ha.
  - left. rewrite Ha. reflexivity.
  - set (b := drop_space (rev a)).
    destruct (drop_space_suffix (rev a)) as [p Hp]. fold b in Hp.
    destruct (drop_space_head (rev a)) as [Hb|[d [b' [Hb Hd]]]]; fold b in Hb.
    + left. rewrite Hb. reflexivity.
    + right. assert (Ha' : a = rev b ++ rev p)
        by (rewrite <- rev_app_distr, <- Hp, rev_involutive; reflexivity).
      rewrite Ha in Ha'.
      destruct (rev b) as [|x q] eqn:Erb.
      * apply (f_equal (@rev Z)) in Erb. rewrite rev_involutive in Erb. simpl in Erb. congruence.
      * simpl in Ha'. injection Ha' as <- _.
        exists c, q, d, b'. split; [reflexivity|]. split; [exact Hc|]. split; [|exact Hd].
        rewrite <- Erb, rev_involutive, Hb. reflexivity.
Qed.

Lemma trim_trim (s : jstr) : trim (trim s) = trim s.
Proof.
  destruct (trim_shape s) as [E|[c [t [l [m [E [Hc [Hr Hl]]]]]]]]; rewrite E;
    [reflexivity|exact (trim_id c t l m Hc Hl Hr)].
Qed.

Lemma string_of_uint_nonspace (d : Decimal.uint) :
  forallb (fun c => negb (is_js_space c)) (u (NilEmpty.string_of_uint d)) = true.
Proof. induction d; simpl; auto. Qed.

(** [String(status)]: never empty, and free of white space. *)
Lemma z_to_jstr_nonspace (z : Z) :
  z_to_jstr z <> [] /\ forallb (fun c => negb (is_js_space c)) (z_to_jstr z) = true.
Proof.
  unfold z_to_jstr. destruct (Z.to_int z) as [d|d] eqn:E.
  - split; [|apply string_of_uint_nonspace].
    destruct d; try (simpl; discriminate).
    exfalso. pose proof (DecimalZ.of_to z) as Hz. rewrite E in Hz. simpl in Hz. subst z.
    discriminate E.
  - split; [simpl; discriminate|]. simpl. apply string_of_uint_nonspace.
Qed.

Lemma extractErrorDetail_trimmed (r : response) (m : jstr) :
  extractErrorDetail r = Some m -> m <> [] /\ trim m = m.
Proof.
  unfold extractErrorDetail.
  assert (Htext : match text r with
                  | [] => None
                  | t => match trim t with [] => None | trimmed => Some trimmed end
                  end = Some m -> m <> [] /\ trim m = m).
  { destruct (text r) as [|c t]; [discriminate|].
    destruct (trim (c :: t)) as [|x y] eqn:E; [discriminate|].
    intros H. injection H as <-. split; [discriminate|]. rewrite <- E. apply trim_trim. }
  destruct (match match json r with JObj _ | JArr _ => Some (json r) | _ => None end with
            | Some p => nullish (obj_prop p (u "detail")) (obj_prop p (u "message"))
            | None => JUndef
            end) as [| | | |d| |]; try exact Htext.
  destruct (trim d) as [|x y] eqn:E; [exact Htext|].
  intros H. injection H as <-. split; [discriminate|]. rewrite <- E. apply trim_trim.
Qed.

(** [parsed?.detail ?? parsed?.message] when it is a string. *)
Definition detail_string (r : response) : option jstr :=
  match json r with
  | JObj _ | JArr _ =>
      match nullish (obj_prop (json r) (u "detail")) (obj_prop (json r) (u "message")) with
      | JStr d => Some d
      | _ => None
      end
  | _ => None
  end.

Lemma extractErrorDetail_cases (r : response) :
  (forall d, detail_string r = Some d -> trim d <> [] -> extractErrorDetail r = Some (trim d)) /\
  ((forall d, detail_string r = Some d -> trim d = []) ->
   extractErrorDetail r = match trim (text r) with [] => None | t => Some t end).
Proof.
  unfold extractErrorDetail, detail_string.
  assert (Htext : match text r with
                  | [] => None
                  | t => match trim t with [] => None | trimmed => Some trimmed end
                  end = match trim (text r) with [] => None | t => Some t end)
    by (destruct (text r); reflexivity).
  rewrite Htext.
  destruct (json r) as [| | | | |l|l] eqn:Ej; cbn iota;
    try (split; [discriminate|reflexivity]);
    destruct (nullish (obj_prop _ (u "detail")) (obj_prop _ (u "message"))) as [| | | |d| |];
    try (split; [discriminate|reflexivity]);
    (split;
     [ intros d' Hd Ht; injection Hd as <-; destruct (trim d) eqn:E; [contradiction|reflexivity]
     | intros H; rewrite (H d eq_refl); reflexivity ]).
Qed.

(** [requestJson] never reads a server's error detail on a status of 400 or
    more: [requestUrl] rejects first, with its own error.  On a response
    with a status below 200 or from 300 to 399 it throws a message that is
    never empty and never starts or ends with white space: the trimmed
    string [detail] (else [message]) of a JSON body when it is not blank,
    else the trimmed body text when it is not blank, else "API error: " and
    the status. *)
Theorem requestJson_error_message (requestUrl_error : response -> jstr) (r : response) :
  (400 <= status r -> requestJson requestUrl_error (ServerResponse r) = inl (requestUrl_error r)) /\
  ((status r < 200 \/ 300 <= status r < 400) ->
   exists m, requestJson requestUrl_error (ServerResponse r) = inl m /\ m <> [] /\ trim m = m /\
     (forall d, detail_string r = Some d -> trim d <> [] -> m = trim d) /\
     ((forall d, detail_string r = Some d -> trim d = []) ->
      trim (text r) <> [] -> m = trim (text r)) /\
     ((forall d, detail_string r = Some d -> trim d = []) ->
      trim (text r) = [] -> m = u "API error: " ++ z_to_jstr (status r))).
Proof.
  split.
  - intros Hs. unfold requestJson, requestUrl.
    replace (400 <=? status r) with true by (symmetry; apply Z.leb_le; exact Hs). reflexivity.
  - intros Hs. unfold requestJson, requestUrl.
    replace (400 <=? status r) with false by (symmetry; apply Z.leb_gt; lia).
    replace ((status r <? 200) || (300 <=? status r)) with true
      by (symmetry; apply orb_true_iff; destruct Hs; [left; apply Z.ltb_lt|right; apply Z.leb_le]; lia).
    destruct (extractErrorDetail_cases r) as [Hdet Hno].
    destruct (extractErrorDetail r) as [m|] eqn:E.
    + exists m. split; [reflexivity|].
      destruct (extractErrorDetail_trimmed r m E) as [Hne Htr].
      split; [exact Hne|]. split; [exact Htr|]. split; [|split].
      * intros d Hd Ht. pose proof (Hdet d Hd Ht) as X. rewrite ?E in X. congruence.
      * intros Hb Ht. pose proof (Hno Hb) as X. rewrite ?E in X.
        destruct (trim (text r)) as [|c t]; [contradiction|].
        cbn iota in X. injection X as <-. reflexivity.
      * intros Hb Ht. pose proof (Hno Hb) as X. rewrite ?E, Ht in X. discriminate.
    + eexists. split; [reflexivity|]. split; [discriminate|]. split.
      * destruct (z_to_jstr_nonspace (status r)) as [Hne Hall].
        destruct (rev (z_to_jstr (status r))) as [|l w] eqn:Er.
        -- apply (f_equal (@rev Z)) in Er. rewrite rev_involutive in Er. contradiction.
        -- apply (trim_id 65 (tl (u "API error: ") ++ z_to_jstr (status r)) l (w ++ rev (u "API error: ")));
             [reflexivity| |].
           ++ assert (Hin : In l (z_to_jstr (status r))) by (apply in_rev; rewrite Er; left; reflexivity).
              rewrite forallb_forall in Hall. apply Hall in Hin.
              destruct (is_js_space l); [discriminate|reflexivity].
           ++ change (rev (u "API error: " ++ z_to_jstr (status r)) = (l :: w) ++ rev (u "API error: ")).
              rewrite rev_app_distr, Er. reflexivity.
      * split; [|split].
        -- intros d Hd Ht. pose proof (Hdet d Hd Ht) as X. rewrite ?E in X. discriminate.
        -- intros Hb Ht. pose proof (Hno Hb) as X. rewrite ?E in X.
           destruct (trim (text r)); [contradiction|discriminate].
        -- intros _ _. reflexivity.
Qed.

(** A redirect answered with a JSON detail padded with blanks, and a 404
    that [requestUrl] rejects. *)
Definition sample_redirect : response :=
  {| status := 302; json := JObj [(u "detail", JStr (u "  Moved "))]; text := u "x" |}.

Definition sample_not_found : response :=
  {| status := 404; json := JObj [(u "detail", JStr (u "Not found"))]; text := u "x" |}.

Definition sample_requestUrl_error (r : response) : jstr :=
  u "Request failed, status " ++ z_to_jstr (status r).

Lemma requestJson_error_message_witness :
  requestJson sample_requestUrl_error (ServerResponse sample_not_found)
  = inl (u "Request failed, status 404") /\
  requestJson sample_requestUrl_error (ServerResponse sample_redirect) = inl (u "Moved").
Proof.
  split.
  - rewrite (proj1 (requestJson_error_message sample_requestUrl_error sample_not_found))
      by (simpl; lia).
    vm_compute. reflexivity.
  - assert (Hs : status sample_redirect < 200 \/ 300 <= status sample_redirect < 400)
      by (right; simpl; lia).
    destruct (proj2 (requestJson_error_message sample_requestUrl_error sample_redirect) Hs)
      as [m [Hm [_ [_ [Hd _]]]]].
    rewrite Hm, (Hd (u "  Moved ")) by (vm_compute; first [reflexivity | intros X; discriminate X]).
    vm_compute. reflexivity.
Defined.

End HttpFacts.

(** * Finalizing a streamed reply *)

Module RevealFinalize.
Import Reveal RevealClaims.

(** [queueFinalize]: with no typing timer the body is finalized at once
    ([completeFinalize] leaves [streamingFinalizeTarget] as it is). *)
Definition queueFinalize (st : typing) (body : nat) (text : jstr) : typing :=
  let st1 := {| renderTarget := renderTarget st; renderText := renderText st;
                progress := progress st; timer := timer st;
                finalizeTarget := Some (body, text); rendered := rendered st |} in
  if timer st1 then st1
  else let st2 := stopStreamingTyping st1 in
       {| renderTarget := renderTarget st2; renderText := renderText st2;
          progress := progress st2; timer := timer st2;
          finalizeTarget := finalizeTarget st2; rendered := Some text |}.

(** The interval timer: [tickStreamingTyping] runs every tick while the
    timer is set. *)
Fixpoint run_timer (n : nat) (st : typing) : typing :=
  match n with
  | O => st
  | S k => if timer st then run_timer k (tickStreamingTyping st) else st
  end.

Lemma tick_backlog_keeps (st : typing) (b : nat) :
  renderTarget st = Some b ->
  0 <= progress st < Z.of_nat (List.length (renderText st)) ->
  timer (tickStreamingTyping st) = timer st /\
  finalizeTarget (tickStreamingTyping st) = finalizeTarget st.
Proof.
  intros Hb Hp. unfold tickStreamingTyping. rewrite Hb.
  destruct (renderText st) as [|c t] eqn:E; [simpl in Hp; lia|].
  rewrite <- E in *.
  replace (Z.of_nat (List.length (renderText st)) - progress st <=? 0) with false
    by (symmetry; apply Z.leb_gt; lia).
  split; reflexivity.
Qed.

Lemma tick_done_finalizes (st : typing) (b body : nat) (text : jstr) :
  renderTarget st = Some b -> renderText st <> [] ->
  Z.of_nat (List.length (renderText st)) <= progress st ->
  finalizeTarget st = Some (body, text) ->
  rendered (tickStreamingTyping st) = Some text /\ timer (tickStreamingTyping st) = false.
Proof.
  intros Hb Hne Hp Hf. unfold tickStreamingTyping. rewrite Hb.
  destruct (renderText st) as [|c t] eqn:E; [congruence|].
  rewrite <- E in *.
  replace (Z.of_nat (List.length (renderText st)) - progress st <=? 0) with true
    by (symmetry; apply Z.leb_le; lia).
  rewrite Hf. split; reflexivity.
Qed.

Lemma run_timer_finalizes (st : typing) (b body : nat) (text : jstr) :
  timer st = true -> renderTarget st = Some b -> renderText st <> [] -> 0 <= progress st ->
  finalizeTarget st = Some (body, text) ->
  exists k : nat,
    2 * Z.of_nat k <= Z.max 0 (Z.of_nat (List.length (renderText st)) - progress st) + 3 /\
    rendered (run_timer k st) = Some text /\ timer (run_timer k st) = false.
Proof.
  remember (Z.to_nat (Z.of_nat (List.length (renderText st)) - progress st)) as n eqn:En.
  revert st En. induction n as [n IH] using lt_wf_ind.
  intros st En Ht Hb Hne Hp Hf.
  destruct (Z_le_gt_dec (Z.of_nat (List.length (renderText st))) (progress st)) as [Hdone|Hmore].
  - exists 1%nat. simpl. rewrite Ht.
    destruct (tick_done_finalizes st b body text Hb Hne Hdone Hf) as [Hr Htm].
    split; [lia|split; assumption].
  - assert (Hp' : 0 <= progress st < Z.of_nat (List.length (renderText st))) by lia.
    pose proof (tick_advances st b Hb Hp') as Hadv.
    pose proof (ceil_div_pos (Z.of_nat (List.length (renderText st)) - progress st)) as Hc.
    destruct (tick_fields st) as [Htg Htx].
    destruct (tick_backlog_keeps st b Hb Hp') as [Htm Hfk].
    unfold STREAM_TYPING_BASE_STEP in Hadv.
    set (st' := tickStreamingTyping st) in *.
    destruct (IH (Z.to_nat (Z.of_nat (List.length (renderText st')) - progress st')))
      with (st := st') as [k [Hk [Hr Htk]]].
    + rewrite Htx. lia.
    + reflexivity.
    + rewrite Htm. exact Ht.
    + rewrite Htg. exact Hb.
    + rewrite Htx. exact Hne.
    + lia.
    + rewrite Hfk. exact Hf.
    + exists (S k). simpl. rewrite Ht. fold st'. split; [|split; assumption].
      rewrite Htx in Hk. lia.
Qed.

(** Once a reply is queued for finalizing, its full text ends up rendered
    in the message body and the typing timer is stopped: at once when no
    timer runs, and otherwise after the typing animation has caught up, within
    [ceil(remaining / 2) + 1] ticks.  This needs the state [updateTypingText]
    leaves behind while a timer runs: a body to type into and a non-empty
    text. *)
Theorem queueFinalize_renders (st : typing) (body : nat) (text : jstr) :
  (timer st = true -> renderTarget st <> None /\ renderText st <> []) ->
  0 <= progress st ->
  exists k : nat,
    2 * Z.of_nat k <= Z.max 0 (Z.of_nat (List.length (renderText st)) - progress st) + 3 /\
    rendered (run_timer k (queueFinalize st body text)) = Some text /\
    timer (run_timer k (queueFinalize st body text)) = false.
Proof.
  intros Hinv Hp. unfold queueFinalize. cbn [timer].
  destruct (timer st) eqn:Ht.
  - destruct (Hinv eq_refl) as [Hb Hne].
    destruct (renderTarget st) as [b|] eqn:Eb; [|congruence].
    destruct (run_timer_finalizes
                {| renderTarget := Some b; renderText := renderText st; progress := progress st;
                   timer := true; finalizeTarget := Some (body, text); rendered := rendered st |}
                b body text) as [k Hk]; simpl; auto.
    exists k. exact Hk.
  - exists O. simpl. split; [lia|split; reflexivity].
Qed.

Definition typing_sample : typing :=
  {| renderTarget := Some 1%nat; renderText := u "Hello, world"; progress := 3; timer := true;
     finalizeTarget := None; rendered := Some (u "Hel") |}.

Lemma queueFinalize_renders_witness :
  exists k : nat,
    2 * Z.of_nat k <= Z.max 0 (Z.of_nat (List.length (renderText typing_sample)) - progress typing_sample) + 3 /\
    rendered (run_timer k (queueFinalize typing_sample 1 (u "Hello, world!"))) = Some (u "Hello, world!") /\
    timer (run_timer k (queueFinalize typing_sample 1 (u "Hello, world!"))) = false.
Proof.
  apply queueFinalize_renders.
  - intros _. split; discriminate.
  - vm_compute. discriminate.
Defined.

End RevealFinalize.

(** * The vault tree: the files of a folder and the chat logs *)

Module Vault.
Import Files.

(** A [TFolder] with its path and children, or a [TFile]. *)
Inductive vnode :=
| VFolder (fpath : jstr) (children : list vnode)
| VFile (f : tfile).

Definition CONTEXT_DIR : jstr := u "4senseContext".
Definition ARTIFACTS_DIR : jstr := u "artefacts".
Definition CHAT_LOG_PREFIX : jstr := u "chat-".

Definition getContextPath (folder_path : jstr) : jstr :=
  let prefix := match folder_path with [] => [] | _ => folder_path ++ u "/" end in
  prefix ++ CONTEXT_DIR.

Definition getArtifactsPath (folder_path : jstr) : jstr :=
  getContextPath folder_path ++ u "/" ++ ARTIFACTS_DIR.

(** [Array.prototype.sort] with the comparator [(a, b) => key(a) - key(b)]:
    the sort is stable, and a stable sort by a key has a single result,
    which insertion sort computes. *)
Fixpoint insert_by (key : tfile -> Z) (x : tfile) (l : list tfile) : list tfile :=
  match l with
  | [] => [x]
  | y :: l' => if key y <=? key x then y :: insert_by key x l' else x :: l
  end.

Definition sort_by (key : tfile -> Z) (l : list tfile) : list tfile :=
  fold_left (fun acc x => insert_by key x acc) l [].

(** [collectFilesInFolder]: one child of the walk over the folder's tree,
    then the walk over a list of children (in order). *)
Fixpoint visit (contextPath artifactsPath summaryPath : jstr) (child : vnode) : list tfile :=
  match child with
  | VFolder p sub =>
      if jstr_eqb p contextPath || starts_with (contextPath ++ u "-") p
         || jstr_eqb p artifactsPath || starts_with (artifactsPath ++ u "/") p
      then []
      else List.concat (map (visit contextPath artifactsPath summaryPath) sub)
  | VFile f =>
      if jstr_eqb (path f) summaryPath || starts_with (contextPath ++ u "/") (path f)
         || starts_with (contextPath ++ u "-") (path f)
         || starts_with (artifactsPath ++ u "/") (path f)
      then []
      else [f]
  end.

Definition traverse (contextPath artifactsPath summaryPath : jstr) (cs : list vnode) : list tfile :=
  List.concat (map (visit contextPath artifactsPath summaryPath) cs).

Definition collectFilesInFolder (folder_path : jstr) (children : list vnode) (summaryFileName : jstr)
  : list tfile :=
  let contextPath := getContextPath folder_path in
  let artifactsPath := getArtifactsPath folder_path in
  let summaryPath := contextPath ++ u "/" ++ summaryFileName in
  sort_by ctime (traverse contextPath artifactsPath summaryPath children).

(** [getChatLogCandidates]: the chat logs under the context folder and its
    archived copies ([contextPath-...]) among the folder's children. *)
Fixpoint collect_logs (includeByExtension : tfile -> bool) (child : vnode) : list tfile :=
  match child with
  | VFolder _ sub => List.concat (map (collect_logs includeByExtension) sub)
  | VFile f => if starts_with CHAT_LOG_PREFIX (name f) && includeByExtension f then [f] else []
  end.

Definition getChatLogCandidates (folder_path : jstr) (children : list vnode) (includeJson : bool)
  : list tfile :=
  let contextPath := getContextPath folder_path in
  let includeByExtension (f : tfile) :=
    if includeJson then jstr_eqb (extension f) (u "md") || jstr_eqb (extension f) (u "json")
    else jstr_eqb (extension f) (u "md") in
  let is_root (c : vnode) :=
    match c with
    | VFolder p _ => jstr_eqb p contextPath || starts_with (contextPath ++ u "-") p
    | VFile _ => false
    end in
  List.concat (map (collect_logs includeByExtension) (filter is_root children)).

(** Newest first: the comparator [(a, b) => b.stat.mtime - a.stat.mtime]. *)
Definition by_mtime_desc (l : list tfile) : list tfile := sort_by (fun f => - mtime f) l.

Definition getLatestChatLogPath (folder_path : jstr) (children : list vnode) : option jstr :=
  match getChatLogCandidates folder_path children false with
  | [] => None
  | candidates =>
      match by_mtime_desc candidates with
      | f :: _ => Some (path f)
      | [] => None
      end
  end.

Section History.

(** [loadChatEntries] of the vault, by path. *)
Variable loadChatEntries : jstr -> list ChatLog.entry.

Fixpoint scan_history (currentPath : jstr) (files : list tfile) : option (jstr * list ChatLog.entry) :=
  match files with
  | [] => None
  | f :: rest =>
      if jstr_eqb (path f) currentPath then scan_history currentPath rest
      else match loadChatEntries (path f) with
           | [] => scan_history currentPath rest
           | entries => Some (path f, entries)
           end
  end.

Definition findChatHistory (folder_path : jstr) (children : list vnode) (currentPath : jstr)
    (includeJson : bool) : option (jstr * list ChatLog.entry) :=
  match getChatLogCandidates folder_path children includeJson with
  | [] => None
  | candidates => scan_history currentPath (by_mtime_desc candidates)
  end.

End History.

End Vault.

Module VaultFacts.
Import Files Vault.

Section Sort.

Variable key : tfile -> Z.

Definition key_le (a b : tfile) : Prop := key a <= key b.

Lemma insert_by_perm (x : tfile) (l : list tfile) : Permutation (insert_by key x l) (x :: l).
Proof.
  induction l as [|y l IH]; [reflexivity|]. simpl.
  destruct (key y <=? key x); [|reflexivity].
  rewrite IH. apply perm_swap.
Qed.

Lemma insert_by_hd (x y : tfile) (l : list tfile) :
  HdRel key_le y l -> key y <= key x -> HdRel key_le y (insert_by key x l).
Proof.
  intros Hh Hxy. destruct l as [|z l]; simpl.
  - constructor. exact Hxy.
  - destruct (key z <=? key x); constructor; [inversion Hh; assumption|exact Hxy].
Qed.

Lemma insert_by_sorted (x : tfile) (l : list tfile) :
  Sorted key_le l -> Sorted key_le (insert_by key x l).
Proof.
  induction l as [|y l IH]; intros Hs; simpl.
  - repeat constructor.
  - apply Sorted_inv in Hs as [Hs Hh].
    destruct (key y <=? key x) eqn:E.
    + constructor; [exact (IH Hs)|]. apply insert_by_hd; [exact Hh|]. apply Z.leb_le. exact E.
    + constructor; [constructor; assumption|]. constructor. unfold key_le. apply Z.leb_gt in E. lia.
Qed.

Lemma sort_by_spec (l : list tfile) :
  Permutation (sort_by key l) l /\ Sorted key_le (sort_by key l).
Proof.
  unfold sort_by.
  assert (H : forall acc, Sorted key_le acc ->
            Permutation (fold_left (fun acc x => insert_by key x acc) l acc) (acc ++ l) /\
            Sorted key_le (fold_left (fun acc x => insert_by key x acc) l acc)).
  { induction l as [|x l IH]; intros acc Hs; simpl.
    - rewrite app_nil_r. split; [reflexivity|exact Hs].
    - destruct (IH (insert_by key x acc) (insert_by_sorted x acc Hs)) as [Hp Hs'].
      split; [|exact Hs'].
      rewrite Hp, insert_by_perm. simpl. apply Permutation_middle. }
  destruct (H [] (Sorted_nil _)) as [Hp Hs]. split; [exact Hp|exact Hs].
Qed.

Lemma sort_by_strongly (l : list tfile) : StronglySorted key_le (sort_by key l).
Proof.
  apply Sorted_StronglySorted; [unfold Relations_1.Transitive, key_le; intros; lia|].
  apply (proj2 (sort_by_spec l)).
Qed.

Lemma strongly_sorted_app (l1 l2 : list tfile) :
  StronglySorted key_le (l1 ++ l2) -> StronglySorted key_le l2.
Proof.
  induction l1 as [|x l1 IH]; [auto|]. intros H. apply StronglySorted_inv in H as [H _]. auto.
Qed.

(** In a sorted list, an element with a smaller key comes earlier. *)
Lemma sorted_before (l1 l2 : list tfile) (f g : tfile) :
  StronglySorted key_le (l1 ++ f :: l2) -> In g (l1 ++ f :: l2) -> key g < key f -> In g l1.
Proof.
  intros Hs Hg Hk. apply in_app_or in Hg as [Hg|[<-|Hg]]; [exact Hg|lia|].
  apply strongly_sorted_app in Hs. apply StronglySorted_inv in Hs as [_ Hall].
  rewrite Forall_forall in Hall. apply Hall in Hg. unfold key_le in Hg. lia.
Qed.

End Sort.

(** Induction over the vault tree, through the lists of children. *)
Fixpoint vnode_ind' (P : vnode -> Prop) (Hfile : forall f, P (VFile f))
    (Hfolder : forall p sub, Forall P sub -> P (VFolder p sub)) (n : vnode) : P n :=
  match n with
  | VFile f => Hfile f
  | VFolder p sub =>
      Hfolder p sub
        ((fix go (l : list vnode) : Forall P l :=
            match l with
            | [] => Forall_nil P
            | x :: r => Forall_cons x (vnode_ind' P Hfile Hfolder x) (go r)
            end) sub)
  end.

Lemma in_concat_map {A B} (h : A -> list B) (l : list A) (y : B) :
  In y (List.concat (map h l)) -> exists x, In x l /\ In y (h x).
Proof.
  intros H. apply in_concat in H as [ys [Hys Hy]]. apply in_map_iff in Hys as [x [<- Hx]].
  exists x. auto.
Qed.

Lemma collect_logs_ok (inc : tfile -> bool) (n : vnode) (f : tfile) :
  In f (collect_logs inc n) -> starts_with CHAT_LOG_PREFIX (name f) = true /\ inc f = true.
Proof.
  revert f. induction n as [g|p sub IH] using vnode_ind'; intros f H; simpl in H.
  - destruct (starts_with CHAT_LOG_PREFIX (name g) && inc g) eqn:E; [|destruct H].
    destruct H as [<-|[]]. apply andb_prop in E. exact E.
  - apply in_concat_map in H as [m [Hm Hf]]. rewrite Forall_forall in IH. exact (IH m Hm f Hf).
Qed.

Lemma candidates_ok (folder_path : jstr) (children : list vnode) (includeJson : bool) (f : tfile) :
  In f (getChatLogCandidates folder_path children includeJson) ->
  starts_with CHAT_LOG_PREFIX (name f) = true /\
  (jstr_eqb (extension f) (u "md") || (includeJson && jstr_eqb (extension f) (u "json"))) = true.
Proof.
  unfold getChatLogCandidates. intros H. apply in_concat_map in H as [m [_ Hf]].
  apply collect_logs_ok in Hf as [Hn Hi]. split; [exact Hn|].
  destruct includeJson; [exact Hi|rewrite orb_false_r; exact Hi].
Qed.

Lemma by_mtime_desc_spec (l : list tfile) :
  Permutation (by_mtime_desc l) l /\ StronglySorted (key_le (fun f => - mtime f)) (by_mtime_desc l).
Proof.
  unfold by_mtime_desc. split; [apply sort_by_spec|apply sort_by_strongly].
Qed.

(** [getLatestChatLogPath] finds a log exactly when there is a candidate
    ("chat-*.md" under the context folder or its archives), and the log it
    returns is one of the candidates with the latest modification time. *)
Theorem getLatestChatLogPath_newest (folder_path : jstr) (children : list vnode) :
  let candidates := getChatLogCandidates folder_path children false in
  match getLatestChatLogPath folder_path children with
  | None => candidates = []
  | Some p =>
      exists f, In f candidates /\ path f = p /\
                starts_with CHAT_LOG_PREFIX (name f) = true /\ extension f = u "md" /\
                forall g, In g candidates -> mtime g <= mtime f
  end.
Proof.
  cbv zeta. unfold getLatestChatLogPath.
  destruct (getChatLogCandidates folder_path children false) as [|c cs] eqn:E; [reflexivity|].
  destruct (by_mtime_desc_spec (c :: cs)) as [Hp Hs].
  destruct (by_mtime_desc (c :: cs)) as [|f rest] eqn:Es.
  - apply Permutation_nil in Hp. discriminate.
  - assert (Hf : In f (c :: cs)) by (apply (Permutation_in _ Hp); left; reflexivity).
    exists f. split; [exact Hf|split; [reflexivity|]].
    rewrite <- E in Hf. destruct (candidates_ok _ _ _ _ Hf) as [Hn He].
    split; [exact Hn|split; [apply SnapshotClaims.jstr_eqb_eq; rewrite orb_false_r in He; exact He|]].
    intros g Hg. apply (Permutation_in _ (Permutation_sym Hp)) in Hg.
    destruct Hg as [<-|Hg]; [lia|].
    apply StronglySorted_inv in Hs as [_ Hall]. rewrite Forall_forall in Hall.
    apply Hall in Hg. unfold key_le in Hg. lia.
Qed.

Section History.

Variable loadChatEntries : jstr -> list ChatLog.entry.

Lemma scan_history_some (cur : jstr) (l : list tfile) (p : jstr) (es : list ChatLog.entry) :
  scan_history loadChatEntries cur l = Some (p, es) ->
  exists l1 f l2, l = l1 ++ f :: l2 /\ path f = p /\ p <> cur /\ loadChatEntries p = es /\ es <> [] /\
                  forall g, In g l1 -> path g = cur \/ loadChatEntries (path g) = [].
Proof.
  induction l as [|f l IH]; [discriminate|]. simpl. intros H.
  destruct (jstr_eqb (path f) cur) eqn:Ec.
  - destruct (IH H) as [l1 [f' [l2 [-> [Hp [Hne [Hl [Hes Hall]]]]]]]].
    exists (f :: l1), f', l2. repeat (split; [auto|]).
    intros g [<-|Hg]; [left; apply SnapshotClaims.jstr_eqb_eq; exact Ec|auto].
  - destruct (loadChatEntries (path f)) as [|e es'] eqn:El.
    + destruct (IH H) as [l1 [f' [l2 [-> [Hp [Hne [Hl [Hes Hall]]]]]]]].
      exists (f :: l1), f', l2. repeat (split; [auto|]).
      intros g [<-|Hg]; [right; exact El|auto].
    + injection H as <- <-. exists [], f, l. split; [reflexivity|].
      split; [reflexivity|]. split; [|split; [exact El|split; [discriminate|intros g []]]].
      intros Hc. rewrite Hc, SnapshotClaims.jstr_eqb_refl in Ec. discriminate.
Qed.

Lemma scan_history_none (cur : jstr) (l : list tfile) :
  scan_history loadChatEntries cur l = None ->
  forall g, In g l -> path g = cur \/ loadChatEntries (path g) = [].
Proof.
  induction l as [|f l IH]; [intros _ g []|]. simpl. intros H g Hg.
  destruct (jstr_eqb (path f) cur) eqn:Ec.
  - destruct Hg as [<-|Hg]; [left; apply SnapshotClaims.jstr_eqb_eq; exact Ec|exact (IH H g Hg)].
  - destruct (loadChatEntries (path f)) as [|e es'] eqn:El; [|discriminate].
    destruct Hg as [<-|Hg]; [right; exact El|exact (IH H g Hg)].
Qed.

(** [findChatHistory] returns the newest chat log, other than the current
    one, that has entries: the log it returns is a candidate, is not the
    current log and has entries, and every candidate modified later is the
    current log or has no entries.  When it returns nothing, every candidate
    is the current log or has no entries. *)
Theorem findChatHistory_newest_nonempty (folder_path : jstr) (children : list vnode)
    (currentPath : jstr) (includeJson : bool) :
  let candidates := getChatLogCandidates folder_path children includeJson in
  match findChatHistory loadChatEntries folder_path children currentPath includeJson with
  | Some (p, entries) =>
      exists f, In f candidates /\ path f = p /\ p <> currentPath /\
                entries = loadChatEntries p /\ entries <> [] /\
                forall g, In g candidates -> mtime f < mtime g ->
                          path g = currentPath \/ loadChatEntries (path g) = []
  | None => forall g, In g candidates -> path g = currentPath \/ loadChatEntries (path g) = []
  end.
Proof.
  cbv zeta. unfold findChatHistory.
  destruct (getChatLogCandidates folder_path children includeJson) as [|c cs] eqn:E;
    [intros g []|].
  destruct (by_mtime_desc_spec (c :: cs)) as [Hp Hs].
  destruct (scan_history loadChatEntries currentPath (by_mtime_desc (c :: cs)))
    as [[p entries]|] eqn:Hscan.
  - destruct (scan_history_some _ _ _ _ Hscan) as [l1 [f [l2 [Hl [Hpf [Hne [Hload [Hnn Hbefore]]]]]]]].
    assert (Hf : In f (c :: cs))
      by (apply (Permutation_in _ Hp); rewrite Hl; apply in_or_app; right; left; reflexivity).
    exists f. repeat (split; [auto|]).
    intros g Hg Hlt. apply Hbefore.
    apply (Permutation_in _ (Permutation_sym Hp)) in Hg. rewrite Hl in Hg, Hs.
    apply (sorted_before (fun f => - mtime f) l1 l2 f g Hs Hg). lia.
  - intros g Hg. apply (scan_history_none _ _ Hscan).
    exact (Permutation_in _ (Permutation_sym Hp) Hg).
Qed.

End History.

Lemma visit_ok (c a s : jstr) (n : vnode) (f : tfile) :
  In f (visit c a s n) ->
  (jstr_eqb (path f) s || starts_with (c ++ u "/") (path f) || starts_with (c ++ u "-") (path f)
   || starts_with (a ++ u "/") (path f)) = false.
Proof.
  revert f. induction n as [g|p sub IH] using vnode_ind'; intros f H; simpl in H.
  - destruct (jstr_eqb (path g) s || _ || _ || _) eqn:E; [destruct H|].
    destruct H as [<-|[]]. exact E.
  - destruct (jstr_eqb p c || _ || _ || _); [destruct H|].
    apply in_concat_map in H as [m [Hm Hf]]. rewrite Forall_forall in IH. exact (IH m Hm f Hf).
Qed.

(** [collectFilesInFolder] returns its files oldest first (by creation
    time), and never the summary file or a file under the context folder
    (which holds the artifacts folder) or one of its archived copies. *)
Theorem collectFilesInFolder_spec (folder_path : jstr) (children : list vnode) (summaryFileName : jstr) :
  let files := collectFilesInFolder folder_path children summaryFileName in
  let contextPath := getContextPath folder_path in
  Sorted (fun a b => ctime a <= ctime b) files /\
  forall f, In f files ->
    path f <> contextPath ++ u "/" ++ summaryFileName /\
    starts_with (contextPath ++ u "/") (path f) = false /\
    starts_with (contextPath ++ u "-") (path f) = false.
Proof.
  cbv zeta. unfold collectFilesInFolder.
  destruct (sort_by_spec ctime (traverse (getContextPath folder_path) (getArtifactsPath folder_path)
              (getContextPath folder_path ++ u "/" ++ summaryFileName) children)) as [Hp Hs].
  split; [exact Hs|].
  intros f Hf. apply (Permutation_in _ Hp) in Hf.
  unfold traverse in Hf. apply in_concat_map in Hf as [m [_ Hf]].
  apply visit_ok in Hf. apply orb_false_iff in Hf as [Hf _].
  apply orb_false_iff in Hf as [Hf H3]. apply orb_false_iff in Hf as [H1 H2].
  split; [|split; assumption].
  intros He. rewrite He, SnapshotClaims.jstr_eqb_refl in H1. discriminate.
Qed.

End VaultFacts.

(** * Saving an assistant response *)

Module Responses.

(** The paths tried by [saveAssistantResponse]: [ai-response-<ts>.md],
    then [ai-response-<ts>-<index>.md] for index 1, 2, ... *)
Definition base_path (prefix timestamp : jstr) : jstr :=
  prefix ++ u "ai-response-" ++ timestamp ++ u ".md".

Definition indexed_path (prefix timestamp : jstr) (index : Z) : jstr :=
  prefix ++ u "ai-response-" ++ timestamp ++ u "-" ++ z_to_jstr index ++ u ".md".

(** The [while] loop of [saveAssistantResponse] over the paths of the vault
    ([existing]: every file and folder path, as [getAbstractFileByPath]
    finds them); [fuel] bounds the number of tests and [None] means it ran
    out. *)
Fixpoint probe (existing : list jstr) (prefix timestamp : jstr) (fuel : nat) (filePath : jstr)
    (index : Z) : option jstr :=
  match fuel with
  | O => None
  | S k =>
      if existsb (jstr_eqb filePath) existing
      then probe existing prefix timestamp k (indexed_path prefix timestamp index) (index + 1)
      else Some filePath
  end.

(** The path [saveAssistantResponse] creates the file at, for the folder's
    [prefix] ([contextPath + "/"]) and the formatted timestamp. *)
Definition saveAssistantResponse_path (existing : list jstr) (prefix timestamp : jstr) (fuel : nat)
  : option jstr :=
  probe existing prefix timestamp fuel (base_path prefix timestamp) 1.

End Responses.

Module ResponsesFacts.
Import Responses.

Lemma map_injective {A B} (f : A -> B) (l1 l2 : list A) :
  (forall x y, f x = f y -> x = y) -> map f l1 = map f l2 -> l1 = l2.
Proof.
  intros Hf. revert l2. induction l1 as [|x l1 IH]; intros [|y l2] H; try discriminate; [reflexivity|].
  simpl in H. injection H as Hxy Hl. f_equal; auto.
Qed.

Lemma u_inj (s1 s2 : string) : u s1 = u s2 -> s1 = s2.
Proof.
  unfold u. intros H. apply map_injective in H.
  - rewrite <- (string_of_list_ascii_of_string s1), <- (string_of_list_ascii_of_string s2), H.
    reflexivity.
  - intros a b Hab. apply Nat2Z.inj in Hab.
    rewrite <- (ascii_nat_embedding a), <- (ascii_nat_embedding b), Hab. reflexivity.
Qed.

Lemma z_to_jstr_inj (a b : Z) : z_to_jstr a = z_to_jstr b -> a = b.
Proof.
  unfold z_to_jstr. intros H. apply u_inj in H.
  apply (f_equal NilEmpty.int_of_string) in H. rewrite !NilEmpty.isi in H.
  injection H as H. apply DecimalZ.to_int_inj. exact H.
Qed.

Lemma indexed_path_inj (prefix ts : jstr) (i j : Z) :
  indexed_path prefix ts i = indexed_path prefix ts j -> i = j.
Proof.
  unfold indexed_path. intros H.
  apply app_inv_head in H. apply app_inv_head in H. apply app_inv_head in H.
  apply app_inv_head in H. apply app_inv_tail in H. exact (z_to_jstr_inj i j H).
Qed.

Lemma base_not_indexed (prefix ts : jstr) (i : Z) : base_path prefix ts <> indexed_path prefix ts i.
Proof.
  unfold base_path, indexed_path. intros H.
  apply app_inv_head in H. apply app_inv_head in H. apply app_inv_head in H.
  apply (f_equal (@List.length Z)) in H. rewrite !length_app in H. simpl in H. lia.
Qed.

Section Probe.

Variables (existing : list jstr) (prefix timestamp : jstr).

Fixpoint indexed_list (k : nat) (index : Z) : list jstr :=
  match k with
  | O => []
  | S k' => indexed_path prefix timestamp index :: indexed_list k' (index + 1)
  end.

Lemma indexed_list_in (k : nat) (index : Z) (q : jstr) :
  In q (indexed_list k index) ->
  exists j, index <= j < index + Z.of_nat k /\ q = indexed_path prefix timestamp j.
Proof.
  revert index. induction k as [|k IH]; intros index H; [destruct H|].
  destruct H as [<-|H].
  - exists index. split; [lia|reflexivity].
  - destruct (IH _ H) as [j [Hj ->]]. exists j. split; [lia|reflexivity].
Qed.

Lemma indexed_list_nodup (k : nat) (index : Z) : NoDup (indexed_list k index).
Proof.
  revert index. induction k as [|k IH]; intros index; constructor; [|apply IH].
  intros H. apply indexed_list_in in H as [j [Hj Heq]].
  apply indexed_path_inj in Heq. lia.
Qed.

Lemma probe_none (k : nat) (filePath : jstr) (index : Z) :
  probe existing prefix timestamp (S k) filePath index = None ->
  In filePath existing /\ incl (indexed_list k index) existing.
Proof.
  revert filePath index. induction k as [|k IH]; intros filePath index H; simpl in H.
  - destruct (existsb (jstr_eqb filePath) existing) eqn:E; [|discriminate].
    apply FilesFacts.set_has_In in E. split; [exact E|intros q []].
  - destruct (existsb (jstr_eqb filePath) existing) eqn:E; [|discriminate].
    apply FilesFacts.set_has_In in E. split; [exact E|].
    destruct (IH _ _ H) as [Hin Hincl]. intros q [<-|Hq]; [exact Hin|exact (Hincl q Hq)].
Qed.

Lemma probe_some (k : nat) (filePath : jstr) (index : Z) (p : jstr) :
  probe existing prefix timestamp k filePath index = Some p ->
  ~ In p existing /\
  (p = filePath \/ exists j, index <= j < index + Z.of_nat k - 1 /\ p = indexed_path prefix timestamp j).
Proof.
  revert filePath index. induction k as [|k IH]; intros filePath index H; [discriminate|].
  simpl in H. destruct (existsb (jstr_eqb filePath) existing) eqn:E.
  - destruct k as [|k]; [discriminate H|].
    destruct (IH _ _ H) as [Hn [->|[j [Hj ->]]]]; split; [exact Hn| |exact Hn|].
    + right. exists index. split; [lia|reflexivity].
    + right. exists j. split; [lia|reflexivity].
  - injection H as <-. split; [|left; reflexivity].
    intros Hin. apply (FilesFacts.set_has_In existing filePath) in Hin. unfold Files.set_has in Hin.
    congruence.
Qed.

End Probe.

(** [saveAssistantResponse] never overwrites: its loop stops after at most
    one test per existing path plus one, and picks a path that does not
    exist, either [ai-response-<ts>.md] or [ai-response-<ts>-<i>.md] with
    [i] at most the number of existing paths. *)
Theorem saveAssistantResponse_fresh (existing : list jstr) (prefix timestamp : jstr) :
  exists p,
    saveAssistantResponse_path existing prefix timestamp (S (List.length existing)) = Some p /\
    ~ In p existing /\
    (p = base_path prefix timestamp \/
     exists i, 1 <= i <= Z.of_nat (List.length existing) /\ p = indexed_path prefix timestamp i).
Proof.
  unfold saveAssistantResponse_path.
  destruct (probe existing prefix timestamp (S (List.length existing)) (base_path prefix timestamp) 1)
    as [p|] eqn:E.
  - exists p. split; [reflexivity|].
    destruct (probe_some _ _ _ _ _ _ _ E) as [Hn [Hb|[j [Hj Hp]]]]; split; [exact Hn|left; exact Hb|exact Hn|].
    right. exists j. split; [lia|exact Hp].
  - exfalso. apply probe_none in E as [Hb Hincl].
    assert (Hnd : NoDup (base_path prefix timestamp :: indexed_list prefix timestamp (List.length existing) 1)).
    { constructor; [|apply indexed_list_nodup].
      intros H. apply indexed_list_in in H as [j [_ Hj]]. exact (base_not_indexed _ _ _ Hj). }
    assert (Hinc : incl (base_path prefix timestamp :: indexed_list prefix timestamp (List.length existing) 1)
                        existing) by (intros q [<-|Hq]; [exact Hb|exact (Hincl q Hq)]).
    pose proof (NoDup_incl_length Hnd Hinc) as Hlen.
    assert (Hl : forall k index, List.length (indexed_list prefix timestamp k index) = k)
      by (induction k; intros; simpl; auto).
    simpl in Hlen. rewrite Hl in Hlen. lia.
Qed.

End ResponsesFacts.

(** ** Chat state: [writeChatState] and [readChatState] *)

Module ChatState.
Import Vault.

Definition CHAT_STATE_FILE : jstr := u "chat-state.json".

Definition getChatStatePath (folder_path : jstr) : jstr :=
  getContextPath folder_path ++ u "/" ++ CHAT_STATE_FILE.

(** [JSON.stringify] of a string (QuoteJSONString): the code units of a
    surrogate pair are copied, the seven characters with a short escape get
    it, and the other controls and lone surrogates become [\uXXXX] with
    lowercase hexadecimal digits. *)
Definition hex_digit (d : Z) : Z := if d <? 10 then 48 + d else 87 + d.

Definition unicode_escape (c : Z) : jstr :=
  92 :: 117 :: map (fun k => hex_digit (c / k mod 16)) [4096; 256; 16; 1].

Definition is_high (c : Z) : bool := (55296 <=? c) && (c <=? 56319).
Definition is_low (c : Z) : bool := (56320 <=? c) && (c <=? 57343).

Definition escape_unit (c : Z) : jstr :=
  if c =? 8 then [92; 98]
  else if c =? 9 then [92; 116]
  else if c =? 10 then [92; 110]
  else if c =? 12 then [92; 102]
  else if c =? 13 then [92; 114]
  else if c =? 34 then [92; 34]
  else if c =? 92 then [92; 92]
  else if (c <? 32) || is_high c || is_low c then unicode_escape c
  else [c].

Fixpoint quote_body (s : jstr) : jstr :=
  match s with
  | [] => []
  | c :: r =>
      if is_high c then
        match r with
        | d :: r' => if is_low d then c :: d :: quote_body r' else unicode_escape c ++ quote_body r
        | [] => unicode_escape c
        end
      else escape_unit c ++ quote_body r
  end.

Definition QuoteJSONString (s : jstr) : jstr := 34 :: quote_body s ++ [34].

(** [JSON.stringify({ activeLogPath }, null, 2)]: the text
    [writeChatState] stores at [getChatStatePath(folder)]. *)
Definition writeChatState_payload (activeLogPath : jstr) : jstr :=
  u "{" ++ [10] ++ u "  " ++ QuoteJSONString (u "activeLogPath") ++ u ": "
    ++ QuoteJSONString activeLogPath ++ [10] ++ u "}".

(** [readChatState(folder)]: [file] gives the content of the [TFile] at a
    path ([None]: no such file); [null] when there is none or when
    [JSON.parse] throws. *)
Definition readChatState (file : jstr -> option jstr) (folder_path : jstr) : jsval :=
  match file (getChatStatePath folder_path) with
  | None => JNull
  | Some content => match Json.parse content with Some v => v | None => JNull end
  end.

(** [replaceTextFile(path, content)] on the contents of the files of the
    vault, when it succeeds: the file at [path] holds [content] afterwards
    (rewritten by [vault.process] or created by [vault.create]). *)
Definition replaceTextFile (file : jstr -> option jstr) (path content : jstr) : jstr -> option jstr :=
  fun q => if jstr_eqb q path then Some content else file q.

Definition writeChatState (file : jstr -> option jstr) (folder_path activeLogPath : jstr)
  : jstr -> option jstr :=
  replaceTextFile file (getChatStatePath folder_path) (writeChatState_payload activeLogPath).

(** [state?.activeLogPath] in [getOrCreateChatLog]. *)
Definition active_log_path (state : jsval) : jsval :=
  match state with
  | JUndef | JNull => JUndef
  | _ => obj_prop state (u "activeLogPath")
  end.

End ChatState.

Module ChatStateFacts.
Import Json ChatState.

Lemma string_body_plain (c : Z) (r acc : jstr) :
  32 <= c -> c <> 34 -> c <> 92 -> string_body (c :: r) acc = string_body r (c :: acc).
Proof.
  intros H1 H2 H3.
  destruct c as [|p|p]; [lia| |lia].
  repeat (destruct p as [p|p|]; try (cbn; reflexivity); try congruence; try lia).
Qed.

Lemma hex_val_digit (d : Z) : 0 <= d < 16 -> hex_val (hex_digit d) = Some d.
Proof.
  intros H.
  assert (d = 0 \/ d = 1 \/ d = 2 \/ d = 3 \/ d = 4 \/ d = 5 \/ d = 6 \/ d = 7 \/ d = 8
          \/ d = 9 \/ d = 10 \/ d = 11 \/ d = 12 \/ d = 13 \/ d = 14 \/ d = 15) as Hd by lia.
  repeat destruct Hd as [Hd|Hd]; subst d; reflexivity.
Qed.

Lemma string_body_unicode (a b c d : Z) (r acc : jstr) :
  string_body (92 :: 117 :: a :: b :: c :: d :: r) acc =
  match hex_val a, hex_val b, hex_val c, hex_val d with
  | Some a', Some b', Some c', Some d' =>
      string_body r ((((a' * 16 + b') * 16 + c') * 16 + d') :: acc)
  | _, _, _, _ => None
  end.
Proof. reflexivity. Qed.

Lemma unicode_escape_ok (c : Z) (r acc : jstr) :
  0 <= c < 65536 -> string_body (unicode_escape c ++ r) acc = string_body r (c :: acc).
Proof.
  intros H. unfold unicode_escape. cbn [map app].
  rewrite string_body_unicode.
  rewrite Z.div_1_r.
  rewrite (hex_val_digit ((c / 4096) mod 16)) by (apply Z.mod_pos_bound; lia).
  rewrite (hex_val_digit ((c / 256) mod 16)) by (apply Z.mod_pos_bound; lia).
  rewrite (hex_val_digit ((c / 16) mod 16)) by (apply Z.mod_pos_bound; lia).
  rewrite (hex_val_digit (c mod 16)) by (apply Z.mod_pos_bound; lia).
  f_equal. f_equal.
  replace (c / 256) with (c / 16 / 16) by (rewrite Z.div_div by lia; reflexivity).
  replace (c / 4096) with (c / 16 / 16 / 16) by (rewrite !Z.div_div by lia; reflexivity).
  pose proof (Z.div_mod c 16 ltac:(lia)).
  pose proof (Z.div_mod (c / 16) 16 ltac:(lia)).
  pose proof (Z.div_mod (c / 16 / 16) 16 ltac:(lia)).
  rewrite (Z.mod_small (c / 16 / 16 / 16) 16) by
    (rewrite !Z.div_div by lia; split; [apply Z.div_pos|apply Z.div_lt_upper_bound]; lia).
  lia.
Qed.

Lemma escape_unit_ok (c : Z) (r acc : jstr) :
  0 <= c < 65536 -> string_body (escape_unit c ++ r) acc = string_body r (c :: acc).
Proof.
  intros H. unfold escape_unit.
  destruct (Z.eqb_spec c 8); [subst; reflexivity|].
  destruct (Z.eqb_spec c 9); [subst; reflexivity|].
  destruct (Z.eqb_spec c 10); [subst; reflexivity|].
  destruct (Z.eqb_spec c 12); [subst; reflexivity|].
  destruct (Z.eqb_spec c 13); [subst; reflexivity|].
  destruct (Z.eqb_spec c 34); [subst; reflexivity|].
  destruct (Z.eqb_spec c 92); [subst; reflexivity|].
  destruct ((c <? 32) || is_high c || is_low c) eqn:E.
  - apply unicode_escape_ok; exact H.
  - apply orb_false_iff in E as [E _]. apply orb_false_iff in E as [E _].
    apply Z.ltb_ge in E. apply string_body_plain; assumption.
Qed.

Lemma quote_body_ok (p r acc : jstr) :
  Forall (fun c => 0 <= c < 65536) p ->
  string_body (quote_body p ++ 34 :: r) acc = Some (rev acc ++ p, r).
Proof.
  remember (List.length p) as n eqn:En.
  revert p r acc En. induction n as [n IH] using lt_wf_ind.
  intros p r acc En Hp.
  destruct p as [|c p'].
  - rewrite app_nil_r. reflexivity.
  - inversion Hp as [|? ? Hc Hp']; subst.
    cbn [quote_body].
    destruct (is_high c) eqn:Eh.
    + unfold is_high in Eh. apply andb_true_iff in Eh as [Eh1 Eh2].
      apply Z.leb_le in Eh1. apply Z.leb_le in Eh2.
      destruct p' as [|d p''].
      * cbn [app]. rewrite unicode_escape_ok by exact Hc. reflexivity.
      * inversion Hp' as [|? ? Hd Hp'']; subst.
        destruct (is_low d) eqn:El.
        -- unfold is_low in El. apply andb_true_iff in El as [El1 El2].
           apply Z.leb_le in El1. apply Z.leb_le in El2.
           cbn [app]. rewrite string_body_plain by lia.
           rewrite string_body_plain by lia.
           rewrite (IH (List.length p'')) by (cbn; lia || assumption || reflexivity).
           cbn [rev]. rewrite <- !app_assoc. reflexivity.
        -- rewrite <- app_assoc. rewrite unicode_escape_ok by exact Hc.
           rewrite (IH (List.length (d :: p''))) by (cbn; lia || assumption || reflexivity).
           cbn [rev]. rewrite <- !app_assoc. reflexivity.
    + rewrite <- app_assoc. rewrite escape_unit_ok by exact Hc.
      rewrite (IH (List.length p')) by (cbn; lia || assumption || reflexivity).
      cbn [rev]. rewrite <- !app_assoc. reflexivity.
Qed.

Definition payload_prefix : jstr := Eval vm_compute in uq "{
  'activeLogPath': '".

Lemma payload_shape (p : jstr) :
  writeChatState_payload p = payload_prefix ++ quote_body p ++ [34; 10; 125].
Proof.
  unfold writeChatState_payload, QuoteJSONString. simpl. rewrite <- app_assoc. reflexivity.
Qed.

Lemma payload_value (p : jstr) (f : nat) :
  Forall (fun c => 0 <= c < 65536) p ->
  value (S (S (S f))) (writeChatState_payload p) = Some (JObj [(u "activeLogPath", JStr p)], []).
Proof.
  intros Hp. rewrite payload_shape. unfold payload_prefix.
  simpl.
  rewrite quote_body_ok by exact Hp.
  reflexivity.
Qed.

(** After [writeChatState(folder, p)], [readChatState(folder)] parses
    the file back to [{ activeLogPath: p }], so [getOrCreateChatLog] reads
    [state?.activeLogPath] as [p], whatever code units [p] holds
    (quotes, backslashes, controls, lone surrogates). *)
Theorem writeChatState_round_trip (file : jstr -> option jstr) (folder_path p : jstr)
    (Hp : Forall (fun c => 0 <= c < 65536) p) :
  readChatState (writeChatState file folder_path p) folder_path = JObj [(u "activeLogPath", JStr p)]
  /\ active_log_path (readChatState (writeChatState file folder_path p) folder_path) = JStr p.
Proof.
  unfold readChatState, writeChatState, replaceTextFile.
  rewrite SnapshotClaims.jstr_eqb_refl.
  unfold parse.
  destruct (2 * List.length (writeChatState_payload p) + 2)%nat as [|[|[|f]]] eqn:E;
    [rewrite payload_shape in E; simpl in E; discriminate E ..|].
  rewrite payload_value by exact Hp.
  split; reflexivity.
Qed.

Definition sample_state_path : jstr := [34; 92; 10; 55296; 97; 55357; 56832; 233].

Lemma writeChatState_round_trip_witness :
  Forall (fun c => 0 <= c < 65536) sample_state_path /\
  readChatState (writeChatState (fun _ => None) [] sample_state_path) [] =
    JObj [(u "activeLogPath", JStr sample_state_path)] /\
  active_log_path (readChatState (writeChatState (fun _ => None) [] sample_state_path) []) =
    JStr sample_state_path.
Proof.
  assert (H : Forall (fun c => 0 <= c < 65536) sample_state_path)
    by (repeat constructor; lia).
  split; [exact H|].
  exact (writeChatState_round_trip (fun _ => None) [] sample_state_path H).
Defined.

End ChatStateFacts.

(** ** Writing the snapshot: [writeSnapshot] *)

Module SnapshotWrite.
Import Snapshot ChatState.

(** The indentation of [JSON.stringify] with a gap of two spaces. *)
Definition indent (n : nat) : jstr := repeat 32 n.

(** [Array.prototype.join]. *)
Fixpoint join (sep : jstr) (l : list jstr) : jstr :=
  match l with
  | [] => []
  | [x] => x
  | x :: r => x ++ sep ++ join sep r
  end.

(** [String(n)] of a number [n] that is an integer below [10^21] in
    magnitude: its decimal digits. *)
Definition number_text (m : Z) : jstr := z_to_jstr m.

(** An element [{ path, mtime }] of [snapshot.files], serialised at depth 2. *)
Definition entry_text (p : jstr) (m : Z) : jstr :=
  u "{" ++ [10] ++ indent 6 ++ QuoteJSONString (u "path") ++ u ": " ++ QuoteJSONString p ++ u ","
    ++ [10] ++ indent 6 ++ QuoteJSONString (u "mtime") ++ u ": " ++ number_text m
    ++ [10] ++ indent 4 ++ u "}".

(** The element as [JSON.parse] gives it back. *)
Definition entry_json (p : jstr) (m : Z) : jsval :=
  JObj [(u "path", JStr p); (u "mtime", JNum (inject_Z m))].

(** [JSON.stringify(snapshot, null, 2)] for the [snapshot] that
    [writeSnapshot] builds from the [(file.path, file.stat.mtime)] pairs. *)
Definition writeSnapshot_content (fs : files) : jstr :=
  u "{" ++ [10] ++ indent 2 ++ QuoteJSONString (u "files") ++ u ": "
    ++ match fs with
       | [] => u "[]"
       | _ => u "[" ++ [10] ++ indent 4
                ++ join (u "," ++ [10] ++ indent 4) (map (fun '(p, m) => entry_text p m) fs)
                ++ [10] ++ indent 2 ++ u "]"
       end
    ++ [10] ++ u "}".

(** [writeSnapshot(folder, files)]: the snapshot file afterwards
    ([replaceTextFile]). *)
Definition writeSnapshot (fs : files) : disk := FileText (writeSnapshot_content fs).

End SnapshotWrite.

Module SnapshotWriteFacts.
Import Json Snapshot ChatState ChatStateFacts SnapshotClaims SnapshotWrite.

Fixpoint uint_val (d : Decimal.uint) (acc : Z) : Z :=
  match d with
  | Decimal.Nil => acc
  | Decimal.D0 l => uint_val l (acc * 10)
  | Decimal.D1 l => uint_val l (acc * 10 + 1)
  | Decimal.D2 l => uint_val l (acc * 10 + 2)
  | Decimal.D3 l => uint_val l (acc * 10 + 3)
  | Decimal.D4 l => uint_val l (acc * 10 + 4)
  | Decimal.D5 l => uint_val l (acc * 10 + 5)
  | Decimal.D6 l => uint_val l (acc * 10 + 6)
  | Decimal.D7 l => uint_val l (acc * 10 + 7)
  | Decimal.D8 l => uint_val l (acc * 10 + 8)
  | Decimal.D9 l => uint_val l (acc * 10 + 9)
  end.

Lemma of_uint_acc_val (l : Decimal.uint) (acc : positive) :
  Z.pos (Pos.of_uint_acc l acc) = uint_val l (Z.pos acc).
Proof.
  revert acc. induction l; intros acc; cbn [Pos.of_uint_acc uint_val]; try reflexivity;
    rewrite IHl; f_equal; lia.
Qed.

Lemma of_uint_val (d : Decimal.uint) : Z.of_uint d = uint_val d 0.
Proof.
  unfold Z.of_uint.
  induction d; simpl; try exact IHd; try reflexivity; apply of_uint_acc_val.
Qed.

Lemma digits_uint (d : Decimal.uint) (acc : Z) (n : nat) (rest : jstr) :
  digits (u (NilEmpty.string_of_uint d) ++ 10 :: rest) acc n
  = (uint_val d acc, (n + Decimal.nb_digits d)%nat, 10 :: rest).
Proof.
  revert acc n. induction d; intros acc n; [simpl; rewrite Nat.add_0_r; reflexivity|..].
  all: simpl; fold (u (NilEmpty.string_of_uint d)); rewrite IHd.
  all: f_equal; f_equal; try lia; f_equal; lia.
Qed.

Lemma nzhead_not_D0 (d l : Decimal.uint) : Decimal.nzhead d <> Decimal.D0 l.
Proof. induction d; simpl; congruence. Qed.

Lemma to_uint_head (p : positive) (l : Decimal.uint) : Pos.to_uint p <> Decimal.D0 l.
Proof.
  intros H.
  assert (E : N.to_uint (Pos.of_uint (Pos.to_uint p)) = Decimal.unorm (Pos.to_uint p))
    by apply DecimalPos.Unsigned.to_of.
  rewrite DecimalPos.Unsigned.of_to in E. simpl in E.
  rewrite H in E. unfold Decimal.unorm in E. simpl in E.
  destruct (Decimal.nzhead l) eqn:Ez; try discriminate E.
  - apply (DecimalPos.Unsigned.to_uint_nonzero p). rewrite H. exact E.
  - injection E as E. subst. exact (nzhead_not_D0 _ _ Ez).
Qed.

Lemma u_cons (a : ascii) (s : string) : u (String a s) = Z.of_nat (nat_of_ascii a) :: u s.
Proof. reflexivity. Qed.

Lemma value_nat (f : nat) (m : Z) (rest : jstr) :
  0 <= m ->
  value (S f) (32 :: z_to_jstr m ++ 10 :: rest) = Some (JNum (inject_Z m), 10 :: rest).
Proof.
  intros Hm. unfold z_to_jstr.
  destruct m as [|p|p]; [reflexivity| |lia].
  assert (Hv : Z.pos p = uint_val (Pos.to_uint p) 0).
  { rewrite <- of_uint_val. exact (eq_sym (DecimalZ.of_to (Z.pos p))). }
  pose proof (to_uint_head p) as Hh.
  change (Z.to_int (Z.pos p)) with (Decimal.Pos (Pos.to_uint p)). rewrite Hv.
  destruct (Pos.to_uint p) as [| l | l | l | l | l | l | l | l | l | l] eqn:Eu;
    [exfalso; exact (DecimalPos.Unsigned.to_uint_nonnil p Eu) | exfalso; exact (Hh l eq_refl) | ..];
  cbn [NilEmpty.string_of_int NilEmpty.string_of_uint]; rewrite u_cons;
  remember (u (NilEmpty.string_of_uint l)) as w eqn:Ew;
  simpl; unfold number; simpl; subst w; rewrite digits_uint; simpl; unfold scale; simpl; destruct (uint_val l _); rewrite ?Z.mul_1_r; reflexivity.
Qed.
Definition entry_pre : jstr := Eval vm_compute in uq "{
      'path': '".
Definition entry_mid : jstr := Eval vm_compute in uq ",
      'mtime':".

Lemma entry_shape (p : jstr) (m : Z) (rest : jstr) :
  entry_text p m ++ rest =
  entry_pre ++ quote_body p ++ 34 :: entry_mid ++ 32 :: z_to_jstr m ++ 10 :: indent 4 ++ 125 :: rest.
Proof.
  unfold entry_text, QuoteJSONString, number_text.
  repeat first [rewrite <- app_assoc | progress simpl]. reflexivity.
Qed.

Lemma entry_value (g : nat) (p : jstr) (m : Z) (rest : jstr) :
  Forall (fun c => 0 <= c < 65536) p -> 0 <= m -> g <> O ->
  value (S (S (S g))) (entry_text p m ++ rest) = Some (entry_json p m, rest).
Proof.
  intros Hp Hm Hg. rewrite entry_shape. unfold entry_pre.
  simpl. rewrite quote_body_ok by exact Hp. simpl.
  destruct g as [|f]; [contradiction|].
  rewrite value_nat by exact Hm. simpl. reflexivity.
Qed.

Definition entry_sep : jstr := [44; 10; 32; 32; 32; 32].

Definition entry_ok (e : jstr * Z) : Prop :=
  Forall (fun c => 0 <= c < 65536) (fst e) /\ 0 <= snd e.

Lemma value_skip (f : nat) (a b : jstr) : skip_ws a = skip_ws b -> value (S f) a = value (S f) b.
Proof. intros H. simpl. rewrite H. reflexivity. Qed.

Lemma elements_step (f : nat) (s : jstr) (acc : list jsval) (v : jsval) (r : jstr) :
  value f s = Some (v, r) ->
  elements (S f) s acc =
  match skip_ws r with
  | 44 :: r' => elements f r' (v :: acc)
  | 93 :: r' => Some (rev (v :: acc), r')
  | _ => None
  end.
Proof. intros H. simpl. rewrite H. reflexivity. Qed.

Lemma elements_entries (fs : files) (f : nat) (acc : list jsval) (rest : jstr) :
  fs <> [] -> Forall entry_ok fs -> (List.length fs + 4 <= f)%nat ->
  elements f (10 :: 32 :: 32 :: 32 :: 32 :: join entry_sep (map (fun '(p, m) => entry_text p m) fs)
                ++ 10 :: 32 :: 32 :: 93 :: rest) acc
  = Some (rev acc ++ map (fun '(p, m) => entry_json p m) fs, rest).
Proof.
  revert f acc. induction fs as [|[p m] fs IH]; intros f acc Hne Hok Hf; [contradiction|].
  inversion Hok as [|? ? [Hp Hm] Hok']; subst. cbn [fst snd] in Hp, Hm.
  destruct f as [|f]; [cbn in Hf; lia|].
  destruct fs as [|e fs'].
  - cbn [map join].
    rewrite (elements_step f _ acc (entry_json p m) (10 :: 32 :: 32 :: 93 :: rest)).
    + simpl. rewrite <- ?app_assoc. reflexivity.
    + destruct f as [|[|[|[|g]]]]; cbn in Hf; try lia.
      rewrite (value_skip _ _ (entry_text p m ++ 10 :: 32 :: 32 :: 93 :: rest)) by reflexivity.
      apply entry_value; [exact Hp|exact Hm|discriminate].
  - change (join entry_sep (map (fun '(p, m) => entry_text p m) ((p, m) :: e :: fs')))
      with (entry_text p m ++ entry_sep ++ join entry_sep (map (fun '(p, m) => entry_text p m) (e :: fs'))).
    rewrite <- !app_assoc.
    rewrite (elements_step f _ acc (entry_json p m)
               (entry_sep ++ join entry_sep (map (fun '(p, m) => entry_text p m) (e :: fs'))
                 ++ 10 :: 32 :: 32 :: 93 :: rest)).
    + simpl skip_ws. cbv iota beta.
      rewrite IH by (discriminate || exact Hok' || (cbn in Hf |- *; lia)).
      cbn [rev map]. rewrite <- ?app_assoc. reflexivity.
    + destruct f as [|[|[|[|g]]]]; cbn in Hf; try lia.
      rewrite (value_skip _ _ (entry_text p m ++ entry_sep ++
                 join entry_sep (map (fun '(p, m) => entry_text p m) (e :: fs'))
                 ++ 10 :: 32 :: 32 :: 93 :: rest)) by reflexivity.
      apply entry_value; [exact Hp|exact Hm|discriminate].
Qed.

Lemma value_arr (h : nat) (J Y : jstr) :
  (exists J', J = 123 :: J') ->
  value (S h) (32 :: 91 :: 10 :: 32 :: 32 :: 32 :: 32 :: J ++ Y) =
  match elements h (10 :: 32 :: 32 :: 32 :: 32 :: J ++ Y) [] with
  | Some (l, r') => Some (JArr l, r')
  | None => None
  end.
Proof. intros [J' ->]. reflexivity. Qed.

Lemma content_value (fs : files) (g : nat) :
  Forall entry_ok fs -> (List.length fs + 5 <= g)%nat ->
  value (S (S g)) (writeSnapshot_content fs) = Some (snapshot_json fs, []).
Proof.
  intros Hok Hg.
  destruct fs as [|[p m] fs'].
  - destruct g as [|g]; [cbn in Hg; lia|]. reflexivity.
  - unfold writeSnapshot_content.
    change (u "," ++ [10] ++ indent 4) with entry_sep.
    remember (join entry_sep (map (fun '(p, m) => entry_text p m) ((p, m) :: fs'))) as J eqn:EJ.
    rewrite <- !app_assoc. simpl.
    destruct g as [|h]; [cbn in Hg; lia|].
    rewrite value_arr.
    2:{ subst J. cbn [map]. destruct fs' as [|e fs'']; cbn [join]; eexists; reflexivity. }
    subst J. rewrite elements_entries by (discriminate || exact Hok || (cbn in Hg |- *; lia)).
    reflexivity.
Qed.

Lemma entry_text_length (p : jstr) (m : Z) : (1 <= List.length (entry_text p m))%nat.
Proof. unfold entry_text. simpl. lia. Qed.

Lemma join_length (fs : files) :
  (List.length fs <= List.length (join entry_sep (map (fun '(p, m) => entry_text p m) fs)))%nat.
Proof.
  induction fs as [|[p m] fs IH]; [cbn; lia|].
  destruct fs as [|e fs'].
  - cbn [map join List.length]. apply entry_text_length.
  - change (join entry_sep (map (fun '(p, m) => entry_text p m) ((p, m) :: e :: fs')))
      with (entry_text p m ++ entry_sep ++ join entry_sep (map (fun '(p, m) => entry_text p m) (e :: fs'))).
    rewrite !length_app. pose proof (entry_text_length p m). cbn [List.length] in IH |- *. lia.
Qed.

Lemma content_length (fs : files) : (List.length fs + 5 <= List.length (writeSnapshot_content fs))%nat.
Proof.
  destruct fs as [|[p m] fs']; [cbn; lia|].
  unfold writeSnapshot_content. change (u "," ++ [10] ++ indent 4) with entry_sep.
  generalize (join_length ((p, m) :: fs')).
  remember (join entry_sep (map (fun '(p, m) => entry_text p m) ((p, m) :: fs'))) as J eqn:EJ.
  intros H. rewrite !length_app. simpl. rewrite ?length_app. simpl in H |- *. lia.
Qed.

Lemma readSnapshot_written (fs : files) :
  Forall entry_ok fs -> readSnapshot (FileText (writeSnapshot_content fs)) = snapshot_json fs.
Proof.
  intros Hok. unfold readSnapshot, parse.
  pose proof (content_length fs) as Hl.
  destruct (2 * List.length (writeSnapshot_content fs) + 2)%nat as [|[|g]] eqn:E; [lia..|].
  rewrite content_value by (exact Hok || lia). reflexivity.
Qed.

Lemma snapshot_state_same (fs : files) :
  NoDup (map fst fs) -> snapshot_state (snapshot_json fs) fs = Some (true, false).
Proof.
  intros Hnd. unfold snapshot_state.
  destruct (snapshot_files_props fs) as [Hf Hg]. rewrite Hf, Hg.
  change (get_prop (JArr (map (fun '(p, m) => JObj [(u "path", JStr p); (u "mtime", JNum (inject_Z m))]) fs))
            (u "length"))
    with (Some (JNum (inject_Z (Z.of_nat (List.length
            (map (fun '(p, m) => JObj [(u "path", JStr p); (u "mtime", JNum (inject_Z m))]) fs)))))).
  rewrite map_keys_nodup by exact Hnd. rewrite !length_map.
  cbn [js_strict_eq]. rewrite Qeq_bool_refl. cbn [negb iterate].
  rewrite check_entries_json.
  destruct (existsb (entry_changed fs) fs) eqn:E; [|reflexivity].
  exfalso. apply existsb_exists in E as [[p m] [Hin He]].
  unfold entry_changed in He. cbn [fst snd] in He.
  rewrite (proj2 (map_lookup_some fs p m Hnd) Hin), Z.eqb_refl in He. discriminate He.
Qed.

(** After [writeSnapshot(folder, files)], [readSnapshot] gives back the
    snapshot it serialised, and [getSnapshotState] for the same files
    reports an existing, unchanged snapshot, for files with distinct paths,
    integer modify-times from 0 to below [10^21] and paths of UTF-16 code
    units. *)
Theorem writeSnapshot_round_trip (fs : files)
    (Hok : Forall entry_ok fs) (Hnd : NoDup (map fst fs)) :
  readSnapshot (writeSnapshot fs) = snapshot_json fs /\
  getSnapshotState (writeSnapshot fs) fs = Some (true, false).
Proof.
  assert (H : readSnapshot (writeSnapshot fs) = snapshot_json fs) by (apply readSnapshot_written; exact Hok).
  split; [exact H|].
  unfold getSnapshotState. rewrite H. apply snapshot_state_same. exact Hnd.
Qed.

Definition sample_snapshot : files :=
  [(u "notes/a.md", 1700000000123); (uq "b'\\q.png", 0); ([55296; 10], 42)].

Lemma writeSnapshot_round_trip_witness :
  Forall entry_ok sample_snapshot /\ NoDup (map fst sample_snapshot) /\
  readSnapshot (writeSnapshot sample_snapshot) = snapshot_json sample_snapshot /\
  getSnapshotState (writeSnapshot sample_snapshot) sample_snapshot = Some (true, false).
Proof.
  assert (Hok : Forall entry_ok sample_snapshot)
    by (unfold sample_snapshot;
        repeat (apply Forall_cons;
                [split; [apply Forall_forall; intros c Hc; vm_compute in Hc; intuition (subst; lia)
                        |cbn; lia]|]);
        apply Forall_nil).
  assert (Hnd : NoDup (map fst sample_snapshot))
    by (repeat constructor; vm_compute; intuition discriminate).
  split; [exact Hok|]. split; [exact Hnd|].
  exact (writeSnapshot_round_trip sample_snapshot Hok Hnd).
Defined.

End SnapshotWriteFacts.

(** ** Artifacts: [downloadArtifacts] and [isArtifactDownloaded] *)

Module Artifacts.
Import Vault.

(** The statuses shown next to an artifact: "загрузка", "готово",
    "ошибка", in UTF-16 code units. *)
Definition STATUS_LOADING : jstr := [1079; 1072; 1075; 1088; 1091; 1079; 1082; 1072].
Definition STATUS_READY : jstr := [1075; 1086; 1090; 1086; 1074; 1086].
Definition STATUS_ERROR : jstr := [1086; 1096; 1080; 1073; 1082; 1072].

(** [s.split(sep)] for a one-character separator. *)
Fixpoint split_on (sep : Z) (s : jstr) : list jstr :=
  match s with
  | [] => [[]]
  | c :: r =>
      if c =? sep then [] :: split_on sep r
      else match split_on sep r with
           | w :: ws => (c :: w) :: ws
           | [] => [[c]]
           end
  end.

(** The entries of the vault: [getAbstractFileByPath] finds a [TFile], a
    [TFolder] or nothing. *)
Inductive node := NFile | NFolder.

Definition vault := jstr -> option node.

Definition set_node (v : vault) (p : jstr) (n : node) : vault :=
  fun q => if jstr_eqb q p then Some n else v q.

(** [ensureFolderExists(path)]: [None] is the error thrown when a file
    holds the path. *)
Definition ensureFolderExists (v : vault) (path : jstr) : option vault :=
  match v path with
  | Some NFolder => Some v
  | Some NFile => None
  | None => Some (set_node v path NFolder)
  end.

Section Download.

(** [decodeURIComponent] ([None]: it throws a URIError), and the outcome of
    [requestUrl({ url: this.buildApiUrl(path), ... })] for an artifact path
    ([None]: it throws; otherwise the response status). *)
Variable decodeURIComponent : jstr -> option jstr.
Variable request : jstr -> option Z.

Definition getArtifactFilename (path : jstr) : jstr :=
  let cleaned := match split_on 63 path with w :: _ => w | [] => path end in
  let last := match rev (split_on 47 cleaned) with w :: _ => w | [] => cleaned end in
  match decodeURIComponent last with Some d => d | None => last end.

Definition extractFilename (path : jstr) : jstr :=
  let cleaned := match split_on 63 path with w :: _ => w | [] => path end in
  let last := match rev (split_on 47 cleaned) with w :: _ => w | [] => cleaned end in
  match decodeURIComponent last with Some d => d | None => last end.

(** [ChatModal.getArtifactLocalPath], for the modal's [markdownSourcePath]. *)
Definition getArtifactLocalPath (markdownSourcePath apiPath : jstr) : jstr :=
  let prefix := match markdownSourcePath with [] => [] | _ => markdownSourcePath ++ u "/" end in
  prefix ++ CONTEXT_DIR ++ u "/" ++ ARTIFACTS_DIR ++ u "/" ++ extractFilename apiPath.

Definition isArtifactDownloaded (v : vault) (markdownSourcePath apiPath : jstr) : bool :=
  match v (getArtifactLocalPath markdownSourcePath apiPath) with
  | Some NFile => true
  | _ => false
  end.

(** The body of the [try] for one path: the vault afterwards and the final
    status ([modifyBinary] on an existing file, [createBinary] otherwise,
    which throws when a folder holds the path). *)
Definition download_one (folder_path : jstr) (v : vault) (path : jstr) : vault * jstr :=
  match request path with
  | None => (v, STATUS_ERROR)
  | Some st =>
      if (st <? 200) || (300 <=? st) then (v, STATUS_ERROR)
      else
        let name := getArtifactFilename path in
        let targetPath := getArtifactsPath folder_path ++ u "/" ++ name in
        match v targetPath with
        | Some NFile => (v, STATUS_READY)
        | Some NFolder => (v, STATUS_ERROR)
        | None => (set_node v targetPath NFile, STATUS_READY)
        end
  end.

(** The [for] loop: each path reports "загрузка", then its final status. *)
Fixpoint download_loop (folder_path : jstr) (v : vault) (paths : list jstr)
  : vault * list (jstr * jstr) :=
  match paths with
  | [] => (v, [])
  | p :: r =>
      let '(v1, st) := download_one folder_path v p in
      let '(v2, evs) := download_loop folder_path v1 r in
      (v2, (p, STATUS_LOADING) :: (p, st) :: evs)
  end.

(** [downloadArtifacts(folder, paths, onStatus)]: [None] when it throws
    (no API host, or a file where the artifacts folder goes); otherwise
    the vault afterwards and the [onStatus] calls in order. *)
Definition downloadArtifacts (apiHost folder_path : jstr) (v : vault) (paths : list jstr)
  : option (vault * list (jstr * jstr)) :=
  match apiHost with
  | [] => None
  | _ =>
      match ensureFolderExists v (getArtifactsPath folder_path) with
      | None => None
      | Some v1 => Some (download_loop folder_path v1 paths)
      end
  end.

End Download.

End Artifacts.

Module ArtifactsFacts.
Import Vault Artifacts.

Section Facts.

Variable dec : jstr -> option jstr.
Variable request : jstr -> option Z.

Lemma target_is_local (fp p : jstr) :
  getArtifactsPath fp ++ u "/" ++ getArtifactFilename dec p = getArtifactLocalPath dec fp p.
Proof.
  unfold getArtifactsPath, getContextPath, getArtifactLocalPath.
  rewrite <- !app_assoc. reflexivity.
Qed.

Lemma set_node_keeps (v : vault) (t q : jstr) (n : node) :
  v q = Some NFile -> n = NFile \/ v t = None -> set_node v t n q = Some NFile.
Proof.
  intros Hq Hn. unfold set_node.
  destruct (jstr_eqb q t) eqn:E; [|exact Hq].
  apply SnapshotClaims.jstr_eqb_eq in E. subst t.
  destruct Hn as [->|Hn]; [reflexivity|congruence].
Qed.

Lemma set_node_here (v : vault) (t : jstr) (n : node) : set_node v t n t = Some n.
Proof. unfold set_node. rewrite SnapshotClaims.jstr_eqb_refl. reflexivity. Qed.

Lemma download_one_keeps (fp : jstr) (v : vault) (p q : jstr) :
  v q = Some NFile -> fst (download_one dec request fp v p) q = Some NFile.
Proof.
  intros Hq. unfold download_one.
  destruct (request p) as [st|]; [|exact Hq].
  destruct ((st <? 200) || (300 <=? st)); [exact Hq|].
  destruct (v (getArtifactsPath fp ++ u "/" ++ getArtifactFilename dec p)) as [[|]|] eqn:E;
    try exact Hq.
  apply set_node_keeps; [exact Hq|right; exact E].
Qed.

Lemma download_one_status (fp : jstr) (v : vault) (p : jstr) :
  (snd (download_one dec request fp v p) = STATUS_READY /\
   fst (download_one dec request fp v p) (getArtifactLocalPath dec fp p) = Some NFile) \/
  snd (download_one dec request fp v p) = STATUS_ERROR.
Proof.
  unfold download_one. rewrite target_is_local.
  destruct (request p) as [st|]; [|right; reflexivity].
  destruct ((st <? 200) || (300 <=? st)); [right; reflexivity|].
  destruct (v (getArtifactLocalPath dec fp p)) as [[|]|] eqn:E.
  - left. split; [reflexivity|exact E].
  - right. reflexivity.
  - left. split; [reflexivity|apply set_node_here].
Qed.

Lemma download_loop_keeps (fp : jstr) (paths : list jstr) :
  forall (v : vault) (q : jstr),
  v q = Some NFile -> fst (download_loop dec request fp v paths) q = Some NFile.
Proof.
  induction paths as [|p r IH]; intros v q Hq; [exact Hq|].
  cbn [download_loop].
  pose proof (download_one_keeps fp v p q Hq) as H1.
  destruct (download_one dec request fp v p) as [v1 st].
  destruct (download_loop dec request fp v1 r) as [v2 evs] eqn:E.
  cbn [fst]. specialize (IH v1 q H1). rewrite E in IH. exact IH.
Qed.

Lemma loading_not_ready : STATUS_LOADING <> STATUS_READY.
Proof. discriminate. Qed.

Lemma download_loop_ready (fp : jstr) (paths : list jstr) :
  forall (v : vault) (p : jstr),
  In (p, STATUS_READY) (snd (download_loop dec request fp v paths)) ->
  fst (download_loop dec request fp v paths) (getArtifactLocalPath dec fp p) = Some NFile.
Proof.
  induction paths as [|p0 r IH]; intros v p Hin; [destruct Hin|].
  cbn [download_loop] in Hin |- *.
  pose proof (download_one_status fp v p0) as Hst.
  destruct (download_one dec request fp v p0) as [v1 st].
  pose proof (fun q => download_loop_keeps fp r v1 q) as Hk.
  specialize (IH v1 p).
  destruct (download_loop dec request fp v1 r) as [v2 evs] eqn:E.
  cbn [fst snd] in Hin, Hst, Hk, IH |- *.
  destruct Hin as [Hin|[Hin|Hin]].
  - apply (f_equal snd) in Hin. cbn [snd] in Hin. exfalso. exact (loading_not_ready Hin).
  - injection Hin as <- Hs. destruct Hst as [[_ Hf]|Hs']; [|subst; discriminate].
    apply Hk. exact Hf.
  - apply IH. exact Hin.
Qed.

Lemma download_loop_reports (fp : jstr) (paths : list jstr) :
  forall (v : vault),
  Forall (fun p => In (p, STATUS_READY) (snd (download_loop dec request fp v paths)) \/
                   In (p, STATUS_ERROR) (snd (download_loop dec request fp v paths))) paths.
Proof.
  induction paths as [|p0 r IH]; intros v; [constructor|].
  cbn [download_loop].
  pose proof (download_one_status fp v p0) as Hst.
  destruct (download_one dec request fp v p0) as [v1 st].
  specialize (IH v1).
  destruct (download_loop dec request fp v1 r) as [v2 evs] eqn:E.
  cbn [fst snd] in Hst, IH |- *.
  constructor.
  - destruct Hst as [[Hs _]|Hs]; subst st; [left|right]; right; left; reflexivity.
  - eapply Forall_impl; [|exact IH].
    intros p [Hp|Hp]; [left|right]; right; right; exact Hp.
Qed.

End Facts.

(** Every artifact path [downloadArtifacts] reports as "готово" is, once it
    returns, a file at the path the chat modal of the same folder looks up
    ([isArtifactDownloaded], [openArtifact]), whatever the requests and
    [decodeURIComponent] give; and every path gets a final status, "готово"
    or "ошибка". *)
Theorem downloadArtifacts_ready_opens (dec : jstr -> option jstr) (request : jstr -> option Z)
    (apiHost folder_path : jstr) (v v' : vault) (paths : list jstr) (evs : list (jstr * jstr))
    (H : downloadArtifacts dec request apiHost folder_path v paths = Some (v', evs)) :
  (forall p, In (p, STATUS_READY) evs -> isArtifactDownloaded dec v' folder_path p = true) /\
  Forall (fun p => In (p, STATUS_READY) evs \/ In (p, STATUS_ERROR) evs) paths.
Proof.
  unfold downloadArtifacts in H.
  destruct apiHost as [|c a]; [discriminate H|].
  destruct (ensureFolderExists v (getArtifactsPath folder_path)) as [v1|]; [|discriminate H].
  injection H as H.
  pose proof (download_loop_ready dec request folder_path paths v1) as Hr.
  pose proof (download_loop_reports dec request folder_path paths v1) as Hp.
  rewrite H in Hr, Hp. cbn [fst snd] in Hr, Hp.
  split; [|exact Hp].
  intros p Hin. unfold isArtifactDownloaded. rewrite (Hr p Hin). reflexivity.
Qed.

Definition sample_request (path : jstr) : option Z :=
  if jstr_eqb path (u "/artifacts/missing.csv") then Some 404 else Some 200.

Definition sample_paths : list jstr :=
  [u "/artifacts/report%20v2.pdf?token=1"; u "/artifacts/missing.csv"].

Lemma downloadArtifacts_ready_opens_witness :
  exists v' evs,
    downloadArtifacts (fun s => Some s) sample_request (u "https://api") (u "Notes")
      (fun _ => None) sample_paths = Some (v', evs) /\
    In (u "/artifacts/report%20v2.pdf?token=1", STATUS_READY) evs /\
    isArtifactDownloaded (fun s => Some s) v' (u "Notes") (u "/artifacts/report%20v2.pdf?token=1") = true.
Proof.
  pose (r := download_loop (fun s => Some s) sample_request (u "Notes")
               (set_node (fun _ => None) (getArtifactsPath (u "Notes")) NFolder) sample_paths).
  assert (H : downloadArtifacts (fun s => Some s) sample_request (u "https://api") (u "Notes")
                (fun _ => None) sample_paths = Some (fst r, snd r)) by reflexivity.
  assert (Hin : In (u "/artifacts/report%20v2.pdf?token=1", STATUS_READY) (snd r))
    by (vm_compute; right; left; reflexivity).
  exists (fst r), (snd r). split; [exact H|]. split; [exact Hin|].
  exact (proj1 (downloadArtifacts_ready_opens (fun s => Some s) sample_request (u "https://api")
                  (u "Notes") (fun _ => None) (fst r) sample_paths (snd r) H) _ Hin).
Defined.

End ArtifactsFacts.

(** ** [formatTimestamp] *)

Module Timestamp.

(** The fields of a [Date] in local time. *)
Record date := {
  getDate : Z; getMonth : Z; getFullYear : Z;
  getHours : Z; getMinutes : Z; getSeconds : Z
}.

(** [s.padStart(2, "0")]. *)
Definition padStart2 (s : jstr) : jstr :=
  if (List.length s <? 2)%nat then repeat 48 (2 - List.length s) ++ s else s.

(** [s.slice(-2)]. *)
Definition slice_last2 (s : jstr) : jstr := skipn (List.length s - 2) s.

Definition formatTimestamp (d : date) : jstr :=
  let day := padStart2 (z_to_jstr (getDate d)) in
  let month := padStart2 (z_to_jstr (getMonth d + 1)) in
  let year := slice_last2 (z_to_jstr (getFullYear d)) in
  let hours := padStart2 (z_to_jstr (getHours d)) in
  let minutes := padStart2 (z_to_jstr (getMinutes d)) in
  let seconds := padStart2 (z_to_jstr (getSeconds d)) in
  day ++ u "-" ++ month ++ u "-" ++ year ++ u "T" ++ hours ++ u "-" ++ minutes ++ u "-" ++ seconds.

End Timestamp.

Module TimestampFacts.
Import Timestamp.

Definition two_digits (n : Z) : jstr := [48 + n / 10; 48 + n mod 10].

Lemma forallb_range (P : Z -> bool) (lo k : Z) :
  forallb P (map (fun i => lo + Z.of_nat i) (seq 0 (Z.to_nat k))) = true ->
  forall n, lo <= n < lo + k -> P n = true.
Proof.
  intros H n Hn. rewrite forallb_forall in H.
  replace n with (lo + Z.of_nat (Z.to_nat (n - lo))) by lia.
  apply H. apply (in_map (fun i : nat => lo + Z.of_nat i)). apply in_seq. lia.
Qed.

Lemma pad_two_digits (n : Z) : 0 <= n < 100 -> padStart2 (z_to_jstr n) = two_digits n.
Proof.
  intros Hn.
  assert (Hb : forallb (fun n => if list_eq_dec Z.eq_dec (padStart2 (z_to_jstr n)) (two_digits n)
                                 then true else false)
                 (map (fun i => 0 + Z.of_nat i) (seq 0 (Z.to_nat 100))) = true) by (vm_compute; reflexivity).
  pose proof (forallb_range _ 0 100 Hb n ltac:(lia)) as H. cbv beta in H.
  destruct (list_eq_dec Z.eq_dec (padStart2 (z_to_jstr n)) (two_digits n)); [assumption|discriminate H].
Qed.

Lemma slice_two_digits (y : Z) :
  10 <= y <= 9999 -> slice_last2 (z_to_jstr y) = two_digits (y mod 100).
Proof.
  intros Hy.
  assert (Hb : forallb (fun y => if list_eq_dec Z.eq_dec (slice_last2 (z_to_jstr y)) (two_digits (y mod 100))
                                 then true else false)
                 (map (fun i => 10 + Z.of_nat i) (seq 0 (Z.to_nat 9990))) = true) by (vm_compute; reflexivity).
  pose proof (forallb_range _ 10 9990 Hb y ltac:(lia)) as H. cbv beta in H.
  destruct (list_eq_dec Z.eq_dec (slice_last2 (z_to_jstr y)) (two_digits (y mod 100)));
    [assumption|discriminate H].
Qed.

Lemma two_digits_inj (a b : Z) : 0 <= a < 100 -> 0 <= b < 100 -> two_digits a = two_digits b -> a = b.
Proof.
  intros Ha Hb H.
  assert (H1 : 48 + a / 10 = 48 + b / 10) by exact (f_equal (fun l => nth 0 l 0) H).
  assert (H2 : 48 + a mod 10 = 48 + b mod 10) by exact (f_equal (fun l => nth 1 l 0) H).
  pose proof (Z.div_mod a 10 ltac:(lia)). pose proof (Z.div_mod b 10 ltac:(lia)). lia.
Qed.

Lemma app_same_length (x y r r' : jstr) :
  x ++ r = y ++ r' -> List.length x = List.length y -> x = y /\ r = r'.
Proof.
  revert y. induction x as [|a x IH]; intros [|b y] H Hl; simpl in *; try discriminate.
  - split; [reflexivity|exact H].
  - injection H as -> H. injection Hl as Hl. destruct (IH y H Hl) as [-> ->]. split; reflexivity.
Qed.

(** The ranges [Date] keeps its local fields in, for a four-digit year. *)
Definition valid_date (d : date) : Prop :=
  1 <= getDate d <= 31 /\ 0 <= getMonth d <= 11 /\ 10 <= getFullYear d <= 9999 /\
  0 <= getHours d <= 23 /\ 0 <= getMinutes d <= 59 /\ 0 <= getSeconds d <= 59.

Lemma formatTimestamp_digits (d : date) :
  valid_date d ->
  formatTimestamp d =
  two_digits (getDate d) ++ [45] ++ two_digits (getMonth d + 1) ++ [45] ++
  two_digits (getFullYear d mod 100) ++ [84] ++ two_digits (getHours d) ++ [45] ++
  two_digits (getMinutes d) ++ [45] ++ two_digits (getSeconds d).
Proof.
  intros (H1 & H2 & H3 & H4 & H5 & H6). unfold formatTimestamp.
  rewrite !pad_two_digits by lia. rewrite slice_two_digits by lia. reflexivity.
Qed.

(** [formatTimestamp] always gives [DD-MM-YYTHH-MM-SS], 17 code units with
    no path separator, and two dates (years 10 to 9999) give the same
    string exactly when they agree on the day, month, hour, minute, second
    and the year modulo 100. *)
Theorem formatTimestamp_injective (d d' : date) (Hd : valid_date d) (Hd' : valid_date d') :
  List.length (formatTimestamp d) = 17%nat /\ ~ In 47 (formatTimestamp d) /\
  (formatTimestamp d = formatTimestamp d' <->
   getDate d = getDate d' /\ getMonth d = getMonth d' /\
   getFullYear d mod 100 = getFullYear d' mod 100 /\
   getHours d = getHours d' /\ getMinutes d = getMinutes d' /\ getSeconds d = getSeconds d').
Proof.
  rewrite (formatTimestamp_digits d Hd), (formatTimestamp_digits d' Hd').
  destruct Hd as (H1 & H2 & H3 & H4 & H5 & H6).
  destruct Hd' as (H1' & H2' & H3' & H4' & H5' & H6').
  split; [reflexivity|]. split.
  { unfold two_digits. cbn [app In].
    pose proof (Z.mod_pos_bound (getDate d) 10). pose proof (Z.mod_pos_bound (getMonth d + 1) 10).
    pose proof (Z.mod_pos_bound (getFullYear d mod 100) 10).
    pose proof (Z.mod_pos_bound (getHours d) 10). pose proof (Z.mod_pos_bound (getMinutes d) 10).
    pose proof (Z.mod_pos_bound (getSeconds d) 10).
    pose proof (Z.mod_pos_bound (getFullYear d) 100).
    assert (0 <= getDate d / 10) by (apply Z.div_pos; lia).
    assert (0 <= (getMonth d + 1) / 10) by (apply Z.div_pos; lia).
    assert (0 <= getFullYear d mod 100 / 10) by (apply Z.div_pos; lia).
    assert (0 <= getHours d / 10) by (apply Z.div_pos; lia).
    assert (0 <= getMinutes d / 10) by (apply Z.div_pos; lia).
    assert (0 <= getSeconds d / 10) by (apply Z.div_pos; lia).
    intuition lia. }
  split.
  - intros H.
    repeat (apply app_same_length in H; [|reflexivity]; destruct H as [? H]).
    pose proof (Z.mod_pos_bound (getFullYear d) 100). pose proof (Z.mod_pos_bound (getFullYear d') 100).
    repeat split;
      [apply two_digits_inj; [lia|lia|assumption]
      |assert (getMonth d + 1 = getMonth d' + 1) by (apply two_digits_inj; [lia|lia|assumption]); lia
      |apply two_digits_inj; [lia|lia|assumption]..].
  - intros (E1 & E2 & E3 & E4 & E5 & E6). rewrite E1, E2, E3, E4, E5, E6. reflexivity.
Qed.

Definition sample_date : date := {| getDate := 5; getMonth := 0; getFullYear := 2026;
  getHours := 9; getMinutes := 7; getSeconds := 3 |}.
Definition sample_date' : date := {| getDate := 5; getMonth := 0; getFullYear := 2026;
  getHours := 9; getMinutes := 7; getSeconds := 4 |}.

Lemma formatTimestamp_injective_witness :
  valid_date sample_date /\ valid_date sample_date' /\
  formatTimestamp sample_date = u "05-01-26T09-07-03" /\
  formatTimestamp sample_date <> formatTimestamp sample_date'.
Proof.
  assert (H : valid_date sample_date) by (unfold valid_date; cbn; lia).
  assert (H' : valid_date sample_date') by (unfold valid_date; cbn; lia).
  split; [exact H|]. split; [exact H'|]. split; [vm_compute; reflexivity|].
  intros E. apply (formatTimestamp_injective sample_date sample_date' H H') in E.
  cbn in E. lia.
Defined.

End TimestampFacts.
